(** * SCM10 temperature monitor: the monitoring engine, embedded and verified

    A shallow embedding of the engine of [scm10_monitor] (alarm.py,
    protocol.py, settings.py, comms.py, logger.py and the polling code of
    main_window.py), one module per source file and one nested module per
    Python class.  The definitions come first, the theorems follow.

    Modelling conventions.
    - A Python [str] is a list of code points ([N]); a [bytes] object is a
      list of 8-bit characters ([ascii]).
    - A Python [float] is a binary64 value ([Float.t]): a finite value is
      kept by the rational it denotes, and the results of [float(...)] and
      of a subtraction are rounded to the nearest binary64 value, ties to
      even, with overflow to an infinity.
    - A Python [int] is a [Z].
    - An attribute that holds [None] or an object is an [option].
    - A method that mutates [self] returns the new [self]; a method that can
      raise returns a [result]; what a method does to the outside world
      (beep, thread start, file write, socket call) is returned as a list of
      events, and what it reads from the outside world (clock, incoming
      bytes, disk outcome) is an explicit argument. *)

From Stdlib Require Import ZArith NArith QArith Qpower Bool List Ascii String Lia Lqa.
Import ListNotations.

Set Implicit Arguments.

(** ** Python values *)

Module Py.

Definition codepoint := N.
Definition str := list codepoint.
Definition bytes := list ascii.

Definition ord (c : ascii) : codepoint := N_of_ascii c.

(** A string literal of the source, as a [str]. *)
Definition lit (s : string) : str := map ord (list_ascii_of_string s).

(** Exceptions that the modelled code raises or lets through. *)
Inductive exn : Type :=
| ValueError (msg : string)
| RuntimeError (msg : string)
| UnicodeDecodeError (reason : string)
| UnicodeEncodeError (reason : string)
| SerialException (msg : string)  (* pyserial *)
| PortNotOpenError                (* pyserial: operation on a closed port *)
| SocketTimeout                   (* socket.timeout *)
| OSError (errno : Z)
(* a [ValueError] whose text is [msg] followed by [repr(arg)] *)
| ValueErrorRepr (msg : string) (arg : str).

Inductive result (A : Type) : Type :=
| Ok (a : A)
| Raise (e : exn).
Arguments Ok {A} a.
Arguments Raise {A} e.

Definition is_Ok {A} (r : result A) : bool :=
  match r with Ok _ => true | Raise _ => false end.

(** The two tables of the Unicode character database that the built-ins
    used by the program consult; they are not part of the repository. *)
Record unicode_db : Type := {
  (* digit value of a code point of category Nd outside ASCII *)
  decimal : codepoint -> option N;
  (* the code point of a character name, for the [\N{...}] escape *)
  lookup_name : bytes -> option codepoint
}.

(** The slice [l[start:]]. *)
Definition slice_from {A} (start : Z) (l : list A) : list A :=
  let n := Z.of_nat (List.length l) in
  let i := if (start <? 0)%Z then Z.max (n + start) 0 else Z.min start n in
  skipn (Z.to_nat i) l.

(** [str.isspace] of one character. *)
Definition isspace (c : codepoint) : bool :=
  (((9 <=? c) && (c <=? 13)) || ((28 <=? c) && (c <=? 32))
   || (c =? 133) || (c =? 160) || (c =? 5760)
   || ((8192 <=? c) && (c <=? 8202))
   || (c =? 8232) || (c =? 8233) || (c =? 8239) || (c =? 8287)
   || (c =? 12288))%N.

Fixpoint lstrip (s : str) : str :=
  match s with
  | c :: s' => if isspace c then lstrip s' else s
  | [] => []
  end.

Definition rstrip (s : str) : str := rev (lstrip (rev s)).

(** [s.strip()] *)
Definition strip (s : str) : str := rstrip (lstrip s).

(** No blank is left at either end of [r]. *)
Definition trimmed (r : str) : Prop :=
  match r with c :: _ => isspace c = false | [] => True end /\
  match rev r with c :: _ => isspace c = false | [] => True end.

(** [s.encode("ascii", errors="ignore")] *)
Definition encode_ascii_ignore (s : str) : bytes :=
  map ascii_of_N (filter (fun c => (c <? 128)%N) s).

(** [data.decode("ascii", errors="ignore")] *)
Definition decode_ascii_ignore (data : bytes) : str :=
  filter (fun c => (c <? 128)%N) (map ord data).

(** What is left of [s] after its longest prefix of characters in [p]. *)
Fixpoint drop_while {A} (p : A -> bool) (s : list A) : list A :=
  match s with
  | c :: s' => if p c then drop_while p s' else s
  | [] => []
  end.

(** [x == y] on two [bytes] objects. *)
Fixpoint bytes_eqb (x y : bytes) : bool :=
  match x, y with
  | [], [] => true
  | a :: x', b :: y' => Ascii.eqb a b && bytes_eqb x' y'
  | _, _ => false
  end.

Fixpoint startswith (prefix data : bytes) : bool :=
  match prefix, data with
  | [], _ => true
  | a :: p', b :: d' => Ascii.eqb a b && startswith p' d'
  | _ :: _, [] => false
  end.

(** [sub in data] on two [bytes] objects. *)
Fixpoint contains (sub data : bytes) : bool :=
  startswith sub data ||
  match data with
  | [] => false
  | _ :: d' => contains sub d'
  end.

End Py.

(** ** Python floats *)

(** A [float] of Python is an IEEE 754 binary64 value.  A finite value is
    kept by the rational it denotes; the sign of a zero is not kept, since
    the comparisons and the subtraction that the program makes give the
    same result for both zeros. *)
Module Float.

Inductive t : Type :=
| Finite (q : Q)
| PosInf
| NegInf
| NaN.

(** The format: 53 bits of precision, [2 ^ emin] the least positive value,
    [2 ^ emax] the first power of two out of range. *)
Definition prec : Z := 53.
Definition emin : Z := -1074.
Definition emax : Z := 1024.

(** Numerator and denominator of [(n / d) / 2 ^ e]. *)
Definition scale (n d e : Z) : Z * Z :=
  if (0 <=? e)%Z then (n, (d * 2 ^ e)%Z) else ((n * 2 ^ (- e))%Z, d).

(** The [k] with [2 ^ k <= n / d < 2 ^ (k + 1)]. *)
Definition floor_log2 (n d : positive) : Z :=
  let k := (Z.log2 (Zpos n) - Z.log2 (Zpos d))%Z in
  let '(a, b) := scale (Zpos n) (Zpos d) k in
  if (b <=? a)%Z then k else (k - 1)%Z.

(** [m * 2 ^ e] *)
Definition value (m e : Z) : Q :=
  if (0 <=? e)%Z then inject_Z (m * 2 ^ e)
  else Qred (m # Z.to_pos (2 ^ (- e))).

(** The binary64 value nearest to [n / d], ties to even: [e] is the
    exponent of the last bit that the format keeps at the size of [n / d],
    [m] the bits kept and [r] what is cut off. *)
Definition round_pos (n d : positive) : t :=
  let k := floor_log2 n d in
  let e := Z.max (k - (prec - 1)) emin in
  let '(a, b) := scale (Zpos n) (Zpos d) e in
  let m := (a / b)%Z in
  let r := (a mod b)%Z in
  let m' :=
    if (2 * r <? b)%Z then m
    else if (b <? 2 * r)%Z then (m + 1)%Z
    else if Z.even m then m else (m + 1)%Z in
  if (0 <=? e)%Z && (2 ^ emax <=? m' * 2 ^ e)%Z then PosInf
  else Finite (value m' e).

Definition neg (x : t) : t :=
  match x with
  | Finite q => Finite (- q)
  | PosInf => NegInf
  | NegInf => PosInf
  | NaN => NaN
  end.

(** The float that a real result is rounded to. *)
Definition round (x : Q) : t :=
  match Qnum (Qred x) with
  | Z0 => Finite 0
  | Zpos n => round_pos n (Qden (Qred x))
  | Zneg n => neg (round_pos n (Qden (Qred x)))
  end.

(** [x - y] *)
Definition sub (x y : t) : t :=
  match x, y with
  | NaN, _ | _, NaN => NaN
  | PosInf, PosInf | NegInf, NegInf => NaN
  | PosInf, _ | _, NegInf => PosInf
  | NegInf, _ | _, PosInf => NegInf
  | Finite a, Finite b => round (a - b)
  end.

(** [x < y]; [x > y] is [ltb y x]. *)
Definition ltb (x y : t) : bool :=
  match x, y with
  | NaN, _ | _, NaN => false
  | _, NegInf | PosInf, _ => false
  | NegInf, _ | _, PosInf => true
  | Finite a, Finite b => negb (Qle_bool b a)
  end.

(** [x >= n] for an [int] [n]: Python compares the two exactly. *)
Definition ge_int (x : t) (n : Z) : bool :=
  match x with
  | NaN | NegInf => false
  | PosInf => true
  | Finite a => Qle_bool (inject_Z n) a
  end.

(** The truth value of a float: every value but zero is true. *)
Definition truthy (x : t) : bool :=
  match x with
  | Finite a => negb (Qeq_bool a 0)
  | _ => true
  end.

End Float.

Import Py.

(** ** emailer.py: the configuration record handed to the sender *)

Module Emailer.

Record EmailConfig : Type := {
  smtp_host : str;
  smtp_port : Z;
  use_tls : bool;
  username : str;
  password : str;
  from_addr : str;
  to_addrs : list str;
  subject : str
}.

End Emailer.

(** ** alarm.py *)

Module Alarm.
Import Emailer.

Record AlarmSettings : Type := {
  enabled : bool;
  low_enabled : bool;
  low_threshold : Float.t;
  high_enabled : bool;
  high_threshold : Float.t;
  beep_enabled : bool;
  email_enabled : bool;
  email_min_interval_min : Z
}.

(** [AlarmManager.__init__] / the object's two attributes. *)
Record AlarmManager : Type := {
  _last_email_ts : option Float.t;
  _in_alarm : bool
}.

Definition init : AlarmManager :=
  {| _last_email_ts := None; _in_alarm := false |}.

Definition reset (self : AlarmManager) : AlarmManager :=
  {| _last_email_ts := None; _in_alarm := false |}.

(** What [evaluate] does to the outside world: [_beep] and the start of
    the sender thread of [_send_email_async], with the arguments the
    thread closes over. *)
Inductive effect : Type :=
| Beep
| SendEmailAsync (email_config : EmailConfig) (temperature : Float.t)
                 (is_low is_high : bool).

Definition is_send (e : effect) : bool :=
  match e with SendEmailAsync _ _ _ _ => true | Beep => false end.

(** [_send], the body of the thread: the status word of the message. *)
Definition status_word (is_low is_high : bool) : string :=
  if is_low then "LOW"%string else "HIGH"%string.

(** [settings.low_enabled and temperature < settings.low_threshold] *)
Definition is_low (temperature : Float.t) (settings : AlarmSettings) : bool :=
  low_enabled settings && Float.ltb temperature (low_threshold settings).

(** [settings.high_enabled and temperature > settings.high_threshold] *)
Definition is_high (temperature : Float.t) (settings : AlarmSettings) : bool :=
  high_enabled settings && Float.ltb (high_threshold settings) temperature.

Definition min_interval (settings : AlarmSettings) : Z :=
  (Z.max 1 (email_min_interval_min settings) * 60)%Z.

(** [self._last_email_ts is None or (now - self._last_email_ts) >=
    min_interval]: the difference is a float, rounded, and it is compared
    with an [int]. *)
Definition due (last : option Float.t) (now : Float.t)
           (settings : AlarmSettings) : bool :=
  match last with
  | None => true
  | Some t => Float.ge_int (Float.sub now t) (min_interval settings)
  end.

(** [AlarmManager.evaluate]; [now] is the value [time.time()] returns
    when it is called (it is read only inside the email branch). *)
Definition evaluate (now : Float.t) (self : AlarmManager)
           (temperature : Float.t)
           (settings : AlarmSettings) (email_config : option EmailConfig)
  : AlarmManager * list effect :=
  if negb (enabled settings) then
    ({| _last_email_ts := _last_email_ts self; _in_alarm := false |}, [])
  else
    let is_low := is_low temperature settings in
    let is_high := is_high temperature settings in
    let in_alarm := is_low || is_high in
    let beeps := if in_alarm && beep_enabled settings then [Beep] else [] in
    let '(last, mails) :=
      (* [in_alarm and settings.email_enabled and email_config]: an
         [EmailConfig] object is true, [None] is false *)
      match (if in_alarm && email_enabled settings
             then email_config else None) with
      | Some cfg =>
          if due (_last_email_ts self) now settings
          then (Some now, [SendEmailAsync cfg temperature is_low is_high])
          else (_last_email_ts self, [])
      | None => (_last_email_ts self, [])
      end in
    ({| _last_email_ts := last; _in_alarm := in_alarm |}, beeps ++ mails).

(** One call of [evaluate] as a session makes it: [_poll_temperature]
    passes the reading, the settings of the alarm form and the
    [EmailConfig] of the email form; [call_now] is what [time.time()]
    returns during the call. *)
Record call : Type := {
  call_now : Float.t;
  call_temperature : Float.t;
  call_settings : AlarmSettings;
  call_email_config : EmailConfig
}.

(** A sequence of evaluations on one manager; the effects are kept per
    call. *)
Fixpoint run (self : AlarmManager) (calls : list call)
  : AlarmManager * list (list effect) :=
  match calls with
  | [] => (self, [])
  | c :: rest =>
      let '(self1, effs) :=
        evaluate (call_now c) self (call_temperature c)
                 (call_settings c) (Some (call_email_config c)) in
      let '(self2, effss) := run self1 rest in
      (self2, effs :: effss)
  end.

(** Number of notifications dispatched by one call. *)
Definition sent (effs : list effect) : nat :=
  List.length (filter is_send effs).

(** *** The debounce rule as the specification words it *)

(** "Send a notification only if lastNotificationSentAt is unset or
    now - lastNotificationSentAt >= minInterval", with
    "minInterval = max(1, emailMinIntervalMinutes) * 60s". *)
Definition spec_due (last : option Float.t) (now : Float.t) (minutes : Z)
  : Prop :=
  match last with
  | None => True
  | Some t =>
      Float.ge_int (Float.sub now t) (Z.max 1 minutes * 60)%Z = true
  end.

(** A call "with the alarm enabled, a breached threshold, and email
    enabled". *)
Definition alarm_mail_active (c : call) : Prop :=
  enabled (call_settings c) = true /\
  is_low (call_temperature c) (call_settings c)
    || is_high (call_temperature c) (call_settings c) = true /\
  email_enabled (call_settings c) = true.

(** What the rule prescribes for a sequence of such calls that starts with
    the timestamp [last]: [counts] are the notifications of each call and
    [final] is the timestamp that remains.  A call that is due sends one
    notification and its time becomes the timestamp; a call that is not due
    sends none and leaves the timestamp alone. *)
Fixpoint spec_debounce (last : option Float.t) (calls : list call)
         (counts : list nat) (final : option Float.t) : Prop :=
  match calls, counts with
  | [], [] => final = last
  | c :: calls', n :: counts' =>
      let minutes := email_min_interval_min (call_settings c) in
      (spec_due last (call_now c) minutes /\ n = 1%nat /\
       spec_debounce (Some (call_now c)) calls' counts' final)
      \/
      (~ spec_due last (call_now c) minutes /\ n = 0%nat /\
       spec_debounce last calls' counts' final)
  | _, _ => False
  end.

(** The calls of the debounce scenario: the same reading, settings and
    email configuration at the given times. *)
Definition calls_at (temperature : Float.t) (settings : AlarmSettings)
           (cfg : EmailConfig) (times : list Float.t) : list call :=
  map (fun now => {| call_now := now; call_temperature := temperature;
                     call_settings := settings;
                     call_email_config := cfg |}) times.

End Alarm.

(** ** protocol.py *)

Module Protocol.

(** *** The part of [re] that the pattern of [parse_temperature] uses *)

(** A pattern: a character class, a sequence, a greedy [?] and a greedy
    [+] over a character class. *)
Inductive regex : Type :=
| Class (p : codepoint -> bool)
| Cat (r1 r2 : regex)
| Opt (r : regex)
| Plus (p : codepoint -> bool).

(** Greedy [p+] followed by the continuation [k]: as many characters as
    possible first, one fewer on failure. *)
Fixpoint match_plus {R} (p : codepoint -> bool) (s : str)
         (k : str -> option R) : option R :=
  match s with
  | c :: s' =>
      if p c then
        match match_plus p s' k with
        | Some x => Some x
        | None => k s'
        end
      else None
  | [] => None
  end.

(** The backtracking matcher: [rmatch r s k] matches [r] at the start of
    [s] and hands what follows to [k], trying the alternatives in the
    order [re] tries them. *)
Fixpoint rmatch {R} (r : regex) (s : str) (k : str -> option R)
  : option R :=
  match r with
  | Class p =>
      match s with
      | c :: s' => if p c then k s' else None
      | [] => None
      end
  | Cat r1 r2 => rmatch r1 s (fun s1 => rmatch r2 s1 k)
  | Opt r1 =>
      match rmatch r1 s k with
      | Some x => Some x
      | None => k s
      end
  | Plus p => match_plus p s k
  end.

(** A match object: [m.start()] and [m.group(0)]. *)
Record Match : Type := { start : nat; group0 : str }.

(** [re.search]: the first position at which the pattern matches. *)
Fixpoint search_from (r : regex) (pos : nat) (s : str) : option Match :=
  match rmatch r s (@Some str) with
  | Some rest =>
      Some {| start := pos;
              group0 := firstn (List.length s - List.length rest) s |}
  | None =>
      match s with
      | [] => None
      | _ :: s' => search_from r (S pos) s'
      end
  end.

Definition search (r : regex) (s : str) : option Match := search_from r 0 s.

Section WithUnicode.
Variable ucd : unicode_db.

(** The value of a decimal digit: [\d] of a [str] pattern and [float]
    both accept every Unicode decimal digit. *)
Definition digit_value (c : codepoint) : option N :=
  if ((48 <=? c) && (c <=? 57))%N then Some (c - 48)%N
  else if (c <? 128)%N then None
  else decimal ucd c.

Definition is_digit (c : codepoint) : bool :=
  match digit_value c with Some _ => true | None => false end.

Definition is_sign (c : codepoint) : bool :=
  (c =? ord "-")%N || (c =? ord "+")%N.

Definition is_dot (c : codepoint) : bool := (c =? ord ".")%N.

Definition is_e (c : codepoint) : bool :=
  (c =? ord "e")%N || (c =? ord "E")%N.

(** [r"[-+]?\d+(?:\.\d+)?(?:[eE][-+]?\d+)?"], with its two groups
    [\.\d+] and [[eE][-+]?\d+] *)
Definition fraction_re : regex := Cat (Class is_dot) (Plus is_digit).

Definition exponent_re : regex :=
  Cat (Class is_e) (Cat (Opt (Class is_sign)) (Plus is_digit)).

Definition pattern : regex :=
  Cat (Opt (Class is_sign))
      (Cat (Plus is_digit) (Cat (Opt fraction_re) (Opt exponent_re))).

(** What the matcher still has to do after the digits of the exponent,
    of the fraction and of the integer part. *)
Definition k_exponent (s : str) : option str :=
  rmatch (Opt exponent_re) s (@Some str).

Definition k_fraction (s : str) : option str :=
  rmatch (Opt fraction_re) s k_exponent.

Definition k_digits (s : str) : option str :=
  match_plus is_digit s k_fraction.

(** *** [float] of a decimal literal *)

(** The leading digits of [s]: the number they extend [acc] to, how
    many they are, and what follows them. *)
Fixpoint digits (acc : N) (count : nat) (s : str) : N * nat * str :=
  match s with
  | c :: s' =>
      match digit_value c with
      | Some d => digits (acc * 10 + d)%N (S count) s'
      | None => (acc, count, s)
      end
  | [] => (acc, count, s)
  end.

Definition split_sign (s : str) : bool * str :=
  match s with
  | c :: s' =>
      if (c =? ord "-")%N then (true, s')
      else if (c =? ord "+")%N then (false, s')
      else (false, s)
  | [] => (false, s)
  end.

Definition pow10 (e : Z) : Q :=
  if (e <? 0)%Z then 1 # Z.to_pos (10 ^ (- e)) else inject_Z (10 ^ e).

(** The digits after the point, when there is a point: the mantissa
    with them, how many they are, and what follows them. *)
Definition fraction_part (int_part : N) (s1 : str) : N * nat * str :=
  match s1 with
  | c :: s1' =>
      if is_dot c then digits int_part 0 s1' else (int_part, O, s1)
  | [] => (int_part, O, s1)
  end.

(** The exponent, when there is an exponent mark: its value and what
    follows it; [None] when no digit follows the mark. *)
Definition exponent_part (s2 : str) : option (Z * str) :=
  match s2 with
  | c :: s2' =>
      if is_e c then
        let '(eneg, s3) := split_sign s2' in
        let '(e, n_e, s4) := digits 0 0 s3 in
        if (n_e =? 0)%nat then None
        else Some (if eneg then (- Z.of_N e)%Z else Z.of_N e, s4)
      else Some (0%Z, s2)
  | [] => Some (0%Z, s2)
  end.

(** [float(s)] for a decimal literal [s]: sign, digits, an optional
    point and digits, an optional exponent; [None] stands for the
    [ValueError] of a string that is not a number.  The result is the
    binary64 value nearest to the number written, an infinity when that
    is out of range.  The other spellings that [float] accepts
    (surrounding blanks, underscores, [inf], [nan]) contain characters
    that [pattern] never matches and are left out. *)
Definition float (s : str) : option Float.t :=
  let '(negative, s0) := split_sign s in
  let '(int_part, n_int, s1) := digits 0 0 s0 in
  let '(mantissa, n_frac, s2) := fraction_part int_part s1 in
  if (n_int + n_frac =? 0)%nat then None
  else
    match exponent_part s2 with
    | Some (e, []) =>
        let v := inject_Z (Z.of_N mantissa)
                 * pow10 (e - Z.of_nat n_frac) in
        Some (Float.round (if negative then - v else v))
    | _ => None
    end.

(** [parse_temperature]; the argument is an [option] because the
    function tests it against [None]. *)
Definition parse_temperature (response : option str) : result Float.t :=
  match response with
  | None => Raise (ValueError "Empty response")
  | Some response =>
      let text := strip response in
      match text with
      | [] => Raise (ValueError "Empty response")
      | _ :: _ =>
          match search pattern text with
          | None =>
              Raise (ValueErrorRepr "No numeric value in response: "
                                    response)
          | Some m =>
              match float (group0 m) with
              | Some v => Ok v
              | None =>
                  Raise (ValueErrorRepr "could not convert string to float: "
                                        (group0 m))
              end
          end
      end
  end.

End WithUnicode.

(** *** What the specification calls a number *)

(** The strings a pattern matches, by the usual rules. *)
Inductive matches : regex -> str -> Prop :=
| m_class p c : p c = true -> matches (Class p) [c]
| m_cat r1 r2 s1 s2 :
    matches r1 s1 -> matches r2 s2 -> matches (Cat r1 r2) (s1 ++ s2)
| m_opt_none r : matches (Opt r) []
| m_opt_some r s : matches r s -> matches (Opt r) s
| m_plus_one p c : p c = true -> matches (Plus p) [c]
| m_plus_more p c s :
    p c = true -> matches (Plus p) s -> matches (Plus p) (c :: s).

(** "a signed decimal number optionally in exponential notation
    ([[-+]?digits[.digits][eE[-+]digits])": an optional sign, one or more
    digits, optionally a point and one or more digits, optionally an
    exponent mark, an optional sign and one or more digits. *)
Definition sign_opt (sg : str) : Prop :=
  sg = [] \/ sg = [ord "-"] \/ sg = [ord "+"].

Definition digits1 (ucd : unicode_db) (d : str) : Prop :=
  d <> [] /\ forallb (is_digit ucd) d = true.

Definition fraction_opt (ucd : unicode_db) (fr : str) : Prop :=
  fr = [] \/ exists fd, fr = ord "." :: fd /\ digits1 ucd fd.

Definition exponent_opt (ucd : unicode_db) (ex : str) : Prop :=
  ex = [] \/
  exists e sg ed,
    ex = e :: sg ++ ed /\ (e = ord "e" \/ e = ord "E") /\
    sign_opt sg /\ digits1 ucd ed.

Definition number (ucd : unicode_db) (t : str) : Prop :=
  exists sg ip fr ex,
    t = sg ++ ip ++ fr ++ ex /\
    sign_opt sg /\ digits1 ucd ip /\ fraction_opt ucd fr /\ exponent_opt ucd ex.

(** [t] occurs in [text] at offset [i]. *)
Definition occurs_at (t text : str) (i : nat) : Prop :=
  exists pre post, text = pre ++ t ++ post /\ List.length pre = i.

(** *** What a number denotes *)

(** The digit that a character stands for: its place in [0123456789],
    and for the other decimal digits of Unicode what the database gives. *)
Fixpoint index_of (c : codepoint) (s : str) : option N :=
  match s with
  | [] => None
  | c' :: s' =>
      if (c =? c')%N then Some 0%N else option_map N.succ (index_of c s')
  end.

Definition denoted_digit (ucd : unicode_db) (c : codepoint) : Z :=
  match index_of c (lit "0123456789") with
  | Some d => Z.of_N d
  | None =>
      match decimal ucd c with
      | Some d => Z.of_N d
      | None => 0
      end
  end.

(** The natural number that a string of digits denotes: every digit
    counts for the power of ten of its place. *)
Fixpoint numeral (ucd : unicode_db) (ds : str) : Z :=
  match ds with
  | [] => 0
  | c :: rest =>
      (denoted_digit ucd c * 10 ^ Z.of_nat (List.length rest)
       + numeral ucd rest)%Z
  end.

Definition sign_of (sg : str) : Z :=
  match sg with
  | c :: _ => if (c =? ord "-")%N then (-1)%Z else 1%Z
  | [] => 1%Z
  end.

(** The part after the point counts for [f], the exponent is [p]. *)
Definition fraction_value (ucd : unicode_db) (fr : str) (f : Q) : Prop :=
  (fr = [] /\ f == 0) \/
  exists fd,
    fr = ord "." :: fd /\ digits1 ucd fd /\
    f == inject_Z (numeral ucd fd) / inject_Z (10 ^ Z.of_nat (List.length fd)).

Definition exponent_value (ucd : unicode_db) (ex : str) (p : Z) : Prop :=
  (ex = [] /\ p = 0%Z) \/
  exists e sg ed,
    ex = e :: sg ++ ed /\ (e = ord "e" \/ e = ord "E") /\
    sign_opt sg /\ digits1 ucd ed /\
    p = (sign_of sg * numeral ucd ed)%Z.

(** The number [t] denotes [x]: sign, integer part and fraction, times the
    power of ten of the exponent. *)
Definition number_value (ucd : unicode_db) (t : str) (x : Q) : Prop :=
  exists sg ip fr ex f p,
    t = sg ++ ip ++ fr ++ ex /\
    sign_opt sg /\ digits1 ucd ip /\
    fraction_value ucd fr f /\ exponent_value ucd ex p /\
    x == inject_Z (sign_of sg) * (inject_Z (numeral ucd ip) + f)
         * Qpower 10 p.

End Protocol.

(** ** settings.py: the escaped form of the terminator *)

Module Settings.

(** [s.replace(old, new)]: the occurrences of [old] are found from the
    left and do not overlap; [skip] counts the characters of an occurrence
    that are still to be passed over.  For an empty [old], [new] is put
    before every character and at the end. *)
Fixpoint is_prefix (p s : str) : bool :=
  match p, s with
  | [], _ => true
  | a :: p', b :: s' => (a =? b)%N && is_prefix p' s'
  | _ :: _, [] => false
  end.

Fixpoint replace_from (old new : str) (skip : nat) (s : str) : str :=
  match s with
  | [] => []
  | c :: s' =>
      match skip with
      | S k => replace_from old new k s'
      | O =>
          if is_prefix old s
          then new ++ replace_from old new (List.length old - 1) s'
          else c :: replace_from old new 0 s'
      end
  end.

Definition replace (old new s : str) : str :=
  match old with
  | [] => new ++ flat_map (fun c => c :: new) s
  | _ :: _ => replace_from old new 0 s
  end.

Definition backslash : codepoint := ord "\".
Definition CR : codepoint := 13%N.
Definition LF : codepoint := 10%N.
Definition TAB : codepoint := 9%N.

(** [encode_terminator] *)
Definition encode_terminator (value : str) : str :=
  replace [TAB] [backslash; ord "t"]
    (replace [LF] [backslash; ord "n"]
       (replace [CR] [backslash; ord "r"]
          (replace [backslash] [backslash; backslash] value))).

(** One character through [replace] with a one-character [old], and one
    character through the four replacements of [encode_terminator]. *)
Definition replace1 (old : codepoint) (new : str) (c : codepoint) : str :=
  if (old =? c)%N then new else [c].

Definition escape_char (c : codepoint) : str :=
  if (c =? backslash)%N then [backslash; backslash]
  else if (c =? CR)%N then [backslash; ord "r"]
  else if (c =? LF)%N then [backslash; ord "n"]
  else if (c =? TAB)%N then [backslash; ord "t"]
  else [c].

(** [value.encode("utf-8")]: one to four bytes per code point; a
    surrogate cannot be encoded. *)
Definition utf8_char (c : codepoint) : option bytes :=
  let byte (n : N) : ascii := ascii_of_N n in
  let cont (n : N) : ascii := ascii_of_N (128 + n mod 64)%N in
  if (c <? 128)%N then Some [byte c]
  else if (c <? 2048)%N then Some [byte (192 + c / 64)%N; cont c]
  else if ((55296 <=? c) && (c <=? 57343))%N then None
  else if (c <? 65536)%N then
    Some [byte (224 + c / 4096)%N; cont (c / 64)%N; cont c]
  else if (c <? 1114112)%N then
    Some [byte (240 + c / 262144)%N; cont (c / 4096)%N; cont (c / 64)%N;
          cont c]
  else None.

Fixpoint encode_utf8 (s : str) : result bytes :=
  match s with
  | [] => Ok []
  | c :: s' =>
      match utf8_char c, encode_utf8 s' with
      | Some b, Ok bs => Ok (b ++ bs)
      | None, _ => Raise (UnicodeEncodeError "surrogates not allowed")
      | _, Raise e => Raise e
      end
  end.

Section WithUnicode.
Variable ucd : unicode_db.

(** The decoder of the [unicode_escape] codec reads the bytes from the
    left; this is where it stands between two bytes. *)
Inductive escape_state : Type :=
| Plain                                 (* outside an escape *)
| Escape                                (* after a backslash *)
| Octal (more : nat) (acc : N)          (* in [\ooo], [more] digits may follow *)
| Hex (more : nat) (acc : N)            (* in [\xhh], [\uhhhh], [\Uhhhhhhhh] *)
| NameStart                             (* after [\N] *)
| Name (name : bytes).                  (* after [\N{], the name so far *)

Definition octal_digit (b : ascii) : option N :=
  let n := N_of_ascii b in
  if ((48 <=? n) && (n <=? 55))%N then Some (n - 48)%N else None.

Definition hex_digit (b : ascii) : option N :=
  let n := N_of_ascii b in
  if ((48 <=? n) && (n <=? 57))%N then Some (n - 48)%N
  else if ((97 <=? n) && (n <=? 102))%N then Some (n - 87)%N
  else if ((65 <=? n) && (n <=? 70))%N then Some (n - 55)%N
  else None.

Definition emit (c : codepoint) (r : result str) : result str :=
  match r with
  | Ok s => Ok (c :: s)
  | Raise e => Raise e
  end.

(** The escapes of one character after the backslash that stand for one
    character. *)
Definition simple_escape (b : ascii) : option codepoint :=
  if Ascii.eqb b "\" then Some (ord "\")
  else if Ascii.eqb b "'" then Some (ord "'")
  else if Ascii.eqb b (ascii_of_N 34) then Some 34%N
  else if Ascii.eqb b "b" then Some 8%N
  else if Ascii.eqb b "f" then Some 12%N
  else if Ascii.eqb b "t" then Some 9%N
  else if Ascii.eqb b "n" then Some 10%N
  else if Ascii.eqb b "r" then Some 13%N
  else if Ascii.eqb b "v" then Some 11%N
  else if Ascii.eqb b "a" then Some 7%N
  else None.

Fixpoint unicode_escape_from (st : escape_state) (data : bytes)
  : result str :=
  match data with
  | [] =>
      match st with
      | Plain => Ok []
      | Escape => Raise (UnicodeDecodeError "\ at end of string")
      | Octal _ acc => Ok [acc]
      | Hex _ _ => Raise (UnicodeDecodeError "truncated escape")
      | NameStart | Name _ =>
          Raise (UnicodeDecodeError "malformed \N character escape")
      end
  | b :: rest =>
      let plain :=
        if Ascii.eqb b "\" then unicode_escape_from Escape rest
        else emit (N_of_ascii b) (unicode_escape_from Plain rest) in
      match st with
      | Plain => plain
      | Escape =>
          match simple_escape b with
          | Some c => emit c (unicode_escape_from Plain rest)
          | None =>
              if Ascii.eqb b "010" then unicode_escape_from Plain rest
              else
                match octal_digit b with
                | Some d => unicode_escape_from (Octal 2 d) rest
                | None =>
                    if Ascii.eqb b "x" then unicode_escape_from (Hex 2 0) rest
                    else if Ascii.eqb b "u" then unicode_escape_from (Hex 4 0) rest
                    else if Ascii.eqb b "U" then unicode_escape_from (Hex 8 0) rest
                    else if Ascii.eqb b "N" then unicode_escape_from NameStart rest
                    else
                      (* an unknown escape stays as it is written *)
                      emit (ord "\")
                           (emit (N_of_ascii b)
                                 (unicode_escape_from Plain rest))
                end
          end
      | Octal more acc =>
          match more, octal_digit b with
          | S more', Some d =>
              unicode_escape_from (Octal more' (acc * 8 + d)%N) rest
          | _, _ => emit acc plain
          end
      | Hex more acc =>
          match hex_digit b with
          | Some d =>
              let acc' := (acc * 16 + d)%N in
              match more with
              | 0%nat | 1%nat =>
                  if (acc' <? 1114112)%N
                  then emit acc' (unicode_escape_from Plain rest)
                  else Raise (UnicodeDecodeError "illegal Unicode character")
              | S more' => unicode_escape_from (Hex more' acc') rest
              end
          | None => Raise (UnicodeDecodeError "truncated escape")
          end
      | NameStart =>
          if Ascii.eqb b "{" then unicode_escape_from (Name []) rest
          else Raise (UnicodeDecodeError "malformed \N character escape")
      | Name name =>
          if Ascii.eqb b "}" then
            match name with
            | [] => Raise (UnicodeDecodeError "malformed \N character escape")
            | _ :: _ =>
                match lookup_name ucd name with
                | Some c => emit c (unicode_escape_from Plain rest)
                | None =>
                    Raise (UnicodeDecodeError "unknown Unicode character name")
                end
            end
          else unicode_escape_from (Name (name ++ [b])) rest
      end
  end.

(** [data.decode("unicode_escape")] *)
Definition decode_unicode_escape (data : bytes) : result str :=
  unicode_escape_from Plain data.

(** [decode_terminator] *)
Definition decode_terminator (value : str) : result str :=
  match encode_utf8 value with
  | Ok data => decode_unicode_escape data
  | Raise e => Raise e
  end.

End WithUnicode.

(** The characters of the round-trip property: carriage return, line
    feed, tab, backslash and the letters [A-Za-z]. *)
Definition terminator_char (c : codepoint) : bool :=
  (c =? CR)%N || (c =? LF)%N || (c =? TAB)%N || (c =? backslash)%N
  || ((ord "A" <=? c) && (c <=? ord "Z"))%N
  || ((ord "a" <=? c) && (c <=? ord "z"))%N.

End Settings.

(** ** comms.py *)

Module Comms.

(** *** The two libraries under the connections *)

(** What the line or the network does with the bytes of one [write] or
    [sendall]: it takes them all, or the call raises after the first
    [delivered] of them went out. *)
Inductive send_outcome : Type :=
| Sent
| SendFails (e : exn) (delivered : nat).

Definition delivered_of (data : bytes) (wire : send_outcome) : bytes :=
  match wire with
  | Sent => data
  | SendFails _ delivered => firstn delivered data
  end.

(** A [serial.Serial] object of pyserial, as far as [SerialConnection]
    uses it: whether the port is open, the bytes waiting in its input
    buffer and the bytes written to the line.  Every operation on a
    closed port raises [PortNotOpenError]; a read that finds no byte
    before the timeout returns what it has. *)
Module Serial.

Record t : Type := {
  is_open : bool;
  input : bytes;
  written : bytes
}.

(** The object that [serial.Serial(port=..., ...)] returns. *)
Definition fresh : t := {| is_open := true; input := []; written := [] |}.

Definition close (p : t) : t :=
  {| is_open := false; input := []; written := written p |}.

Definition reset_input_buffer (p : t) : result t :=
  if is_open p
  then Ok {| is_open := true; input := []; written := written p |}
  else Raise PortNotOpenError.

Definition write (p : t) (data : bytes) (wire : send_outcome)
  : result unit * t :=
  if is_open p then
    (match wire with Sent => Ok tt | SendFails e _ => Raise e end,
     {| is_open := true; input := input p;
        written := written p ++ delivered_of data wire |})
  else (Raise PortNotOpenError, p).

(** The instrument's answer reaches the input buffer. *)
Definition receive (p : t) (incoming : bytes) : t :=
  {| is_open := is_open p; input := input p ++ incoming;
     written := written p |}.

(** The loop of [read_until]: one byte at a time, until the line read
    so far ends with [expected] ([line[-lenterm:] == expected]) or no
    byte is left. *)
Fixpoint read_loop (expected : bytes) (line : bytes) (pending : bytes)
  : bytes * bytes :=
  match pending with
  | [] => (line, [])
  | c :: rest =>
      let line' := line ++ [c] in
      if bytes_eqb
           (slice_from (- Z.of_nat (List.length expected)) line') expected
      then (line', rest)
      else read_loop expected line' rest
  end.

Definition read_until (p : t) (expected : bytes) : result (bytes * t) :=
  if is_open p then
    let '(line, rest) := read_loop expected [] (input p) in
    Ok (line, {| is_open := true; input := rest; written := written p |})
  else Raise PortNotOpenError.

Definition readline (p : t) : result (bytes * t) :=
  read_until p ["010"%char].

End Serial.

(** A connected [socket.socket]: the bytes sent, and what the next calls
    of [recv] are going to return.  An empty chunk is a peer that closed
    the connection; when nothing more is scheduled, [recv] times out. *)
Module Socket.

Inductive recv_outcome : Type :=
| Chunk (data : bytes)
| RecvError (e : exn).

Record t : Type := {
  sent : bytes;
  incoming : list recv_outcome
}.

Definition fresh : t := {| sent := []; incoming := [] |}.

Definition sendall (s : t) (payload : bytes) (wire : send_outcome)
  : result unit * t :=
  (match wire with Sent => Ok tt | SendFails e _ => Raise e end,
   {| sent := sent s ++ delivered_of payload wire;
      incoming := incoming s |}).

Definition schedule (s : t) (script : list recv_outcome) : t :=
  {| sent := sent s; incoming := incoming s ++ script |}.

End Socket.

Module SerialConfig.
Record t : Type := { port : str; baud : Z; timeout_s : Float.t }.
End SerialConfig.

Module EthernetConfig.
Record t : Type := { ip : str; port : Z; timeout_s : Float.t }.
End EthernetConfig.

(** What the connections do to the outside world. *)
Inductive event : Type :=
| OpenPort (config : SerialConfig.t)       (* [serial.Serial(...)] *)
| ClosePort
| Connect (config : EthernetConfig.t)      (* [socket.create_connection] *)
| Shutdown
| CloseSocket.

(** *** [SerialConnection] *)

Module SerialConnection.

Record t : Type := {
  config : SerialConfig.t;
  _serial : option Serial.t
}.

Definition init (config : SerialConfig.t) : t :=
  {| config := config; _serial := None |}.

(** [self._serial and self._serial.is_open] *)
Definition port_open (self : t) : bool :=
  match _serial self with
  | Some p => Serial.is_open p
  | None => false
  end.

(** [open]; [device] is what the constructor [serial.Serial(...)] does
    when it is called: the new object, or the exception. *)
Definition open (self : t) (device : result Serial.t)
  : result unit * t * list event :=
  if port_open self then (Ok tt, self, [])
  else
    match device with
    | Ok p =>
        (Ok tt, {| config := config self; _serial := Some p |},
         [OpenPort (config self)])
    | Raise e => (Raise e, self, [OpenPort (config self)])
    end.

Definition close (self : t) : t * list event :=
  match _serial self with
  | Some p =>
      if Serial.is_open p
      then ({| config := config self; _serial := Some (Serial.close p) |},
            [ClosePort])
      else (self, [])
  | None => (self, [])
  end.

Definition is_open (self : t) : bool := port_open self.

(** [query]; [wire] is what the line does with the payload, and
    [incoming] are the bytes that the instrument sends in answer to it
    before the read timeout. *)
Definition query (self : t) (command terminator : str)
           (wire : send_outcome) (incoming : bytes)
  : result str * t :=
  match _serial self with
  | None => (Raise (RuntimeError "Serial connection not open"), self)
  | Some p =>
      let payload := encode_ascii_ignore (command ++ terminator) in
      match Serial.reset_input_buffer p with
      | Raise e => (Raise e, self)
      | Ok p1 =>
          match Serial.write p1 payload wire with
          | (Raise e, p2) =>
              (Raise e, {| config := config self; _serial := Some p2 |})
          | (Ok _, p2) =>
              let p3 := Serial.receive p2 incoming in
              let read :=
                match terminator with
                | _ :: _ =>
                    Serial.read_until p3 (encode_ascii_ignore terminator)
                | [] => Serial.readline p3
                end in
              match read with
              | Raise e =>
                  (Raise e, {| config := config self; _serial := Some p3 |})
              | Ok (data, p4) =>
                  (Ok (strip (decode_ascii_ignore data)),
                   {| config := config self; _serial := Some p4 |})
              end
          end
      end
  end.

End SerialConnection.

(** *** [EthernetConnection] and [_recv_until] *)

(** The loop of [_recv_until]: [data] is the buffer so far; the result
    is the buffer at the end of the loop and the socket's remaining
    schedule. *)
Fixpoint recv_loop (term_bytes : bytes) (data : bytes)
         (incoming : list Socket.recv_outcome)
  : result bytes * list Socket.recv_outcome :=
  match incoming with
  | [] => (Raise SocketTimeout, [])
  | Socket.RecvError e :: rest => (Raise e, rest)
  | Socket.Chunk chunk :: rest =>
      match chunk with
      | [] => (Ok data, rest)
      | _ :: _ =>
          let data' := data ++ chunk in
          if contains term_bytes data' then (Ok data', rest)
          else recv_loop term_bytes data' rest
      end
  end.

Definition _recv_until (sock : Socket.t) (terminator : str)
  : result str * Socket.t :=
  let terminator :=
    match terminator with [] => [10%N] | _ :: _ => terminator end in
  let term_bytes := encode_ascii_ignore terminator in
  let '(r, rest) := recv_loop term_bytes [] (Socket.incoming sock) in
  let sock' := {| Socket.sent := Socket.sent sock;
                  Socket.incoming := rest |} in
  match r with
  | Ok data => (Ok (strip (decode_ascii_ignore data)), sock')
  | Raise e => (Raise e, sock')
  end.

Module EthernetConnection.

Record t : Type := {
  config : EthernetConfig.t;
  _sock : option Socket.t
}.

Definition init (config : EthernetConfig.t) : t :=
  {| config := config; _sock := None |}.

(** [open]; [network] is what [socket.create_connection] does when it
    is called. *)
Definition open (self : t) (network : result Socket.t)
  : result unit * t * list event :=
  match _sock self with
  | Some _ => (Ok tt, self, [])
  | None =>
      match network with
      | Ok s =>
          (Ok tt, {| config := config self; _sock := Some s |},
           [Connect (config self)])
      | Raise e => (Raise e, self, [Connect (config self)])
      end
  end.

(** [close]; the failure of [shutdown] is swallowed, and [_sock] is
    cleared whether [close] of the socket fails or not. *)
Definition close (self : t) (close_outcome : result unit)
  : result unit * t * list event :=
  match _sock self with
  | Some _ =>
      (close_outcome, {| config := config self; _sock := None |},
       [Shutdown; CloseSocket])
  | None => (Ok tt, self, [])
  end.

Definition is_open (self : t) : bool :=
  match _sock self with Some _ => true | None => false end.

(** [query]; [wire] is what the network does with the payload, and
    [script] is what the socket receives after the payload was sent. *)
Definition query (self : t) (command terminator : str)
           (wire : send_outcome) (script : list Socket.recv_outcome)
  : result str * t :=
  match _sock self with
  | None => (Raise (RuntimeError "Ethernet connection not open"), self)
  | Some s =>
      let payload := encode_ascii_ignore (command ++ terminator) in
      match Socket.sendall s payload wire with
      | (Raise e, s1) =>
          (Raise e, {| config := config self; _sock := Some s1 |})
      | (Ok _, s1) =>
          let '(r, s2) := _recv_until (Socket.schedule s1 script) terminator in
          (r, {| config := config self; _sock := Some s2 |})
      end
  end.

End EthernetConnection.

(** *** What the specification says a query returns *)

(** "Both variants trim the trailing terminator and surrounding
    whitespace before returning": the reply without the terminator at
    its end, then without the blanks around it. *)
Definition ends_with (suffix s : str) : bool :=
  Settings.is_prefix (rev suffix) (rev s).

Definition remove_trailing (terminator reply : str) : str :=
  if ends_with terminator reply
  then firstn (List.length reply - List.length terminator) reply
  else reply.

Definition spec_trim (terminator reply : str) : str :=
  strip (remove_trailing terminator reply).

(** *** The reply that a query receives *)

(** The bytes that [read_until] waits for. *)
Definition expected_of (terminator : str) : bytes :=
  match terminator with
  | [] => ["010"%char]
  | _ :: _ => encode_ascii_ignore terminator
  end.

(** The bytes that [_recv_until] looks for. *)
Definition term_bytes_of (terminator : str) : bytes :=
  encode_ascii_ignore
    match terminator with [] => [10%N] | _ :: _ => terminator end.

(** A line is complete when it ends with the expected bytes; no line
    ends with none. *)
Definition line_complete (expected line : bytes) : Prop :=
  expected <> [] /\ exists pre, line = pre ++ expected.

(** The reply on the serial line: of the bytes that arrive before the
    timeout, the shortest beginning that is a complete line, and all of
    them when no beginning is. *)
Definition serial_reply (expected incoming data : bytes) : Prop :=
  exists rest,
    incoming = data ++ rest /\
    (forall pre post,
        data = pre ++ post -> pre <> [] -> post <> [] ->
        ~ line_complete expected pre) /\
    (line_complete expected data \/ rest = []).

(** A buffer is complete when the bytes looked for occur in it. *)
Definition buffer_complete (term_bytes data : bytes) : Prop :=
  exists pre post, data = pre ++ term_bytes ++ post.

(** The reply on the network: the chunks that [recv] returns, one after
    the other, up to the first that completes the buffer, or up to the
    empty chunk of a peer that closed the connection. *)
Definition network_reply (term_bytes : bytes)
           (incoming : list Socket.recv_outcome) (data : bytes) : Prop :=
  exists chunks last rest,
    incoming = map Socket.Chunk chunks ++ Socket.Chunk last :: rest /\
    Forall (fun chunk => chunk <> []) chunks /\
    (forall n, (1 <= n <= List.length chunks)%nat ->
               ~ buffer_complete term_bytes (List.concat (firstn n chunks))) /\
    data = List.concat chunks ++ last /\
    (last = [] \/ buffer_complete term_bytes data).

End Comms.

(** ** logger.py *)

Module Logger.

(** One line of the log file; the text of a row is
    [f"{timestamp_iso},{elapsed_s:.3f},{temperature_k:.6f}\n"], kept
    here by its three values. *)
Inductive line : Type :=
| Header                                   (* "timestamp_iso,elapsed_s,temperature_k\n" *)
| Row (timestamp_iso : str) (elapsed_s temperature_k : Float.t).

(** What the logger does to the file system. *)
Inductive event : Type :=
| Mkdir (folder : str)
| OpenFile (path : str)
| Write (path : str) (l : line)
| Flush (path : str)
| CloseFile (path : str).

(** What the disk does to one [write] and [flush] pair. *)
Inductive disk_outcome : Type :=
| DiskOk
| WriteFails (e : exn)
| FlushFails (e : exn).

(** An open file object. *)
Record file : Type := { name : str }.

Record DataLogger : Type := {
  folder : str;
  file_path : option str;
  _handle : option file
}.

(** [DataLogger(folder)] *)
Definition init (folder : str) : DataLogger :=
  {| folder := folder; file_path := None; _handle := None |}.

Definition write_flush (h : file) (l : line) (disk : disk_outcome)
  : result unit * list event :=
  match disk with
  | DiskOk => (Ok tt, [Write (name h) l; Flush (name h)])
  | WriteFails e => (Raise e, [])
  | FlushFails e => (Raise e, [Write (name h) l])
  end.

(** [start]; [stamp] is [datetime.now().strftime("%Y%m%d_%H%M%S")],
    [mkdir] and [opening] are what [mkdir] and [open] do and [disk] what
    the first write does.  The path is kept by its text, the folder as it
    was given followed by the name of the file; the normal form that
    [pathlib] gives to the text of a path (as for the folder [.]) is not
    modelled, the name of the file is the same in both. *)
Definition start (self : DataLogger) (stamp : str)
           (mkdir opening : result unit) (disk : disk_outcome)
  : result str * DataLogger * list event :=
  match mkdir with
  | Raise e => (Raise e, self, [Mkdir (folder self)])
  | Ok _ =>
      let path :=
        folder self ++ lit "/scm10_log_" ++ stamp ++ lit ".csv" in
      match opening with
      | Raise e =>
          (Raise e,
           {| folder := folder self; file_path := Some path;
              _handle := _handle self |},
           [Mkdir (folder self); OpenFile path])
      | Ok _ =>
          let h := {| name := path |} in
          let self' := {| folder := folder self; file_path := Some path;
                          _handle := Some h |} in
          let '(r, evs) := write_flush h Header disk in
          (match r with Ok _ => Ok path | Raise e => Raise e end,
           self', Mkdir (folder self) :: OpenFile path :: evs)
      end
  end.

(** [log] *)
Definition log (self : DataLogger) (timestamp_iso : str)
           (elapsed_s temperature_k : Float.t) (disk : disk_outcome)
  : result unit * DataLogger * list event :=
  match _handle self with
  | None => (Ok tt, self, [])
  | Some h =>
      let '(r, evs) :=
        write_flush h (Row timestamp_iso elapsed_s temperature_k) disk in
      (r, self, evs)
  end.

(** [close]; [outcome] is what [close] of the file object does, and the
    [finally] clause clears the handle in both cases. *)
Definition close (self : DataLogger) (outcome : result unit)
  : result unit * DataLogger * list event :=
  match _handle self with
  | Some h =>
      (outcome,
       {| folder := folder self; file_path := file_path self;
          _handle := None |},
       [CloseFile (name h)])
  | None => (Ok tt, self, [])
  end.

End Logger.

(** ** main_window.py: the polling code of [MainWindow] *)

Module MainWindow.
Import Emailer.

(** An [InstrumentConnection]: one of the two connection classes. *)
Inductive InstrumentConnection : Type :=
| Serial (c : Comms.SerialConnection.t)
| Ethernet (c : Comms.EthernetConnection.t).

(** The entries of [self.settings] that a poll reads. *)
Record protocol_settings : Type := {
  terminator : str;       (* settings["protocol"]["terminator"], escaped *)
  temp_query : str;       (* settings["protocol"]["temp_query"] *)
  max_points : Z          (* int(settings["readout"].get("max_points", 3600)),
                             taken to return *)
}.

(** The attributes of the window that a poll reads or writes.  The
    widgets of the alarm and email forms are kept by the two records that
    a poll builds from them. *)
Record t : Type := {
  settings : protocol_settings;
  connection : option InstrumentConnection;
  logger : option Logger.DataLogger;
  read_timer_active : bool;
  reading_active : bool;
  start_time : option Float.t;
  time_data : list Float.t;
  temp_data : list Float.t;
  alarm_manager : Alarm.AlarmManager;
  alarm_form : Alarm.AlarmSettings;
  email_form : EmailConfig
}.

(** What a poll reads from the outside world. *)
Record environment : Type := {
  wire_send : Comms.send_outcome;              (* what write or sendall does *)
  line_incoming : bytes;                       (* answer on the serial line *)
  socket_script : list Comms.Socket.recv_outcome;  (* answer on the socket *)
  monotonic : Float.t;                         (* time.monotonic() *)
  now_iso : str;                               (* datetime.now().isoformat(...) *)
  time_time : Float.t;                         (* time.time() *)
  disk : Logger.disk_outcome
}.

(** What a poll does to the outside world, in order. *)
Inductive event : Type :=
| ShowMessage_ReadFailed (exc : exn)
| PlotSetData (time_data temp_data : list Float.t)
| CurrentTempText (temperature : Float.t)
| FileSystem (e : Logger.event)
| AlarmEvaluate (temperature : Float.t) (effects : list Alarm.effect).

Definition is_alarm_evaluate (e : event) : bool :=
  match e with AlarmEvaluate _ _ => true | _ => false end.

Definition is_show_message (e : event) : bool :=
  match e with ShowMessage_ReadFailed _ => true | _ => false end.

(** [self.connection.query(command, terminator)] on either class. *)
Definition connection_query (c : InstrumentConnection) (command terminator : str)
           (env : environment) : result str * InstrumentConnection :=
  match c with
  | Serial s =>
      let '(r, s') :=
        Comms.SerialConnection.query s command terminator (wire_send env)
                                     (line_incoming env) in
      (r, Serial s')
  | Ethernet e =>
      let '(r, e') :=
        Comms.EthernetConnection.query e command terminator (wire_send env)
                                       (socket_script env) in
      (r, Ethernet e')
  end.

(** [self.connection.open()] and [self.connection.is_open()] on either
    class; [device] and [network] are what the constructor of the port
    and [socket.create_connection] do. *)
Definition connection_open (c : InstrumentConnection)
           (device : result Comms.Serial.t) (network : result Comms.Socket.t)
  : result unit * InstrumentConnection * list Comms.event :=
  match c with
  | Serial s =>
      let '(r, s', evs) := Comms.SerialConnection.open s device in
      (r, Serial s', evs)
  | Ethernet e =>
      let '(r, e', evs) := Comms.EthernetConnection.open e network in
      (r, Ethernet e', evs)
  end.

Definition connection_is_open (c : InstrumentConnection) : bool :=
  match c with
  | Serial s => Comms.SerialConnection.is_open s
  | Ethernet e => Comms.EthernetConnection.is_open e
  end.

(** [data] is the reply that a query with [terminator] receives on the
    connection: on the serial line the reply among the bytes that arrive
    after the command, on the network the reply among what the socket
    still had to deliver and what arrives after the command. *)
Definition reply_received (c : InstrumentConnection) (terminator : str)
           (env : environment) (data : bytes) : Prop :=
  match c with
  | Serial _ =>
      Comms.serial_reply (Comms.expected_of terminator)
                         (line_incoming env) data
  | Ethernet e =>
      exists sock,
        Comms.EthernetConnection._sock e = Some sock /\
        Comms.network_reply (Comms.term_bytes_of terminator)
                            (Comms.Socket.incoming sock ++ socket_script env)
                            data
  end.

(** The history buffer: the two appends and the cut to [max_points]. *)
Definition append_history (max_points : Z) (elapsed temperature : Float.t)
           (time_data temp_data : list Float.t)
  : list Float.t * list Float.t :=
  let time_data := time_data ++ [elapsed] in
  let temp_data := temp_data ++ [temperature] in
  if (Z.of_nat (List.length time_data) >? max_points)%Z
  then (slice_from (- max_points) time_data,
        slice_from (- max_points) temp_data)
  else (time_data, temp_data).

(** The appends of one session, from the empty buffers that
    [_start_reading] sets up. *)
Fixpoint append_all (max_points : Z) (samples : list (Float.t * Float.t))
         (time_data temp_data : list Float.t)
  : list Float.t * list Float.t :=
  match samples with
  | [] => (time_data, temp_data)
  | (elapsed, temperature) :: rest =>
      let '(td, tp) :=
        append_history max_points elapsed temperature time_data temp_data in
      append_all max_points rest td tp
  end.

(** The last [n] elements of a list, all of it when it is shorter: what
    a buffer of capacity [n] keeps. *)
Definition last_n {A} (n : nat) (l : list A) : list A :=
  skipn (List.length l - n) l.

Section WithUnicode.
Variable ucd : unicode_db.

Definition set_connection (self : t) (c : option InstrumentConnection) : t :=
  {| settings := settings self; connection := c; logger := logger self;
     read_timer_active := read_timer_active self;
     reading_active := reading_active self;
     start_time := start_time self;
     time_data := time_data self; temp_data := temp_data self;
     alarm_manager := alarm_manager self;
     alarm_form := alarm_form self; email_form := email_form self |}.

Definition set_history (self : t) (td tp : list Float.t) : t :=
  {| settings := settings self; connection := connection self;
     logger := logger self;
     read_timer_active := read_timer_active self;
     reading_active := reading_active self;
     start_time := start_time self;
     time_data := td; temp_data := tp;
     alarm_manager := alarm_manager self;
     alarm_form := alarm_form self; email_form := email_form self |}.

Definition set_logger (self : t) (l : option Logger.DataLogger) : t :=
  {| settings := settings self; connection := connection self;
     logger := l;
     read_timer_active := read_timer_active self;
     reading_active := reading_active self;
     start_time := start_time self;
     time_data := time_data self; temp_data := temp_data self;
     alarm_manager := alarm_manager self;
     alarm_form := alarm_form self; email_form := email_form self |}.

Definition set_alarm_manager (self : t) (m : Alarm.AlarmManager) : t :=
  {| settings := settings self; connection := connection self;
     logger := logger self;
     read_timer_active := read_timer_active self;
     reading_active := reading_active self;
     start_time := start_time self;
     time_data := time_data self; temp_data := temp_data self;
     alarm_manager := m;
     alarm_form := alarm_form self; email_form := email_form self |}.

(** [time.monotonic() - self.start_time if self.start_time else 0.0]:
    [None] and [0.0] are both false. *)
Definition elapsed_of (self : t) (env : environment) : Float.t :=
  match start_time self with
  | Some t0 =>
      if Float.truthy t0 then Float.sub (monotonic env) t0
      else Float.Finite 0
  | None => Float.Finite 0
  end.

(** [_poll_temperature]: the result is [Raise e] when the exception
    [e] leaves the method. *)
Definition _poll_temperature (self : t) (env : environment)
  : result unit * t * list event :=
  match connection self with
  | None => (Ok tt, self, [])
  | Some conn =>
      match Settings.decode_terminator ucd (terminator (settings self)) with
      | Raise e => (Raise e, self, [])
      | Ok terminator =>
          let command := temp_query (settings self) in
          let '(response, conn') :=
            connection_query conn command terminator env in
          let self := set_connection self (Some conn') in
          let read :=
            match response with
            | Ok response => Protocol.parse_temperature ucd (Some response)
            | Raise e => Raise e
            end in
          match read with
          | Raise exc => (Ok tt, self, [ShowMessage_ReadFailed exc])
          | Ok temperature =>
              let elapsed := elapsed_of self env in
              let timestamp_iso := now_iso env in
              let '(td, tp) :=
                append_history (max_points (settings self)) elapsed
                               temperature (time_data self) (temp_data self) in
              let self := set_history self td tp in
              let shown := [PlotSetData td tp; CurrentTempText temperature] in
              let '(logged, self, written) :=
                match logger self with
                | Some l =>
                    let '(r, l', evs) :=
                      Logger.log l timestamp_iso elapsed temperature (disk env) in
                    (r, set_logger self (Some l'), map FileSystem evs)
                | None => (Ok tt, self, [])
                end in
              match logged with
              | Raise e => (Raise e, self, shown ++ written)
              | Ok _ =>
                  let '(m, effects) :=
                    Alarm.evaluate (time_time env) (alarm_manager self)
                                   temperature (alarm_form self)
                                   (Some (email_form self)) in
                  (Ok tt, set_alarm_manager self m,
                   shown ++ written ++ [AlarmEvaluate temperature effects])
              end
          end
      end
  end.

End WithUnicode.

(** *** What the specification says of a failed log write *)

(** The write of the row, or its flush, raises [e]. *)
Definition write_fails (d : Logger.disk_outcome) (e : exn) : Prop :=
  d = Logger.WriteFails e \/ d = Logger.FlushFails e.

(** "a write failure is reported upward but polling continues": the poll
    completes, reports the failure and evaluates the alarm. *)
Definition spec_poll_survives_log_failure
           (outcome : result unit * t * list event) : Prop :=
  let '(r, _, events) := outcome in
  is_Ok r = true /\ existsb is_alarm_evaluate events = true.

End MainWindow.


(** ** Concrete objects for the examples *)

Module Demo.
Import Emailer.

Definition ucd : unicode_db :=
  {| decimal := fun _ => None; lookup_name := fun _ => None |}.

Definition to_bytes (s : string) : bytes := list_ascii_of_string s.

Definition serial_config : Comms.SerialConfig.t :=
  {| Comms.SerialConfig.port := lit "COM3";
     Comms.SerialConfig.baud := 9600;
     Comms.SerialConfig.timeout_s := Float.Finite 3 |}.

Definition ethernet_config : Comms.EthernetConfig.t :=
  {| Comms.EthernetConfig.ip := lit "192.168.0.10";
     Comms.EthernetConfig.port := 2000;
     Comms.EthernetConfig.timeout_s := Float.Finite 5 |}.

(** A serial connection after [open()], and after [open()] and [close()]. *)
Definition serial_opened : Comms.SerialConnection.t :=
  snd (fst (Comms.SerialConnection.open
              (Comms.SerialConnection.init serial_config)
              (Ok Comms.Serial.fresh))).

Definition serial_closed : Comms.SerialConnection.t :=
  fst (Comms.SerialConnection.close serial_opened).

(** A network connection after [open()], and after [open()] and
    [close()]. *)
Definition ethernet_opened : Comms.EthernetConnection.t :=
  snd (fst (Comms.EthernetConnection.open
              (Comms.EthernetConnection.init ethernet_config)
              (Ok Comms.Socket.fresh))).

Definition ethernet_closed : Comms.EthernetConnection.t :=
  snd (fst (Comms.EthernetConnection.close ethernet_opened (Ok tt))).

(** High alarm above 300 K, email enabled, one minute between emails. *)
Definition alarm_settings : Alarm.AlarmSettings :=
  {| Alarm.enabled := true;
     Alarm.low_enabled := false; Alarm.low_threshold := Float.Finite 0;
     Alarm.high_enabled := true;
     Alarm.high_threshold := Float.Finite 300;
     Alarm.beep_enabled := true; Alarm.email_enabled := true;
     Alarm.email_min_interval_min := 1 |}.

Definition email_config : EmailConfig :=
  {| smtp_host := lit "smtp.example.org"; smtp_port := 587; use_tls := true;
     username := lit "lab"; password := lit "secret";
     from_addr := lit "lab@example.org";
     to_addrs := [lit "operator@example.org"];
     subject := lit "SCM10 Alarm" |}.

(** A logger after [start()]. *)
Definition logger_started : Logger.DataLogger :=
  snd (fst (Logger.start (Logger.init (lit "logs")) (lit "20240101_120000")
                         (Ok tt) (Ok tt) Logger.DiskOk)).

(** A window in the middle of a session on the serial line. *)
Definition window : MainWindow.t :=
  {| MainWindow.settings :=
       {| MainWindow.terminator := lit "\r\n";
          MainWindow.temp_query := lit "T?";
          MainWindow.max_points := 0 |};
     MainWindow.connection := Some (MainWindow.Serial serial_opened);
     MainWindow.logger := Some logger_started;
     MainWindow.read_timer_active := true;
     MainWindow.reading_active := true;
     MainWindow.start_time := Some (Float.Finite 100);
     MainWindow.time_data := [];
     MainWindow.temp_data := [];
     MainWindow.alarm_manager := Alarm.init;
     MainWindow.alarm_form := alarm_settings;
     MainWindow.email_form := email_config |}.

(** The instrument answers 325.5 K and the disk is full. *)
Definition disk_full : MainWindow.environment :=
  {| MainWindow.wire_send := Comms.Sent;
     MainWindow.line_incoming :=
       to_bytes "T:325.500000" ++ ["013"%char; "010"%char];
     MainWindow.socket_script := [];
     MainWindow.monotonic := Float.Finite 101;
     MainWindow.now_iso := lit "2024-01-01T12:00:01";
     MainWindow.time_time := Float.Finite 1704110401;
     MainWindow.disk := Logger.WriteFails (OSError 28) |}.

End Demo.

(** ** alarm.py: what a sequence of evaluations sends *)

Module AlarmTrace.
Import Emailer Alarm.

(** One call of [evaluate] in general: the clock, the reading, the
    settings, and an email configuration or [None]. *)
Record evaluation : Type := {
  at_time : Float.t;
  reading : Float.t;
  with_settings : AlarmSettings;
  with_email : option EmailConfig
}.

(** A sequence of calls of [evaluate] on one manager. *)
Fixpoint run_all (self : AlarmManager) (calls : list evaluation)
  : AlarmManager * list (list effect) :=
  match calls with
  | [] => (self, [])
  | c :: rest =>
      let '(self1, effs) :=
        evaluate (at_time c) self (reading c) (with_settings c)
                 (with_email c) in
      let '(self2, effss) := run_all self1 rest in
      (self2, effs :: effss)
  end.

(** The times of the calls that dispatched a notification. *)
Fixpoint send_times (calls : list evaluation) (effects : list (list effect))
  : list Float.t :=
  match calls, effects with
  | c :: calls', effs :: effects' =>
      if (0 <? sent effs)%nat
      then at_time c :: send_times calls' effects'
      else send_times calls' effects'
  | _, _ => []
  end.

(** Two neighbours in [times] are at least [gap] seconds apart as the
    program measures it, by the difference of the two floats, and the
    later one is the greater one. *)
Fixpoint spaced (gap : Z) (times : list Float.t) : Prop :=
  match times with
  | a :: (b :: _) as rest =>
      Float.ge_int (Float.sub b a) gap = true /\ Float.ltb a b = true /\
      spaced gap rest
  | _ => True
  end.

(** The timestamp as a list: empty when unset. *)
Definition stamp_list (last : option Float.t) : list Float.t :=
  match last with Some t => [t] | None => [] end.

End AlarmTrace.

(** ** settings.py: the terminators outside the letters *)

Module Terminator.

(** Every character of [s] is an ASCII character. *)
Definition ascii_only (s : str) : bool := forallb (fun x => (x <? 128)%N) s.

(** [s] holds no backslash. *)
Definition no_backslash (s : str) : bool :=
  forallb (fun x => negb (x =? Settings.backslash)%N) s.

(** [c] is a raw carriage return, line feed or tab. *)
Definition is_control (c : codepoint) : bool :=
  ((c =? Settings.CR) || (c =? Settings.LF) || (c =? Settings.TAB))%N.

End Terminator.

(** ** settings.py: the settings file over the defaults *)

Module SettingsFile.

(** A value of a settings file ([json.loads]); an object keeps its keys in
    the order of insertion, as a Python [dict] does. *)
#[local] Set Warnings "-register-all".
Inductive json : Type :=
| JNull
| JBool (b : bool)
| JNumber (x : Q)
| JString (s : str)
| JList (items : list json)
| JDict (entries : list (str * json)).
#[local] Set Warnings "+register-all".

Fixpoint str_eqb (a b : str) : bool :=
  match a, b with
  | [], [] => true
  | x :: a', y :: b' => (x =? y)%N && str_eqb a' b'
  | _, _ => false
  end.

(** [d.get(key)] *)
Fixpoint get (d : list (str * json)) (key : str) : option json :=
  match d with
  | [] => None
  | (k, v) :: d' => if str_eqb k key then Some v else get d' key
  end.

(** [d[key] = value]: a key that is there keeps its place, a new key goes
    to the end. *)
Fixpoint setitem (d : list (str * json)) (key : str) (value : json)
  : list (str * json) :=
  match d with
  | [] => [(key, value)]
  | (k, v) :: d' =>
      if str_eqb k key then (k, value) :: d'
      else (k, v) :: setitem d' key value
  end.

(** What one entry [key: value] of the updates leaves under [key], [old]
    being [base.get(key)]: two objects are merged by [_deep_update], in any
    other case the new value replaces the old one. *)
Fixpoint update_value (value : json) (old : option json) : json :=
  match value, old with
  | JDict updates, Some (JDict base) =>
      JDict
        ((fix each (updates base : list (str * json)) {struct updates} :=
            match updates with
            | [] => base
            | (key, v) :: rest =>
                each rest (setitem base key (update_value v (get base key)))
            end) updates base)
  | _, _ => value
  end.

(** [_deep_update(base, updates)]: the entries of [updates] in their
    order. *)
Fixpoint _deep_update (base updates : list (str * json))
  : list (str * json) :=
  match updates with
  | [] => base
  | (key, value) :: rest =>
      _deep_update (setitem base key (update_value value (get base key))) rest
  end.

(** [load_settings], from the defaults: [file] is [None] when the path
    does not exist, [Some None] when reading or parsing it raises, and the
    parsed value otherwise.  A parsed value that is not an object makes
    [_deep_update] raise at once, and the exception is swallowed. *)
Definition load_settings (defaults : list (str * json))
           (file : option (option json)) : list (str * json) :=
  match file with
  | Some (Some (JDict data)) => _deep_update defaults data
  | _ => defaults
  end.

Definition keys (d : list (str * json)) : list str := map fst d.

(** The keys of the object that the file holds; none when the file is
    missing, unreadable, malformed or holds another value. *)
Definition file_keys (file : option (option json)) : list str :=
  match file with
  | Some (Some (JDict data)) => keys data
  | _ => []
  end.

(** The keys among [ks] that [d] does not have. *)
Definition new_keys (d : list (str * json)) (ks : list str) : list str :=
  filter (fun k => match get d k with Some _ => false | None => true end) ks.

(** Two sections of [DEFAULT_SETTINGS], and a file that lists one entry of
    one of them and a section of its own. *)
Definition some_defaults : list (str * json) :=
  [(lit "protocol",
    JDict [(lit "terminator", JString (lit "\r\n"));
           (lit "temp_query", JString (lit "T?"))]);
   (lit "readout",
    JDict [(lit "period_s", JNumber 1); (lit "log_folder", JString []);
           (lit "max_points", JNumber 0)])].

Definition some_file : list (str * json) :=
  [(lit "readout", JDict [(lit "max_points", JNumber 600)]);
   (lit "extra", JBool true)].

End SettingsFile.

(** ** main_window.py: the recipients field *)

Module Recipients.

(** A character of the class [[;\n]]. *)
Definition is_sep (c : codepoint) : bool :=
  ((c =? ord ";") || (c =? 10))%N.

(** [re.split(r"[;\n]+", text)]: the pieces of [text] between its longest
    runs of separators; a run at the start or at the end leaves an empty
    piece there.  [in_run] says that the character before was a
    separator. *)
Fixpoint re_split (text : str) (in_run : bool) : list str :=
  match text with
  | [] => [[]]
  | c :: text' =>
      if is_sep c then
        if in_run then re_split text' true else [] :: re_split text' true
      else
        match re_split text' false with
        | piece :: pieces => (c :: piece) :: pieces
        | [] => [[c]]
        end
  end.

Definition nonempty (s : str) : bool :=
  match s with [] => false | _ :: _ => true end.

(** [_parse_recipients]:
    [[part.strip() for part in parts if part.strip()]] *)
Definition _parse_recipients (text : str) : list str :=
  filter nonempty (map strip (re_split text false)).

(** [sep.join(parts)] *)
Fixpoint join (sep : str) (parts : list str) : str :=
  match parts with
  | [] => []
  | [p] => p
  | p :: rest => p ++ sep ++ join sep rest
  end.

(** The text that [_apply_settings_to_ui] puts into the field for a list
    of addresses: [";\n".join(to_addrs)]. *)
Definition to_text (to_addrs : list str) : str :=
  join [ord ";"; 10%N] to_addrs.

(** An address that the field can hold: not empty, no blank at either
    end, no semicolon and no line feed. *)
Definition address (a : str) : Prop :=
  a <> [] /\ trimmed a /\ forallb (fun c => negb (is_sep c)) a = true.

End Recipients.

(** ** emailer.py: [EmailSender.send] *)

Module EmailSender.
Import Emailer.

(** The four headers and the body of the [EmailMessage]. *)
Record message : Type := {
  msg_subject : str;
  msg_from : str;
  msg_to : str;
  msg_body : str
}.

(** The calls on [smtplib]: the constructor of [SMTP], which connects, the
    three methods, and the end of the [with] block. *)
Inductive step : Type :=
| SmtpConnect (host : str) (port : Z) (timeout : Z)
| StartTls
| Login (user password : str)
| SendMessage (m : message)
| SmtpExit.

(** [x or default] on two strings. *)
Definition or_else (x default : str) : str :=
  match x with [] => default | _ :: _ => x end.

Definition build_message (config : EmailConfig) (body : str) : message :=
  {| msg_subject := or_else (subject config) (lit "SCM10 Alarm");
     msg_from := or_else (from_addr config) (username config);
     msg_to := Recipients.join (lit ", ") (to_addrs config);
     msg_body := body |}.

(** The calls inside the [with] block, as long as they return: the first
    exception ends the block. *)
Fixpoint run_steps (server : step -> option exn) (todo : list step)
  : result unit * list step :=
  match todo with
  | [] => (Ok tt, [])
  | s :: todo' =>
      match server s with
      | Some e => (Raise e, [s])
      | None =>
          let '(r, done) := run_steps server todo' in (r, s :: done)
      end
  end.

(** [send]; [server s] is the exception that the call [s] raises, [None]
    when it returns.  The result lists the calls that were made. *)
Definition send (config : EmailConfig) (body : str)
           (server : step -> option exn) : result unit * list step :=
  match smtp_host config with
  | [] => (Raise (ValueError "SMTP host is required"), [])
  | _ :: _ =>
      match to_addrs config with
      | [] => (Raise (ValueError "Recipient address is required"), [])
      | _ :: _ =>
          let msg := build_message config body in
          let connect := SmtpConnect (smtp_host config) (smtp_port config) 15 in
          match server connect with
          | Some e => (Raise e, [connect])
          | None =>
              let todo :=
                (if use_tls config then [StartTls] else [])
                ++ (match username config with
                    | [] => []
                    | _ :: _ => [Login (username config) (password config)]
                    end)
                ++ [SendMessage msg] in
              let '(r, done) := run_steps server todo in
              (r, connect :: done ++ [SmtpExit])
          end
      end
  end.

Definition is_login (s : step) : bool :=
  match s with Login _ _ => true | _ => false end.

Definition is_send_message (s : step) : bool :=
  match s with SendMessage _ => true | _ => false end.

End EmailSender.

(** ** comms.py: both connection classes at once *)

Module Connection.
Import MainWindow.

(** The port with other bytes waiting in its input buffer. *)
Definition with_input (p : Comms.Serial.t) (stale : bytes) : Comms.Serial.t :=
  {| Comms.Serial.is_open := Comms.Serial.is_open p;
     Comms.Serial.input := stale;
     Comms.Serial.written := Comms.Serial.written p |}.

(** The bytes that went out through the handle of a connection. *)
Definition bytes_out (c : InstrumentConnection) : option bytes :=
  match c with
  | Serial s =>
      option_map Comms.Serial.written (Comms.SerialConnection._serial s)
  | Ethernet e =>
      option_map Comms.Socket.sent (Comms.EthernetConnection._sock e)
  end.

(** [self.connection.close()] on either class; [socket_close] is what
    [close] of the socket does. *)
Definition connection_close (c : InstrumentConnection)
           (socket_close : result unit)
  : result unit * InstrumentConnection * list Comms.event :=
  match c with
  | Serial s =>
      let '(s', evs) := Comms.SerialConnection.close s in
      (Ok tt, Serial s', evs)
  | Ethernet e =>
      let '(r, e', evs) := Comms.EthernetConnection.close e socket_close in
      (r, Ethernet e', evs)
  end.

End Connection.

(** ** logger.py: the rows of one file *)

Module LoggerRun.
Import Logger.

(** One call of [log] with what the disk does to it. *)
Record entry : Type := {
  entry_timestamp : str;
  entry_elapsed : Float.t;
  entry_temperature : Float.t;
  entry_disk : disk_outcome
}.

Definition entry_row (e : entry) : line :=
  Row (entry_timestamp e) (entry_elapsed e) (entry_temperature e).

(** The calls of [log] of a session, one after the other; an exception of
    one call does not keep the caller from making the next. *)
Fixpoint log_all (self : DataLogger) (entries : list entry)
  : DataLogger * list event :=
  match entries with
  | [] => (self, [])
  | e :: rest =>
      let '(_, self1, evs) :=
        log self (entry_timestamp e) (entry_elapsed e) (entry_temperature e)
            (entry_disk e) in
      let '(self2, evs') := log_all self1 rest in
      (self2, evs ++ evs')
  end.

(** The lines that reached the file. *)
Definition written_lines (evs : list event) : list line :=
  flat_map (fun ev => match ev with Write _ l => [l] | _ => [] end) evs.

Definition write_returned (e : entry) : bool :=
  match entry_disk e with WriteFails _ => false | _ => true end.

Definition disk_ok (e : entry) : bool :=
  match entry_disk e with DiskOk => true | _ => false end.

(** Every write is followed at once by the flush of the same file. *)
Fixpoint flushed_each (evs : list event) : Prop :=
  match evs with
  | Write path _ :: ((Flush path' :: _) as rest) =>
      path = path' /\ flushed_each rest
  | Write _ _ :: _ => False
  | _ :: rest => flushed_each rest
  | [] => True
  end.

End LoggerRun.

(** ** main_window.py: sequences of polls, start and stop *)

Module Session.
Import MainWindow.

(** The polls of the timer, one after the other; an exception that leaves
    one poll does not stop the timer. *)
Fixpoint poll_all (ucd : unicode_db) (self : t) (envs : list environment)
  : t * list (result unit * list event) :=
  match envs with
  | [] => (self, [])
  | env :: rest =>
      let '(r, self1, evs) := _poll_temperature ucd self env in
      let '(self2, outcomes) := poll_all ucd self1 rest in
      (self2, (r, evs) :: outcomes)
  end.

(** The four ways through [_poll_temperature]. *)
Inductive poll_case (ucd : unicode_db) (self : t) (env : environment)
  : result unit * t * list event -> Prop :=
| poll_idle :
    connection self = None ->
    poll_case ucd self env (Ok tt, self, [])
| poll_bad_terminator conn e :
    connection self = Some conn ->
    Settings.decode_terminator ucd (terminator (settings self)) = Raise e ->
    poll_case ucd self env (Raise e, self, [])
| poll_read_failed conn term exc :
    connection self = Some conn ->
    Settings.decode_terminator ucd (terminator (settings self)) = Ok term ->
    poll_case ucd self env
              (Ok tt,
               set_connection self
                 (Some (snd (connection_query
                               conn (temp_query (settings self)) term env))),
               [ShowMessage_ReadFailed exc])
| poll_sample conn term temperature r written m effects :
    connection self = Some conn ->
    Settings.decode_terminator ucd (terminator (settings self)) = Ok term ->
    let conn' :=
      snd (connection_query conn (temp_query (settings self)) term env) in
    let elapsed := elapsed_of self env in
    let history :=
      append_history (max_points (settings self)) elapsed temperature
                     (time_data self) (temp_data self) in
    let shown :=
      [PlotSetData (fst history) (snd history); CurrentTempText temperature] in
    (r, written) =
    match logger self with
    | Some l =>
        (fst (fst (Logger.log l (now_iso env) elapsed temperature (disk env))),
         map FileSystem
             (snd (Logger.log l (now_iso env) elapsed temperature (disk env))))
    | None => (Ok tt, [])
    end ->
    (m, effects) =
    Alarm.evaluate (time_time env) (alarm_manager self) temperature
                   (alarm_form self) (Some (email_form self)) ->
    poll_case ucd self env
              (r,
               set_alarm_manager
                 (set_history (set_connection self (Some conn'))
                              (fst history) (snd history))
                 (match r with Ok _ => m | Raise _ => alarm_manager self end),
               shown ++ written
               ++ match r with
                  | Ok _ => [AlarmEvaluate temperature effects]
                  | Raise _ => []
                  end).

Definition is_file_system (e : event) : bool :=
  match e with FileSystem _ => true | _ => false end.

(** What no poll changes, whatever way it takes. *)
Definition same_session (self self' : t) : Prop :=
  settings self' = settings self /\
  reading_active self' = reading_active self /\
  read_timer_active self' = read_timer_active self /\
  start_time self' = start_time self /\
  logger self' = logger self /\
  option_map connection_is_open (connection self') =
  option_map connection_is_open (connection self).

(** The widgets that [_start_reading] reads, and the two time-outs of
    [self.settings] that [_make_connection] puts into the
    configurations; the three conversions that can raise are kept with
    their outcome. *)
Record form : Type := {
  connection_type_index : Z;      (* connection_type.currentIndex() *)
  eth_ip : str;
  eth_port : Z;
  eth_timeout : result Float.t;         (* float(settings[...]["ethernet"]["timeout_s"]) *)
  serial_port : str;
  serial_baud : result Z;         (* int(self.serial_baud.currentText()) *)
  serial_timeout : result Float.t;      (* float(settings[...]["serial"]["timeout_s"]) *)
  terminator_text : str;
  temp_query_text : str;
  log_folder_text : str;
  cwd_logs : str                  (* str(Path.cwd() / "logs") *)
}.

(** What [_start_reading] and [_stop_reading] read from the outside
    world. *)
Record start_environment : Type := {
  device : result Comms.Serial.t;      (* serial.Serial(...) *)
  network : result Comms.Socket.t;     (* socket.create_connection(...) *)
  stamp : str;                         (* strftime of the start *)
  mkdir_outcome : result unit;         (* mkdir of the log folder *)
  open_outcome : result unit;          (* open of the log file *)
  header_disk : Logger.disk_outcome;   (* write of the header *)
  monotonic_start : Float.t;                 (* time.monotonic() *)
  first_poll : environment
}.

Record stop_environment : Type := {
  socket_close : result unit;          (* close of the socket *)
  file_close : result unit             (* close of the log file *)
}.

(** What they do to the outside world, in order. *)
Inductive action : Type :=
| ConnectionEvent (e : Comms.event)
| ConnectionStatus (connected : bool)
| ShowFailedToOpen (exc : exn)
| LoggerEvent (e : Logger.event)
| PlotClear
| TimerStart
| TimerStop
| ShowReadingStarted (log_path : str)
| ShowReadingStopped
| PollEvent (e : event).

(** The part of [_collect_settings_from_ui] that a session reads; the
    baud rate is converted before the protocol entries are stored. *)
Definition _collect_settings_from_ui (self : t) (ui : form) : result t :=
  match serial_baud ui with
  | Raise e => Raise e
  | Ok _ =>
      Ok {| settings :=
              {| terminator := strip (terminator_text ui);
                 temp_query := strip (temp_query_text ui);
                 max_points := max_points (settings self) |};
            connection := connection self; logger := logger self;
            read_timer_active := read_timer_active self;
            reading_active := reading_active self;
            start_time := start_time self;
            time_data := time_data self; temp_data := temp_data self;
            alarm_manager := alarm_manager self;
            alarm_form := alarm_form self; email_form := email_form self |}
  end.

(** [_make_connection] *)
Definition _make_connection (ui : form) : result InstrumentConnection :=
  if (connection_type_index ui =? 0)%Z then
    match eth_timeout ui with
    | Raise e => Raise e
    | Ok timeout_s =>
        Ok (Ethernet (Comms.EthernetConnection.init
                        {| Comms.EthernetConfig.ip := strip (eth_ip ui);
                           Comms.EthernetConfig.port := eth_port ui;
                           Comms.EthernetConfig.timeout_s := timeout_s |}))
    end
  else
    match serial_baud ui with
    | Raise e => Raise e
    | Ok baud =>
        match serial_timeout ui with
        | Raise e => Raise e
        | Ok timeout_s =>
            Ok (Serial (Comms.SerialConnection.init
                          {| Comms.SerialConfig.port := strip (serial_port ui);
                             Comms.SerialConfig.baud := baud;
                             Comms.SerialConfig.timeout_s := timeout_s |}))
        end
    end.

(** The assignments of [_start_reading] between the start of the logger
    and the start of the timer. *)
Definition begin_session (self : t) (now : Float.t) : t :=
  {| settings := settings self; connection := connection self;
     logger := logger self;
     read_timer_active := true;
     reading_active := true;
     start_time := Some now;
     time_data := []; temp_data := [];
     alarm_manager := alarm_manager self;
     alarm_form := alarm_form self; email_form := email_form self |}.

(** [_start_reading] *)
Definition _start_reading (ucd : unicode_db) (self : t) (ui : form)
           (env : start_environment) : result unit * t * list action :=
  if reading_active self then (Ok tt, self, [])
  else
    match _collect_settings_from_ui self ui with
    | Raise e => (Raise e, self, [])
    | Ok self =>
    match Settings.decode_terminator ucd (terminator (settings self)) with
    | Raise e => (Raise e, self, [])
    | Ok _ =>
    match _make_connection ui with
    | Raise e => (Raise e, self, [])
    | Ok conn =>
        let '(opened, conn, opening) :=
          connection_open conn (device env) (network env) in
        let self := set_connection self (Some conn) in
        match opened with
        | Raise exc =>
            (Ok tt, self,
             map ConnectionEvent opening
             ++ [ConnectionStatus false; ShowFailedToOpen exc])
        | Ok _ =>
            let folder :=
              match strip (log_folder_text ui) with
              | [] => cwd_logs ui
              | _ :: _ => strip (log_folder_text ui)
              end in
            let '(started, l, logging) :=
              Logger.start (Logger.init folder) (stamp env)
                           (mkdir_outcome env) (open_outcome env)
                           (header_disk env) in
            let self := set_logger self (Some l) in
            let before :=
              map ConnectionEvent opening ++ [ConnectionStatus true]
              ++ map LoggerEvent logging in
            match started with
            | Raise e => (Raise e, self, before)
            | Ok log_path =>
                let self := begin_session self (monotonic_start env) in
                let '(polled, self, events) :=
                  _poll_temperature ucd self (first_poll env) in
                (polled, self,
                 before
                 ++ [PlotClear; TimerStart; ShowReadingStarted log_path]
                 ++ map PollEvent events)
            end
        end
    end
    end
    end.

Definition end_session (self : t) : t :=
  {| settings := settings self; connection := connection self;
     logger := logger self;
     read_timer_active := false;
     reading_active := false;
     start_time := start_time self;
     time_data := time_data self; temp_data := temp_data self;
     alarm_manager := alarm_manager self;
     alarm_form := alarm_form self; email_form := email_form self |}.

(** [_stop_reading] *)
Definition _stop_reading (self : t) (env : stop_environment)
  : result unit * t * list action :=
  if negb (reading_active self) then (Ok tt, self, [])
  else
    let self := end_session self in
    let '(closed, self, closing) :=
      match connection self with
      | Some conn =>
          let '(r, conn', evs) :=
            Connection.connection_close conn (socket_close env) in
          match r with
          | Ok _ => (Ok tt, set_connection self None, map ConnectionEvent evs)
          | Raise e =>
              (Raise e, set_connection self (Some conn'),
               map ConnectionEvent evs)
          end
      | None => (Ok tt, self, [])
      end in
    match closed with
    | Raise e => (Raise e, self, TimerStop :: closing)
    | Ok _ =>
        let before := TimerStop :: closing ++ [ConnectionStatus false] in
        let '(closed, self, closing) :=
          match logger self with
          | Some l =>
              let '(r, l', evs) := Logger.close l (file_close env) in
              match r with
              | Ok _ => (Ok tt, set_logger self None, map LoggerEvent evs)
              | Raise e =>
                  (Raise e, set_logger self (Some l'), map LoggerEvent evs)
              end
          | None => (Ok tt, self, [])
          end in
        match closed with
        | Raise e => (Raise e, self, before ++ closing)
        | Ok _ =>
            (Ok tt,
             set_alarm_manager self (Alarm.reset (alarm_manager self)),
             before ++ closing ++ [ShowReadingStopped])
        end
    end.

(** The session is idle: nothing is left of a session. *)
Definition idle (self : t) : Prop :=
  reading_active self = false /\ read_timer_active self = false /\
  connection self = None /\ logger self = None /\
  alarm_manager self = Alarm.init.

Definition is_logger_event (a : action) : bool :=
  match a with LoggerEvent _ => true | _ => false end.

Definition is_timer_start (a : action) : bool :=
  match a with TimerStart => true | _ => false end.

Definition is_poll_event (a : action) : bool :=
  match a with PollEvent _ => true | _ => false end.

(** A form and an outside world for the examples: the network tab, an
    instrument that answers 25.123 K. *)
Definition some_form : form :=
  {| connection_type_index := 0;
     eth_ip := lit " 192.168.0.10 "; eth_port := 2000;
     eth_timeout := Ok (Float.Finite 5);
     serial_port := lit "COM3"; serial_baud := Ok 9600%Z;
     serial_timeout := Ok (Float.Finite 3);
     terminator_text := lit "\r\n"; temp_query_text := lit "T?";
     log_folder_text := lit "  "; cwd_logs := lit "/home/lab/logs" |}.

Definition answer_25 : environment :=
  {| wire_send := Comms.Sent;
     line_incoming := [];
     socket_script :=
       [Comms.Socket.Chunk
          (Demo.to_bytes "T:25.123000" ++ ["013"%char; "010"%char])];
     monotonic := Float.Finite 11;
     now_iso := lit "2024-01-01T12:00:01";
     time_time := Float.Finite 1704110401;
     disk := Logger.DiskOk |}.

(** The instrument does not answer before the time-out. *)
Definition no_answer : environment :=
  {| wire_send := Comms.Sent;
     line_incoming := [];
     socket_script := [];
     monotonic := Float.Finite 12;
     now_iso := lit "2024-01-01T12:00:02";
     time_time := Float.Finite 1704110402;
     disk := Logger.DiskOk |}.

Definition some_start : start_environment :=
  {| device := Raise (SerialException "no such port");
     network := Ok Comms.Socket.fresh;
     stamp := lit "20240101_120000";
     mkdir_outcome := Ok tt;
     open_outcome := Ok tt;
     header_disk := Logger.DiskOk;
     monotonic_start := Float.Finite 10;
     first_poll := answer_25 |}.

(** The same start on a disk that refuses the log file. *)
Definition start_without_disk : start_environment :=
  {| device := device some_start;
     network := network some_start;
     stamp := stamp some_start;
     mkdir_outcome := Ok tt;
     open_outcome := Raise (OSError 13);
     header_disk := Logger.DiskOk;
     monotonic_start := Float.Finite 10;
     first_poll := answer_25 |}.

Definition some_stop : stop_environment :=
  {| socket_close := Ok tt; file_close := Ok tt |}.

(** The socket raises when it is closed. *)
Definition stop_with_socket_error : stop_environment :=
  {| socket_close := Raise (OSError 9); file_close := Ok tt |}.

(** [serial.Serial(port=...)] returns an open port when it returns. *)
Definition device_opens (env : start_environment) : Prop :=
  forall p, device env = Ok p -> Comms.Serial.is_open p = true.

(** A window in the middle of a session on the network. *)
Definition network_window : t :=
  set_connection Demo.window (Some (Ethernet Demo.ethernet_opened)).

(** The window before its first session ([__init__]). *)
Definition fresh_window : t :=
  {| settings :=
       {| terminator := lit "\r\n"; temp_query := lit "T?";
          max_points := 3600 |};
     connection := None; logger := None;
     read_timer_active := false; reading_active := false;
     start_time := None; time_data := []; temp_data := [];
     alarm_manager := Alarm.init;
     alarm_form := Demo.alarm_settings;
     email_form := Demo.email_config |}.

End Session.

(** ** history_window.py: the choice of the log files *)

Module HistoryWindow.

(** The slice [l[start:stop]]. *)
Definition slice {A} (start stop : Z) (l : list A) : list A :=
  let n := Z.of_nat (List.length l) in
  let clamp (i : Z) :=
    if (i <? 0)%Z then Z.max (n + i) 0 else Z.min i n in
  firstn (Z.to_nat (clamp stop - clamp start))
         (skipn (Z.to_nat (clamp start)) l).

(** [path.name]: what follows the last separator. *)
Definition is_separator (c : codepoint) : bool := (c =? ord "/")%N.

Fixpoint name_from (path : str) (component : str) : str :=
  match path with
  | [] => component
  | c :: rest =>
      if is_separator c then name_from rest []
      else name_from rest (component ++ [c])
  end.

Definition name (path : str) : str := name_from path [].

Section WithClock.

(** A [datetime] without time zone is kept by its position on the time
    line; [strptime raw] is [datetime.strptime(raw, "%Y%m%d_%H%M%S")],
    with [None] for its [ValueError]. *)
Variable strptime : str -> option Z.

(** [_parse_log_timestamp] *)
Definition _parse_log_timestamp (filename : str) : option Z :=
  if negb (Settings.is_prefix (lit "scm10_log_") filename)
     || negb (Comms.ends_with (lit ".csv") filename)
  then None
  else strptime (slice (Z.of_nat (List.length (lit "scm10_log_")))
                       (- Z.of_nat (List.length (lit ".csv")))
                       filename).

(** [candidates.sort(key=lambda item: item[0])]: the sort of Python is
    stable, and so is the insertion behind the items with the same
    key. *)
Fixpoint insert (item : Z * str) (sorted : list (Z * str))
  : list (Z * str) :=
  match sorted with
  | [] => [item]
  | other :: rest =>
      if (fst item <? fst other)%Z then item :: sorted
      else other :: insert item rest
  end.

Definition sort (items : list (Z * str)) : list (Z * str) :=
  fold_left (fun sorted item => insert item sorted) items [].

Definition candidates_of (names : list str) : list (Z * str) :=
  flat_map (fun path =>
              match _parse_log_timestamp path with
              | None => []
              | Some timestamp => [(timestamp, path)]
              end) names.

(** [_select_log_files]; [folder_exists] is [folder.exists()] and
    [glob] the names that [folder.glob("scm10_log_*.csv")] yields, in the
    order in which it yields them. *)
Definition _select_log_files (folder_exists : bool) (glob : list str)
           (start_dt end_dt : Z) : list str :=
  if negb folder_exists then []
  else
    let candidates := sort (candidates_of glob) in
    let selected :=
      map snd (filter (fun item => (start_dt <=? fst item)%Z
                                   && (fst item <=? end_dt)%Z) candidates) in
    let previous :=
      map snd (filter (fun item => (fst item <? start_dt)%Z) candidates) in
    match previous with
    | [] => selected
    | first :: _ => last previous first :: selected
    end.

(** The times of the files of a list, in its order. *)
Definition times_of (names : list str) : list Z :=
  flat_map (fun path =>
              match _parse_log_timestamp path with
              | None => []
              | Some timestamp => [timestamp]
              end) names.

End WithClock.

Fixpoint ascending (times : list Z) : Prop :=
  match times with
  | [] => True
  | t :: rest => Forall (fun t' => (t <= t')%Z) rest /\ ascending rest
  end.

(** A clock for the examples: the digits of the stamp as a number. *)
Definition digits_clock (raw : str) : option Z :=
  if forallb (fun c => ((48 <=? c) && (c <=? 57))%N || (c =? ord "_")%N) raw
  then Some (fold_left
               (fun acc c => if (c =? ord "_")%N then acc
                             else (acc * 10 + Z.of_N (c - 48))%Z) raw 0%Z)
  else None.

End HistoryWindow.

Unset Implicit Arguments.

(** * Theorems *)

(** ** Facts on the floats *)

Module FloatFacts.
Import Float.

Lemma ltb_finite a b : ltb (Finite a) (Finite b) = true <-> (a < b)%Q.
Proof.
  cbn [ltb]. rewrite negb_true_iff.
  split; intros H.
  - apply Qnot_le_lt. intros Hle. apply Qle_bool_iff in Hle. congruence.
  - destruct (Qle_bool b a) eqn:E; [|reflexivity].
    apply Qle_bool_iff in E. exfalso. apply (Qlt_not_le _ _ H E).
Qed.

Lemma ge_int_finite a n : ge_int (Finite a) n = true <-> (inject_Z n <= a)%Q.
Proof. cbn [ge_int]. apply Qle_bool_iff. Qed.

(** Equal numbers are rounded to the same float. *)
Lemma round_eq x y : x == y -> round x = round y.
Proof. intros H. unfold round. rewrite (Qred_complete x y H). reflexivity. Qed.

Lemma scale_pos n d e :
  (0 < n)%Z -> (0 < d)%Z ->
  (0 < fst (scale n d e))%Z /\ (0 < snd (scale n d e))%Z.
Proof.
  intros Hn Hd. unfold scale. destruct (0 <=? e)%Z eqn:E; cbn [fst snd].
  - apply Z.leb_le in E. split; [assumption|].
    apply Z.mul_pos_pos; [assumption|]. apply Z.pow_pos_nonneg; lia.
  - apply Z.leb_gt in E. split; [|assumption].
    apply Z.mul_pos_pos; [assumption|]. apply Z.pow_pos_nonneg; lia.
Qed.

Lemma value_nonneg m e : (0 <= m)%Z -> 0 <= value m e.
Proof.
  intros Hm. unfold value. destruct (0 <=? e)%Z eqn:E.
  - apply Z.leb_le in E. change 0 with (inject_Z 0). rewrite <- Zle_Qle.
    apply Z.mul_nonneg_nonneg; [assumption|]. apply Z.pow_nonneg. lia.
  - rewrite Qred_correct. unfold Qle. cbn. lia.
Qed.

(** A positive number is rounded to a float that is not negative. *)
Lemma round_pos_nonneg n d :
  round_pos n d = PosInf \/ exists q, round_pos n d = Finite q /\ 0 <= q.
Proof.
  unfold round_pos.
  set (e := Z.max (floor_log2 n d - (prec - 1)) emin).
  destruct (scale_pos (Zpos n) (Zpos d) e) as [Ha Hb]; [lia|lia|].
  destruct (scale (Z.pos n) (Z.pos d) e) as [a b]. cbn [fst snd] in Ha, Hb.
  set (m' := if (2 * (a mod b) <? b)%Z then (a / b)%Z
             else if (b <? 2 * (a mod b))%Z then (a / b + 1)%Z
                  else if Z.even (a / b) then (a / b)%Z else (a / b + 1)%Z).
  destruct ((0 <=? e)%Z && (2 ^ emax <=? m' * 2 ^ e)%Z); [left; reflexivity|].
  right. eexists. split; [reflexivity|]. apply value_nonneg.
  assert (Hm : (0 <= a / b)%Z) by (apply Z.div_pos; lia).
  unfold m'. destruct (2 * (a mod b) <? b)%Z; [assumption|].
  destruct (b <? 2 * (a mod b))%Z; [lia|].
  destruct (Z.even (a / b)); lia.
Qed.

(** What is not positive is not rounded to a positive float. *)
Lemma round_nonpos x :
  x <= 0 -> round x = NegInf \/ exists q, round x = Finite q /\ q <= 0.
Proof.
  intros Hx. unfold round.
  assert (Hred : Qred x <= 0) by (rewrite Qred_correct; exact Hx).
  destruct (Qred x) as [num den]. cbn [Qnum Qden].
  destruct num as [|n|n].
  - right. exists 0. split; [reflexivity|apply Qle_refl].
  - exfalso. unfold Qle in Hred. cbn in Hred. lia.
  - destruct (round_pos_nonneg n den) as [->|(q & -> & Hq)].
    + left. reflexivity.
    + right. exists (- q). split; [reflexivity|]. lra.
Qed.

Lemma ltb_trans x y z : ltb x y = true -> ltb y z = true -> ltb x z = true.
Proof.
  destruct x as [a| | |], y as [b| | |], z as [c| | |];
    try discriminate; try reflexivity.
  rewrite !ltb_finite. apply Qlt_trans.
Qed.

(** A difference that is at least a positive [int] is the difference of
    a greater and a smaller float. *)
Lemma sub_ge_int x y n :
  (0 < n)%Z -> ge_int (sub x y) n = true -> ltb y x = true.
Proof.
  intros Hn.
  destruct x as [a| | |], y as [b| | |];
    try discriminate; try reflexivity.
  cbn [sub]. intros H. apply ltb_finite.
  destruct (Qlt_le_dec b a) as [Hlt|Hle]; [assumption|].
  exfalso. destruct (round_nonpos (a - b)) as [E|(q & E & Hq)]; [lra| |];
    rewrite E in H; [discriminate|].
  apply ge_int_finite in H.
  assert (Hpos : 0 < inject_Z n)
    by (change 0 with (inject_Z 0); rewrite <- Zlt_Qlt; assumption).
  lra.
Qed.

End FloatFacts.

(** ** alarm.py: the debounce of the notifications *)

Module AlarmProofs.
Import Emailer Alarm FloatFacts.

Lemma due_spec last now settings :
  due last now settings = true <->
  spec_due last now (email_min_interval_min settings).
Proof.
  unfold due, spec_due, min_interval. destruct last as [t|]; tauto.
Qed.

(** [evaluate] on a call with the alarm enabled, a breached threshold and
    email enabled. *)
Lemma evaluate_active now self temperature settings cfg :
  enabled settings = true ->
  is_low temperature settings || is_high temperature settings = true ->
  email_enabled settings = true ->
  evaluate now self temperature settings (Some cfg) =
  ({| _last_email_ts :=
        if due (_last_email_ts self) now settings
        then Some now else _last_email_ts self;
      _in_alarm := true |},
   (if beep_enabled settings then [Beep] else [])
   ++ (if due (_last_email_ts self) now settings
       then [SendEmailAsync cfg temperature
                            (is_low temperature settings)
                            (is_high temperature settings)]
       else [])).
Proof.
  intros He Ha Hm. unfold evaluate.
  rewrite He, Ha, Hm. simpl.
  destruct (due (_last_email_ts self) now settings); reflexivity.
Qed.

Lemma sent_active (b d : bool) (e : effect) :
  is_send e = true ->
  sent ((if b then [Beep] else []) ++ (if d then [e] else [])) =
  if d then 1%nat else 0%nat.
Proof.
  intros He. unfold sent. destruct b, d; simpl; rewrite ?He; reflexivity.
Qed.

(** One step: the notification is dispatched exactly when the rule says
    so, and the timestamp becomes [now] exactly then. *)
Lemma evaluate_step now self temperature settings cfg :
  enabled settings = true ->
  is_low temperature settings || is_high temperature settings = true ->
  email_enabled settings = true ->
  let '(self', effs) := evaluate now self temperature settings (Some cfg) in
  (spec_due (_last_email_ts self) now (email_min_interval_min settings) ->
   sent effs = 1%nat /\ _last_email_ts self' = Some now) /\
  (~ spec_due (_last_email_ts self) now (email_min_interval_min settings) ->
   sent effs = 0%nat /\ _last_email_ts self' = _last_email_ts self).
Proof.
  intros He Ha Hm. rewrite (evaluate_active now self temperature settings cfg He Ha Hm).
  rewrite sent_active by reflexivity. simpl.
  pose proof (due_spec (_last_email_ts self) now settings) as Hd.
  destruct (due (_last_email_ts self) now settings).
  - split; [intros _; split; reflexivity|].
    intros Hn. exfalso. apply Hn, Hd. reflexivity.
  - split; [|intros _; split; reflexivity].
    intros Hs. apply Hd in Hs. discriminate.
Qed.

Lemma run_debounce calls :
  forall self,
    Forall alarm_mail_active calls ->
    spec_debounce (_last_email_ts self) calls
                  (map sent (snd (run self calls)))
                  (_last_email_ts (fst (run self calls))).
Proof.
  induction calls as [|c calls IH]; intros self Hall.
  - reflexivity.
  - inversion Hall as [|c' calls' Hc Hrest]; subst.
    destruct Hc as (He & Ha & Hm).
    pose proof (evaluate_step (call_now c) self _ _ (call_email_config c)
                              He Ha Hm) as Hstep.
    simpl.
    destruct (evaluate (call_now c) self (call_temperature c)
                       (call_settings c) (Some (call_email_config c)))
      as [self1 effs].
    specialize (IH self1 Hrest).
    destruct (run self1 calls) as [self2 effss]. simpl in *.
    destruct Hstep as [Hyes Hno].
    pose proof (due_spec (_last_email_ts self) (call_now c) (call_settings c))
      as Hd.
    destruct (due (_last_email_ts self) (call_now c) (call_settings c)).
    + left. assert (Hs : spec_due (_last_email_ts self) (call_now c)
                           (email_min_interval_min (call_settings c)))
        by (apply Hd; reflexivity).
      destruct (Hyes Hs) as [Hn Hl]. rewrite Hl in IH. auto.
    + right. assert (Hs : ~ spec_due (_last_email_ts self) (call_now c)
                           (email_min_interval_min (call_settings c)))
        by (intros Hs; apply Hd in Hs; discriminate).
      destruct (Hno Hs) as [Hn Hl]. rewrite Hl in IH. auto.
Qed.

(** The differences of the scenario are 30 and 61 whatever the first
    reading is, and both are floats. *)
Lemma sub_after (t0 gap : Q) :
  Float.sub (Float.Finite (t0 + gap)) (Float.Finite t0) = Float.round gap.
Proof. cbn [Float.sub]. apply round_eq. ring. Qed.

Lemma run_scenario (t0 : Q) (temperature : Float.t) settings cfg :
  enabled settings = true ->
  is_low temperature settings || is_high temperature settings = true ->
  email_enabled settings = true ->
  email_min_interval_min settings = 1%Z ->
  map sent (snd (run init (calls_at temperature settings cfg
                                    [Float.Finite t0;
                                     Float.Finite (t0 + 30)])))
  = [1; 0]%nat /\
  map sent (snd (run init (calls_at temperature settings cfg
                                    [Float.Finite t0;
                                     Float.Finite (t0 + 30);
                                     Float.Finite (t0 + 61)])))
  = [1; 0; 1]%nat.
Proof.
  intros He Ha Hm Hmin.
  assert (H30 : due (Some (Float.Finite t0)) (Float.Finite (t0 + 30)) settings
                = false).
  { unfold due, min_interval. rewrite Hmin, sub_after. reflexivity. }
  assert (H61 : due (Some (Float.Finite t0)) (Float.Finite (t0 + 61)) settings
                = true).
  { unfold due, min_interval. rewrite Hmin, sub_after. reflexivity. }
  assert (Hsent : forall d : bool,
             sent ((if beep_enabled settings then [Beep] else [])
                   ++ (if d then [SendEmailAsync cfg temperature
                                    (is_low temperature settings)
                                    (is_high temperature settings)]
                       else [])) = if d then 1%nat else 0%nat)
    by (intros d; apply sent_active; reflexivity).
  unfold calls_at.
  cbn [map run call_now call_temperature call_settings call_email_config].
  rewrite (evaluate_active _ init _ _ cfg He Ha Hm).
  cbn [init _last_email_ts].
  change (due None (Float.Finite t0) settings) with true. cbv iota.
  rewrite (evaluate_active (Float.Finite (t0 + 30)) _ _ _ cfg He Ha Hm).
  cbn [_last_email_ts]. rewrite H30.
  rewrite (evaluate_active (Float.Finite (t0 + 61)) _ _ _ cfg He Ha Hm).
  cbn [_last_email_ts]. rewrite H61.
  cbn [snd map]. rewrite (Hsent true), (Hsent false).
  split; reflexivity.
Qed.

(** The difference is the one that the floats give: the readings 0.3 and
    60.3 of the clock are floats whose difference is rounded to 60, and an
    evaluation at the second is due one minute after the first. *)
Lemma due_on_rounded_difference settings :
  email_min_interval_min settings = 1%Z ->
  Float.sub (Float.round (603 # 10)) (Float.round (3 # 10))
  = Float.Finite 60 /\
  due (Some (Float.round (3 # 10))) (Float.round (603 # 10)) settings = true.
Proof.
  intros Hmin. split; [vm_compute; reflexivity|].
  unfold due, min_interval. rewrite Hmin. vm_compute. reflexivity.
Qed.

(** C1.  In a sequence of evaluations of one session with the alarm
    enabled, a breached threshold and email enabled, every evaluation sends
    its notification exactly when the timestamp of the last one is unset or
    the difference of the clock and the timestamp, as the floats give it,
    is at least [max(1, email_min_interval_min) * 60], and the timestamp
    becomes the time of the evaluation exactly then.  With an interval of
    one minute, evaluations at the readings [t0] and [t0 + 30] send one
    notification and a third one at [t0 + 61] sends the second; and at the
    readings 0.3 and 60.3, whose difference is rounded to 60, the second
    evaluation is due. *)
Theorem evaluate_debounces_notifications (calls : list call) (self : AlarmManager) :
  Forall alarm_mail_active calls ->
  spec_debounce (_last_email_ts self) calls
                (map sent (snd (run self calls)))
                (_last_email_ts (fst (run self calls)))
  /\
  (forall (t0 : Q) (temperature : Float.t) settings cfg,
      enabled settings = true ->
      is_low temperature settings || is_high temperature settings = true ->
      email_enabled settings = true ->
      email_min_interval_min settings = 1%Z ->
      map sent (snd (run init (calls_at temperature settings cfg
                                        [Float.Finite t0;
                                         Float.Finite (t0 + 30)])))
      = [1; 0]%nat /\
      map sent (snd (run init (calls_at temperature settings cfg
                                        [Float.Finite t0;
                                         Float.Finite (t0 + 30);
                                         Float.Finite (t0 + 61)])))
      = [1; 0; 1]%nat /\
      map sent (snd (run init (calls_at temperature settings cfg
                                        [Float.round (3 # 10);
                                         Float.round (603 # 10)])))
      = [1; 1]%nat).
Proof.
  intros Hall. split.
  - apply run_debounce, Hall.
  - intros t0 temperature settings cfg He Ha Hm Hmin.
    destruct (run_scenario t0 temperature settings cfg He Ha Hm Hmin)
      as [H2 H3].
    split; [exact H2|]. split; [exact H3|].
    destruct (due_on_rounded_difference settings Hmin) as [_ Hdue].
    unfold calls_at.
    cbn [map run call_now call_temperature call_settings call_email_config].
    rewrite (evaluate_active _ init _ _ cfg He Ha Hm).
    cbn [init _last_email_ts].
    change (due None (Float.round (3 # 10)) settings) with true. cbv iota.
    rewrite (evaluate_active (Float.round (603 # 10)) _ _ _ cfg He Ha Hm).
    cbn [_last_email_ts]. rewrite Hdue.
    cbn [snd map].
    rewrite (sent_active (beep_enabled settings) true) by reflexivity.
    reflexivity.
Qed.

Lemma evaluate_debounces_notifications_witness :
  let calls := calls_at (Float.Finite 325.5) Demo.alarm_settings
                        Demo.email_config
                        [Float.Finite 1000; Float.Finite 1030;
                         Float.Finite 1061] in
  Forall alarm_mail_active calls /\
  spec_debounce None calls [1; 0; 1]%nat (Some (Float.Finite 1061)).
Proof.
  intros calls.
  assert (H : Forall alarm_mail_active calls).
  { repeat constructor; discriminate. }
  split; [exact H|].
  exact (proj1 (evaluate_debounces_notifications calls init H)).
Defined.

End AlarmProofs.

(** ** main_window.py: the history buffer *)

Module HistoryProofs.
Import MainWindow.

Section Lists.
Context {A : Type}.
Implicit Types (l : list A) (n : nat).

Lemma slice_from_neg (m : Z) l :
  (0 < m)%Z -> slice_from (- m) l = last_n (Z.to_nat m) l.
Proof.
  intros Hm. unfold slice_from, last_n.
  replace (- m <? 0)%Z with true by (symmetry; apply Z.ltb_lt; lia).
  f_equal. lia.
Qed.

Lemma slice_from_zero l : slice_from (- 0) l = l.
Proof.
  unfold slice_from. simpl.
  replace (Z.min 0 (Z.of_nat (List.length l))) with 0%Z by lia. reflexivity.
Qed.

Lemma last_n_all n l : (List.length l <= n)%nat -> last_n n l = l.
Proof.
  intros H. unfold last_n.
  replace (List.length l - n)%nat with 0%nat by lia. reflexivity.
Qed.

Lemma last_n_length n l : (List.length (last_n n l) <= n)%nat.
Proof. unfold last_n. rewrite length_skipn. lia. Qed.

Lemma last_n_length_eq n l :
  List.length (last_n n l) = Nat.min n (List.length l).
Proof. unfold last_n. rewrite length_skipn. lia. Qed.

(** A buffer of capacity [n] that receives [x] keeps the last [n] of all
    that was appended. *)
Lemma last_n_snoc n l x :
  (0 < n)%nat -> last_n n (last_n n l ++ [x]) = last_n n (l ++ [x]).
Proof.
  intros Hn. unfold last_n.
  rewrite !length_app, length_skipn. simpl.
  destruct (Nat.le_gt_cases (List.length l) n) as [Hle|Hgt].
  - replace (List.length l - n)%nat with 0%nat by lia. simpl.
    f_equal. lia.
  - rewrite !skipn_app, length_skipn, skipn_skipn.
    f_equal; f_equal; lia.
Qed.

(** What is kept is the end of what was appended: the oldest go first. *)
Lemma last_n_suffix n l : exists evicted, l = evicted ++ last_n n l.
Proof.
  exists (firstn (List.length l - n) l). unfold last_n.
  symmetry. apply firstn_skipn.
Qed.

End Lists.

Lemma append_history_pos (m : Z) e t (td tp : list Float.t) :
  (0 < m)%Z -> List.length td = List.length tp ->
  append_history m e t td tp =
  (last_n (Z.to_nat m) (td ++ [e]), last_n (Z.to_nat m) (tp ++ [t])).
Proof.
  intros Hm Hlen. unfold append_history.
  destruct (Z.of_nat (List.length (td ++ [e])) >? m)%Z eqn:E.
  - rewrite !slice_from_neg by assumption. reflexivity.
  - assert (Hle : (Z.of_nat (List.length (td ++ [e])) <= m)%Z)
      by (rewrite Z.gtb_ltb, Z.ltb_ge in E; lia).
    rewrite !last_n_all; [reflexivity| |].
    + rewrite length_app in *. simpl in *. lia.
    + lia.
Qed.

Lemma append_history_zero e t (td tp : list Float.t) :
  append_history 0 e t td tp = (td ++ [e], tp ++ [t]).
Proof.
  unfold append_history. rewrite !slice_from_zero.
  destruct (_ >? 0)%Z; reflexivity.
Qed.

(** After an append the time series holds at most [max_points] values,
    whatever it held before. *)
Lemma append_history_bounded (m : Z) e t (td tp : list Float.t) :
  (0 < m)%Z ->
  (Z.of_nat (List.length (fst (append_history m e t td tp))) <= m)%Z.
Proof.
  intros Hm. unfold append_history.
  destruct (Z.of_nat (List.length (td ++ [e])) >? m)%Z eqn:E; simpl.
  - rewrite slice_from_neg by assumption.
    pose proof (last_n_length (Z.to_nat m) (td ++ [e])). lia.
  - rewrite Z.gtb_ltb, Z.ltb_ge in E. lia.
Qed.

Lemma append_all_snoc m samples e t :
  forall td tp,
    append_all m (samples ++ [(e, t)]) td tp =
    let '(td', tp') := append_all m samples td tp in
    append_history m e t td' tp'.
Proof.
  induction samples as [|[e0 t0] samples IH]; intros td tp; simpl.
  - destruct (append_history m e t td tp). reflexivity.
  - destruct (append_history m e0 t0 td tp) as [td1 tp1]. apply IH.
Qed.

Lemma append_all_pos (m : Z) samples :
  (0 < m)%Z ->
  append_all m samples [] [] =
  (last_n (Z.to_nat m) (map fst samples),
   last_n (Z.to_nat m) (map snd samples)).
Proof.
  intros Hm. induction samples as [|[e t] samples IH] using rev_ind.
  - reflexivity.
  - rewrite append_all_snoc, IH.
    rewrite append_history_pos; [|assumption|].
    + rewrite !map_app. simpl. rewrite !last_n_snoc by lia. reflexivity.
    + rewrite !last_n_length_eq, !length_map. reflexivity.
Qed.

Lemma append_all_zero samples :
  append_all 0 samples [] [] = (map fst samples, map snd samples).
Proof.
  induction samples as [|[e t] samples IH] using rev_ind.
  - reflexivity.
  - rewrite append_all_snoc, IH, append_history_zero, !map_app. reflexivity.
Qed.

(** C2.  The history of a session, from the empty buffers of its start:
    with a cap [max_points > 0] it holds, after every append, the last
    [max_points] samples that were appended, in their order (the older ones
    are the evicted ones), so never more than [max_points]; with the cap 0
    it holds all of them.  Fifteen samples through a cap of 10 leave the
    last ten.  One append leaves at most [max_points] values whatever the
    buffer held before. *)
Theorem history_keeps_last_max_points (max_points : Z) (samples : list (Float.t * Float.t)) :
  let '(time_data, temp_data) := append_all max_points samples [] [] in
  ((0 < max_points)%Z ->
   time_data = last_n (Z.to_nat max_points) (map fst samples) /\
   temp_data = last_n (Z.to_nat max_points) (map snd samples) /\
   (Z.of_nat (List.length time_data) <= max_points)%Z /\
   (Z.of_nat (List.length temp_data) <= max_points)%Z /\
   (exists evicted, map fst samples = evicted ++ time_data) /\
   (exists evicted, map snd samples = evicted ++ temp_data)) /\
  (max_points = 0%Z ->
   time_data = map fst samples /\ temp_data = map snd samples) /\
  (forall first5 last10 : list (Float.t * Float.t),
      List.length first5 = 5%nat -> List.length last10 = 10%nat ->
      append_all 10 (first5 ++ last10) [] [] =
      (map fst last10, map snd last10)) /\
  (forall e t (td tp : list Float.t),
      (0 < max_points)%Z ->
      (Z.of_nat (List.length (fst (append_history max_points e t td tp)))
       <= max_points)%Z).
Proof.
  destruct (append_all max_points samples [] []) as [td tp] eqn:E.
  split; [|split; [|split]]; [| | |intros; apply append_history_bounded;
                                   assumption].
  - intros Hm. rewrite append_all_pos in E by assumption.
    injection E as <- <-.
    pose proof (last_n_length (Z.to_nat max_points) (map fst samples)).
    pose proof (last_n_length (Z.to_nat max_points) (map snd samples)).
    repeat split; try lia; apply last_n_suffix.
  - intros ->. rewrite append_all_zero in E. injection E as <- <-.
    split; reflexivity.
  - intros first5 last10 H5 H10. rewrite append_all_pos by lia.
    unfold last_n. rewrite !map_app, !length_app, !length_map, H5, H10.
    change (5 + 10 - Z.to_nat 10)%nat with 5%nat.
    rewrite !skipn_app, !length_map, H5.
    rewrite (skipn_all2 (map fst first5)) by (rewrite length_map; lia).
    rewrite (skipn_all2 (map snd first5)) by (rewrite length_map; lia).
    reflexivity.
Qed.

End HistoryProofs.

(** ** settings.py: decoding inverts encoding *)

Module SettingsProofs.
Import Settings.

(** [replace] of a one-character [old] works character by character. *)
Lemma replace_from_char old new s :
  replace_from [old] new 0 s = flat_map (replace1 old new) s.
Proof.
  induction s as [|c s IH]; [reflexivity|].
  cbn [replace_from is_prefix flat_map List.length Nat.sub].
  unfold replace1 at 1. rewrite andb_true_r.
  destruct (old =? c)%N; simpl; rewrite IH; reflexivity.
Qed.

Lemma replace_char old new s :
  replace [old] new s = flat_map (replace1 old new) s.
Proof. apply replace_from_char. Qed.

Lemma encode_terminator_cons c s :
  encode_terminator (c :: s) = escape_char c ++ encode_terminator s.
Proof.
  unfold encode_terminator. rewrite !replace_char.
  cbn [flat_map]. rewrite !flat_map_app. f_equal.
  unfold escape_char, replace1 at 4, backslash, CR, LF, TAB.
  rewrite (N.eqb_sym c).
  destruct (N.eqb_spec (ord "\") c) as [<-|Hb]; [reflexivity|].
  cbn [flat_map]. unfold replace1 at 3. rewrite (N.eqb_sym c 13).
  destruct (N.eqb_spec 13 c) as [<-|Hr]; [reflexivity|].
  cbn [flat_map app]. unfold replace1 at 2. rewrite (N.eqb_sym c 10).
  destruct (N.eqb_spec 10 c) as [<-|Hn]; [reflexivity|].
  cbn [flat_map app]. unfold replace1. rewrite (N.eqb_sym c 9).
  destruct (N.eqb_spec 9 c) as [<-|Ht]; reflexivity.
Qed.

Lemma encode_terminator_flat s :
  encode_terminator s = flat_map escape_char s.
Proof.
  induction s as [|c s IH]; [reflexivity|].
  rewrite encode_terminator_cons, IH. reflexivity.
Qed.

Lemma terminator_char_cases c :
  terminator_char c = true ->
  c = backslash \/ c = CR \/ c = LF \/ c = TAB \/
  ((65 <= c <= 90)%N \/ (97 <= c <= 122)%N).
Proof.
  unfold terminator_char, backslash, CR, LF, TAB. simpl ord.
  rewrite !orb_true_iff, !andb_true_iff, !N.eqb_eq, !N.leb_le. tauto.
Qed.

Lemma escape_char_ascii c :
  terminator_char c = true -> forallb (fun x => (x <? 128)%N) (escape_char c) = true.
Proof.
  intros H. apply terminator_char_cases in H.
  unfold backslash, CR, LF, TAB in H. simpl ord in H.
  destruct H as [->|[->|[->|[->|H]]]]; try reflexivity.
  unfold escape_char, backslash, CR, LF, TAB. simpl ord.
  destruct (N.eqb_spec c 92); [lia|].
  destruct (N.eqb_spec c 13); [lia|].
  destruct (N.eqb_spec c 10); [lia|].
  destruct (N.eqb_spec c 9); [lia|].
  simpl. rewrite andb_true_r. apply N.ltb_lt. lia.
Qed.

Lemma encode_utf8_ascii s :
  forallb (fun x => (x <? 128)%N) s = true ->
  encode_utf8 s = Ok (map ascii_of_N s).
Proof.
  induction s as [|c s IH]; [reflexivity|].
  simpl. rewrite andb_true_iff. intros [Hc Hs].
  unfold utf8_char. rewrite Hc, (IH Hs). reflexivity.
Qed.

Lemma ascii_of_N_eqb (c : N) (a : ascii) :
  (c < 256)%N -> Ascii.eqb (ascii_of_N c) a = (c =? N_of_ascii a)%N.
Proof.
  intros Hc. destruct (N.eqb_spec c (N_of_ascii a)) as [->|Hne].
  - rewrite ascii_N_embedding. apply Ascii.eqb_refl.
  - apply Ascii.eqb_neq. intros <-. apply Hne.
    symmetry. apply N_ascii_embedding. assumption.
Qed.

Section Decode.
Variable ucd : unicode_db.

(** The decoder reads the escaped form of one character back to it. *)
Lemma unicode_escape_char c rest :
  terminator_char c = true ->
  unicode_escape_from ucd Plain (map ascii_of_N (escape_char c) ++ rest) =
  emit c (unicode_escape_from ucd Plain rest).
Proof.
  intros H. apply terminator_char_cases in H.
  unfold backslash, CR, LF, TAB in H. simpl ord in H.
  destruct H as [->|[->|[->|[->|H]]]]; try reflexivity.
  unfold escape_char, backslash, CR, LF, TAB. simpl ord.
  destruct (N.eqb_spec c 92); [lia|].
  destruct (N.eqb_spec c 13); [lia|].
  destruct (N.eqb_spec c 10); [lia|].
  destruct (N.eqb_spec c 9); [lia|].
  cbn [map app unicode_escape_from].
  rewrite ascii_of_N_eqb by lia.
  change (N_of_ascii "\") with 92%N.
  destruct (N.eqb_spec c 92); [lia|].
  rewrite N_ascii_embedding by lia. reflexivity.
Qed.

Lemma unicode_escape_encoded s :
  forallb terminator_char s = true ->
  unicode_escape_from ucd Plain (map ascii_of_N (flat_map escape_char s)) = Ok s.
Proof.
  induction s as [|c s IH]; [reflexivity|].
  cbn [forallb flat_map]. rewrite andb_true_iff. intros [Hc Hs].
  rewrite map_app, unicode_escape_char by assumption.
  etransitivity; [apply f_equal, IH, Hs | reflexivity].
Qed.

Lemma flat_map_escape_ascii s :
  forallb terminator_char s = true ->
  forallb (fun x => (x <? 128)%N) (flat_map escape_char s) = true.
Proof.
  induction s as [|c s IH]; [reflexivity|].
  cbn [forallb flat_map]. rewrite andb_true_iff. intros [Hc Hs].
  rewrite forallb_app. apply andb_true_iff. split.
  - apply escape_char_ascii, Hc.
  - apply IH, Hs.
Qed.

End Decode.

(** C4.  For every string made of carriage returns, line feeds, tabs,
    backslashes and the letters [A-Za-z], decoding its escaped form gives
    the string back. *)
Theorem decode_encode_terminator (ucd : unicode_db) (s : str) :
  forallb terminator_char s = true ->
  decode_terminator ucd (encode_terminator s) = Ok s.
Proof.
  intros Hs. unfold decode_terminator, decode_unicode_escape.
  rewrite encode_terminator_flat.
  rewrite encode_utf8_ascii by (apply flat_map_escape_ascii; assumption).
  apply unicode_escape_encoded. assumption.
Qed.

Lemma decode_encode_terminator_witness :
  let s := [13%N; 10%N; 9%N; ord "\"; ord "n"; ord "x"; ord "Z"] in
  forallb terminator_char s = true /\
  encode_terminator s = lit "\r\n\t\\nxZ" /\
  decode_terminator Demo.ucd (encode_terminator s) = Ok s.
Proof.
  intros s. split; [reflexivity|]. split; [reflexivity|].
  apply (decode_encode_terminator Demo.ucd s). reflexivity.
Defined.

End SettingsProofs.

(** ** protocol.py: the search of the first number *)

Module RegexProofs.
Import Protocol.

(** *** The matcher against the language of a pattern *)

Lemma match_plus_sound {R} p (k : str -> option R) :
  forall s x,
    match_plus p s k = Some x ->
    exists t rest, s = t ++ rest /\ matches (Plus p) t /\ k rest = Some x.
Proof.
  induction s as [|c s IH]; intros x H; [discriminate|].
  simpl in H. destruct (p c) eqn:Hc; [|discriminate].
  destruct (match_plus p s k) as [y|] eqn:E.
  - injection H as ->. destruct (IH x eq_refl) as (t & rest & -> & Ht & Hk).
    exists (c :: t), rest. repeat split; [|assumption].
    apply m_plus_more; assumption.
  - exists [c], s. repeat split; [|assumption].
    apply m_plus_one; assumption.
Qed.

Lemma rmatch_sound {R} r :
  forall (k : str -> option R) s x,
    rmatch r s k = Some x ->
    exists t rest, s = t ++ rest /\ matches r t /\ k rest = Some x.
Proof.
  induction r as [p|r1 IH1 r2 IH2|r IH|p]; intros k s x H; simpl in H.
  - destruct s as [|c s]; [discriminate|].
    destruct (p c) eqn:Hc; [|discriminate].
    exists [c], s. repeat split; [|assumption]. constructor; assumption.
  - apply IH1 in H. destruct H as (t1 & rest1 & -> & H1 & H).
    apply IH2 in H. destruct H as (t2 & rest & -> & H2 & H).
    exists (t1 ++ t2), rest. rewrite <- app_assoc.
    repeat split; [|assumption]. constructor; assumption.
  - destruct (rmatch r s k) as [y|] eqn:E.
    + injection H as ->. apply IH in E. destruct E as (t & rest & -> & Ht & Hk).
      exists t, rest. repeat split; [|assumption]. apply m_opt_some; assumption.
    + exists [], s. repeat split; [|assumption]. apply m_opt_none.
  - apply match_plus_sound; assumption.
Qed.

Lemma match_plus_complete {R} p (k : str -> option R) t :
  matches (Plus p) t ->
  forall rest x, k rest = Some x -> match_plus p (t ++ rest) k <> None.
Proof.
  intros Ht. remember (Plus p) as r eqn:Er.
  induction Ht as [| | | |q c Hc|q c s Hc Hs IH]; try discriminate;
    injection Er as ->; intros rest x Hk; simpl; rewrite Hc.
  - destruct (match_plus p rest k); congruence.
  - specialize (IH eq_refl rest x Hk).
    destruct (match_plus p (s ++ rest) k); congruence.
Qed.

Lemma rmatch_complete {R} r t :
  matches r t ->
  forall (k : str -> option R) rest x,
    k rest = Some x -> rmatch r (t ++ rest) k <> None.
Proof.
  intros Ht.
  induction Ht as [p c Hc|r1 r2 s1 s2 H1 IH1 H2 IH2|r|r s Hs IH
                  |p c Hc|p c s Hc Hs _]; intros k rest x Hk.
  - simpl. rewrite Hc. congruence.
  - simpl. rewrite <- app_assoc.
    destruct (rmatch r2 (s2 ++ rest) k) as [y|] eqn:E.
    + apply (IH1 _ _ y). assumption.
    + exfalso. apply (IH2 k rest x Hk). assumption.
  - simpl. destruct (rmatch r rest k); congruence.
  - simpl. specialize (IH k rest x Hk).
    destruct (rmatch r (s ++ rest) k); congruence.
  - apply (match_plus_complete p k [c]) with (x := x);
      [apply m_plus_one|]; assumption.
  - apply (match_plus_complete p k (c :: s)) with (x := x);
      [apply m_plus_more|]; assumption.
Qed.

(** *** [search] finds the leftmost occurrence *)

Lemma rmatch_some_token r s rest :
  rmatch r s (@Some str) = Some rest ->
  exists t, s = t ++ rest /\ matches r t /\
            firstn (List.length s - List.length rest) s = t.
Proof.
  intros H. apply rmatch_sound in H.
  destruct H as (t & rest' & -> & Ht & Hk). injection Hk as ->.
  exists t. repeat split; [assumption|].
  rewrite length_app, Nat.add_sub, firstn_app, Nat.sub_diag, firstn_all.
  apply app_nil_r.
Qed.

Lemma search_from_unfold r pos s :
  search_from r pos s =
  match rmatch r s (@Some str) with
  | Some rest =>
      Some {| start := pos;
              group0 := firstn (List.length s - List.length rest) s |}
  | None =>
      match s with
      | [] => None
      | _ :: s' => search_from r (S pos) s'
      end
  end.
Proof. destruct s; reflexivity. Qed.

Lemma search_from_here r pos s rest :
  rmatch r s (@Some str) = Some rest ->
  exists t, s = t ++ rest /\ matches r t /\
            search_from r pos s = Some {| start := pos; group0 := t |}.
Proof.
  intros E. rewrite search_from_unfold, E.
  destruct (rmatch_some_token _ _ _ E) as (t & Hs & Ht & Hf).
  exists t. rewrite Hf. auto.
Qed.

Lemma search_from_sound r :
  forall s pos m,
    search_from r pos s = Some m ->
    exists pre post,
      s = pre ++ group0 m ++ post /\
      start m = (pos + List.length pre)%nat /\
      matches r (group0 m) /\
      rmatch r (group0 m ++ post) (@Some str) = Some post /\
      forall pre' t post',
        s = pre' ++ t ++ post' -> matches r t ->
        (List.length pre <= List.length pre')%nat.
Proof.
  assert (Hhere : forall s pos m rest,
             rmatch r s (@Some str) = Some rest ->
             search_from r pos s = Some m ->
             exists pre post,
               s = pre ++ group0 m ++ post /\
               start m = (pos + List.length pre)%nat /\
               matches r (group0 m) /\
               rmatch r (group0 m ++ post) (@Some str) = Some post /\
               forall pre' t post',
                 s = pre' ++ t ++ post' -> matches r t ->
                 (List.length pre <= List.length pre')%nat).
  { intros s pos m rest E H.
    destruct (search_from_here _ pos _ _ E) as (t & Hs & Ht & Hsf).
    rewrite Hsf in H. injection H as <-.
    exists [], rest. cbn [group0 start].
    repeat split; try assumption; simpl; try lia.
    rewrite <- Hs. assumption. }
  induction s as [|c s IH]; intros pos m H.
  - destruct (rmatch r [] (@Some str)) as [rest|] eqn:E.
    + apply (Hhere _ _ _ _ E H).
    + rewrite search_from_unfold, E in H. discriminate.
  - destruct (rmatch r (c :: s) (@Some str)) as [rest|] eqn:E.
    + apply (Hhere _ _ _ _ E H).
    + rewrite search_from_unfold, E in H.
      apply IH in H. destruct H as (pre & post & -> & Hst & Hm & Hr & Hleft).
      exists (c :: pre), post. repeat split; try assumption.
      * simpl. lia.
      * intros pre' t post' Heq Ht.
        destruct pre' as [|c' pre'].
        -- exfalso. simpl in Heq.
           apply (rmatch_complete r t Ht (@Some str) post' post' eq_refl).
           rewrite <- Heq. assumption.
        -- injection Heq as <- Heq. simpl.
           apply le_n_S, (Hleft pre' t post'); assumption.
Qed.

Lemma search_from_none r :
  forall s pos,
    search_from r pos s = None ->
    forall pre t post, s = pre ++ t ++ post -> ~ matches r t.
Proof.
  induction s as [|c s IH]; intros pos H pre t post Heq Ht;
    rewrite search_from_unfold in H.
  - destruct (rmatch r [] (@Some str)) eqn:E; [discriminate|].
    destruct pre; [|discriminate]. simpl in Heq.
    apply (rmatch_complete r t Ht (@Some str) post post eq_refl).
    rewrite <- Heq. assumption.
  - destruct (rmatch r (c :: s) (@Some str)) eqn:E; [discriminate|].
    destruct pre as [|c' pre].
    + simpl in Heq.
      apply (rmatch_complete r t Ht (@Some str) post post eq_refl).
      rewrite <- Heq. assumption.
    + injection Heq as <- Heq. apply (IH _ H pre t post); assumption.
Qed.

End RegexProofs.

(** ** protocol.py: the pattern of a number, and [parse_temperature] *)

Module ProtocolProofs.
Import Protocol RegexProofs.

Lemma matches_class_inv p t :
  matches (Class p) t <-> exists c, t = [c] /\ p c = true.
Proof.
  split.
  - intros H. inversion H; subst. eauto.
  - intros (c & -> & Hc). constructor. assumption.
Qed.

Lemma matches_cat_inv r1 r2 t :
  matches (Cat r1 r2) t <->
  exists t1 t2, t = t1 ++ t2 /\ matches r1 t1 /\ matches r2 t2.
Proof.
  split.
  - intros H. inversion H; subst. eauto.
  - intros (t1 & t2 & -> & H1 & H2). constructor; assumption.
Qed.

Lemma matches_opt_inv r t :
  matches (Opt r) t <-> t = [] \/ matches r t.
Proof.
  split.
  - intros H. inversion H; subst; auto.
  - intros [->|H]; [apply m_opt_none|apply m_opt_some; assumption].
Qed.

Lemma matches_plus_inv p t :
  matches (Plus p) t <-> t <> [] /\ forallb p t = true.
Proof.
  split.
  - intros H. remember (Plus p) as r eqn:Er.
    induction H as [| | | |q c Hc|q c s Hc Hs IH]; try discriminate;
      injection Er as ->.
    + split; [discriminate|]. simpl. rewrite Hc. reflexivity.
    + split; [discriminate|]. simpl. rewrite Hc. apply IH. reflexivity.
  - intros [Hne Hall]. induction t as [|c t IH]; [congruence|].
    simpl in Hall. apply andb_true_iff in Hall. destruct Hall as [Hc Ht].
    destruct t as [|d t].
    + apply m_plus_one. assumption.
    + apply m_plus_more; [assumption|]. apply IH; [discriminate|assumption].
Qed.

Section Pattern.
Variable ucd : unicode_db.

Local Abbreviation is_digit := (Protocol.is_digit ucd).
Local Abbreviation pattern := (Protocol.pattern ucd).
Local Abbreviation fraction_re := (Protocol.fraction_re ucd).
Local Abbreviation exponent_re := (Protocol.exponent_re ucd).
Local Abbreviation k_exponent := (Protocol.k_exponent ucd).
Local Abbreviation k_fraction := (Protocol.k_fraction ucd).
Local Abbreviation k_digits := (Protocol.k_digits ucd).

Lemma sign_opt_matches sg : sign_opt sg <-> matches (Opt (Class is_sign)) sg.
Proof.
  rewrite matches_opt_inv, matches_class_inv. unfold sign_opt, is_sign.
  split.
  - intros [-> | [-> | ->]]; [auto|right|right]; eexists; split; reflexivity.
  - intros [->|(c & -> & Hc)]; [auto|right].
    apply orb_true_iff in Hc. rewrite !N.eqb_eq in Hc.
    destruct Hc as [->| ->]; auto.
Qed.

Lemma digits1_matches d : digits1 ucd d <-> matches (Plus is_digit) d.
Proof. rewrite matches_plus_inv. reflexivity. Qed.

Lemma fraction_opt_matches fr :
  fraction_opt ucd fr <-> matches (Opt fraction_re) fr.
Proof.
  rewrite matches_opt_inv. unfold fraction_opt, fraction_re.
  rewrite matches_cat_inv. split.
  - intros [->|(fd & -> & Hd)]; [auto|right].
    exists [ord "."], fd. repeat split.
    + constructor. reflexivity.
    + apply digits1_matches. assumption.
  - intros [->|(t1 & t2 & -> & H1 & H2)]; [auto|right].
    apply matches_class_inv in H1. destruct H1 as (c & -> & Hc).
    apply N.eqb_eq in Hc. subst c.
    exists t2. split; [reflexivity|]. apply digits1_matches. assumption.
Qed.

Lemma exponent_opt_matches ex :
  exponent_opt ucd ex <-> matches (Opt exponent_re) ex.
Proof.
  rewrite matches_opt_inv. unfold exponent_opt, exponent_re.
  rewrite matches_cat_inv. split.
  - intros [->|(e & sg & ed & -> & He & Hsg & Hd)]; [auto|right].
    exists [e], (sg ++ ed). repeat split.
    + constructor. unfold is_e. destruct He as [->| ->]; reflexivity.
    + constructor; [apply sign_opt_matches|apply digits1_matches]; assumption.
  - intros [->|(t1 & t2 & -> & H1 & H2)]; [auto|right].
    apply matches_class_inv in H1. destruct H1 as (e & -> & He).
    apply matches_cat_inv in H2. destruct H2 as (sg & ed & -> & Hsg & Hd).
    exists e, sg, ed. repeat split.
    + unfold is_e in He. apply orb_true_iff in He.
      rewrite !N.eqb_eq in He. assumption.
    + apply sign_opt_matches. assumption.
    + apply digits1_matches. assumption.
    + apply digits1_matches. assumption.
Qed.

(** The numbers of the specification are the strings that the pattern of
    [parse_temperature] matches. *)
Lemma number_matches t : number ucd t <-> matches pattern t.
Proof.
  unfold number, Protocol.pattern.
  fold fraction_re. fold exponent_re.
  split.
  - intros (sg & ip & fr & ex & -> & Hsg & Hip & Hfr & Hex).
    constructor; [apply sign_opt_matches; assumption|].
    constructor; [apply digits1_matches; assumption|].
    constructor; [apply fraction_opt_matches|apply exponent_opt_matches];
      assumption.
  - intros H.
    apply matches_cat_inv in H. destruct H as (sg & t1 & -> & Hsg & H).
    apply matches_cat_inv in H. destruct H as (ip & t2 & -> & Hip & H).
    apply matches_cat_inv in H. destruct H as (fr & ex & -> & Hfr & Hex).
    exists sg, ip, fr, ex. split; [reflexivity|].
    rewrite sign_opt_matches, digits1_matches, fraction_opt_matches,
      exponent_opt_matches. auto.
Qed.

(** *** Characters *)

Lemma digit_not_sign c : is_digit c = true -> is_sign c = false.
Proof.
  unfold Protocol.is_digit, digit_value, is_sign. simpl ord.
  destruct (N.eqb_spec c 45) as [->|]; [discriminate|].
  destruct (N.eqb_spec c 43) as [->|]; [discriminate|]. reflexivity.
Qed.

Lemma digit_not_dot c : is_digit c = true -> is_dot c = false.
Proof.
  unfold Protocol.is_digit, digit_value, is_dot. simpl ord.
  destruct (N.eqb_spec c 46) as [->|]; [discriminate|]. reflexivity.
Qed.

Lemma digit_not_e c : is_digit c = true -> is_e c = false.
Proof.
  unfold Protocol.is_digit, digit_value, is_e. simpl ord.
  destruct (N.eqb_spec c 101) as [->|]; [discriminate|].
  destruct (N.eqb_spec c 69) as [->|]; [discriminate|]. reflexivity.
Qed.

Lemma digits1_head d :
  digits1 ucd d -> exists c d', d = c :: d' /\ is_digit c = true /\
                                 forallb is_digit d' = true.
Proof.
  intros [Hne Hall]. destruct d as [|c d']; [congruence|].
  simpl in Hall. apply andb_true_iff in Hall. destruct Hall. eauto.
Qed.

(** *** Lengths of what a continuation leaves *)

Lemma drop_while_app_all {A} (p : A -> bool) d w :
  forallb p d = true -> drop_while p (d ++ w) = drop_while p w.
Proof.
  induction d as [|c d IH]; [reflexivity|].
  simpl. intros H. apply andb_true_iff in H. destruct H as [-> H]. auto.
Qed.

Lemma drop_while_length {A} (p : A -> bool) w :
  (List.length (drop_while p w) <= List.length w)%nat.
Proof.
  induction w as [|c w IH]; [reflexivity|].
  simpl. destruct (p c); simpl; lia.
Qed.

Lemma drop_while_head {A} (p : A -> bool) c w :
  p c = false -> drop_while p (c :: w) = c :: w.
Proof. intros H. simpl. rewrite H. reflexivity. Qed.

(** The greedy [+] hands the continuation what follows the longest run,
    when the continuation accepts it. *)
Lemma match_plus_greedy {R} p (k : str -> option R) :
  forall s c x,
    p c = true -> k (drop_while p s) = Some x ->
    match_plus p (c :: s) k = Some x.
Proof.
  induction s as [|d s IH]; intros c x Hc Hk; simpl; rewrite Hc.
  - assumption.
  - simpl in Hk. destruct (p d) eqn:Hd.
    + specialize (IH d x Hd Hk). simpl in IH. rewrite Hd in IH.
      rewrite IH. reflexivity.
    + assumption.
Qed.

Lemma match_plus_run {R} p (k : str -> option R) d w x :
  d <> [] -> forallb p d = true ->
  k (drop_while p w) = Some x ->
  match_plus p (d ++ w) k = Some x.
Proof.
  intros Hne Hall Hk. destruct d as [|c d]; [congruence|].
  simpl in Hall. apply andb_true_iff in Hall. destruct Hall as [Hc Hd].
  simpl app. apply match_plus_greedy; [assumption|].
  rewrite drop_while_app_all by assumption. assumption.
Qed.

(** What a continuation returns is the end of what it was given. *)
Lemma rmatch_some_length r s rest :
  rmatch r s (@Some str) = Some rest ->
  (List.length rest <= List.length s)%nat.
Proof.
  intros H. apply rmatch_sound in H.
  destruct H as (t & rest' & -> & _ & Hk). injection Hk as ->.
  rewrite length_app. lia.
Qed.

Lemma rmatch_opt {R} r s (k : str -> option R) :
  rmatch (Opt r) s k =
  match rmatch r s k with Some x => Some x | None => k s end.
Proof. reflexivity. Qed.

Lemma rmatch_cat {R} r1 r2 s (k : str -> option R) :
  rmatch (Cat r1 r2) s k = rmatch r1 s (fun s1 => rmatch r2 s1 k).
Proof. reflexivity. Qed.

Lemma rmatch_class {R} p s (k : str -> option R) :
  rmatch (Class p) s k =
  match s with c :: s' => if p c then k s' else None | [] => None end.
Proof. reflexivity. Qed.

Lemma rmatch_plus {R} p s (k : str -> option R) :
  rmatch (Plus p) s k = match_plus p s k.
Proof. reflexivity. Qed.

Lemma pattern_unfold s :
  rmatch pattern s (@Some str) = rmatch (Opt (Class is_sign)) s k_digits.
Proof. reflexivity. Qed.

Lemma k_exponent_total s :
  exists rest, k_exponent s = Some rest /\
               (List.length rest <= List.length s)%nat.
Proof.
  unfold k_exponent.
  destruct (rmatch (Opt exponent_re) s (@Some str)) as [rest|] eqn:E.
  - exists rest. split; [reflexivity|]. eapply rmatch_some_length, E.
  - rewrite rmatch_opt in E.
    destruct (rmatch exponent_re s (@Some str)); discriminate.
Qed.

Lemma k_fraction_total s :
  exists rest, k_fraction s = Some rest /\
               (List.length rest <= List.length s)%nat.
Proof.
  unfold k_fraction.
  destruct (rmatch (Opt fraction_re) s k_exponent) as [rest|] eqn:E.
  - exists rest. split; [reflexivity|].
    apply rmatch_sound in E. destruct E as (t & rest' & -> & _ & Hk).
    destruct (k_exponent_total rest') as (r & Hr & Hlen).
    rewrite Hr in Hk. injection Hk as ->. rewrite length_app. lia.
  - rewrite rmatch_opt in E. destruct (k_exponent_total s) as (r & Hr & _).
    rewrite Hr in E.
    destruct (rmatch fraction_re s k_exponent); discriminate.
Qed.

Lemma e_not_digit e : e = ord "e" \/ e = ord "E" -> is_digit e = false.
Proof. intros [-> | ->]; reflexivity. Qed.

Lemma e_not_dot e : e = ord "e" \/ e = ord "E" -> is_dot e = false.
Proof. intros [-> | ->]; reflexivity. Qed.

Lemma e_is_e e : e = ord "e" \/ e = ord "E" -> is_e e = true.
Proof. intros [-> | ->]; reflexivity. Qed.

(** An optional sign and a run of digits in front of [w]: the matcher
    takes them all and goes on after the digits that start [w]. *)
Lemma sign_then_digits {R} (k : str -> option R) sg d w x :
  sign_opt sg -> digits1 ucd d ->
  k (drop_while is_digit w) = Some x ->
  rmatch (Opt (Class is_sign)) (sg ++ d ++ w)
         (fun s => match_plus is_digit s k) = Some x.
Proof.
  intros Hsg [Hne Hall] Hk.
  assert (Hrun : match_plus is_digit (d ++ w) k = Some x)
    by (apply match_plus_run; assumption).
  rewrite rmatch_opt, rmatch_class.
  destruct Hsg as [-> | [-> | ->]]; simpl app.
  - destruct (digits1_head d (conj Hne Hall)) as (c & d' & -> & Hc & _).
    simpl app in *. cbv iota. rewrite (digit_not_sign c Hc). assumption.
  - change (is_sign (ord "-")) with true. cbv iota. rewrite Hrun. reflexivity.
  - change (is_sign (ord "+")) with true. cbv iota. rewrite Hrun. reflexivity.
Qed.

Lemma exponent_longest ex post :
  exponent_opt ucd ex ->
  exists rest, k_exponent (ex ++ post) = Some rest /\
               (List.length rest <= List.length post)%nat.
Proof.
  intros [->|(e & sg & ed & -> & He & Hsg & Hed)].
  - apply k_exponent_total.
  - exists (drop_while is_digit post).
    split; [|apply drop_while_length].
    unfold k_exponent, exponent_re.
    rewrite rmatch_opt, rmatch_cat, rmatch_class.
    simpl app; cbv iota. rewrite (e_is_e e He), rmatch_cat.
    rewrite <- app_assoc.
    change (fun s1 : str => rmatch (Plus is_digit) s1 (@Some str))
      with (fun s : str => match_plus is_digit s (@Some str)).
    rewrite (sign_then_digits (@Some str) sg ed post
                              (drop_while is_digit post) Hsg Hed eq_refl).
    reflexivity.
Qed.

Lemma exponent_after_digits ex post :
  exponent_opt ucd ex ->
  exists rest, k_exponent (drop_while is_digit (ex ++ post)) = Some rest /\
               (List.length rest <= List.length post)%nat.
Proof.
  intros Hex. destruct Hex as [->|(e & sg & ed & -> & He & Hsg & Hed)] eqn:E.
  - simpl app. destruct (k_exponent_total (drop_while is_digit post))
      as (rest & Hr & Hlen).
    exists rest. split; [assumption|].
    pose proof (drop_while_length is_digit post). lia.
  - simpl app. rewrite drop_while_head by (apply e_not_digit, He).
    apply (exponent_longest (e :: sg ++ ed) post). assumption.
Qed.

Lemma fraction_longest fr ex post :
  fraction_opt ucd fr -> exponent_opt ucd ex ->
  exists rest, k_fraction (fr ++ ex ++ post) = Some rest /\
               (List.length rest <= List.length post)%nat.
Proof.
  intros [->|(fd & -> & [Hne Hall])] Hex.
  - simpl app. destruct Hex as [->|(e & sg & ed & -> & He & Hsg & Hed)] eqn:E.
    + apply k_fraction_total.
    + unfold k_fraction, fraction_re.
      rewrite rmatch_opt, rmatch_cat, rmatch_class.
      simpl app; cbv iota. rewrite (e_not_dot e He).
      apply (exponent_longest (e :: sg ++ ed) post). assumption.
  - destruct (exponent_after_digits ex post Hex) as (rest & Hr & Hlen).
    exists rest. split; [|assumption].
    unfold k_fraction, fraction_re.
    rewrite rmatch_opt, rmatch_cat, rmatch_class.
    simpl app; cbv iota. change (is_dot (ord ".")) with true. cbv iota.
    rewrite rmatch_plus.
    rewrite (match_plus_run is_digit k_exponent fd (ex ++ post) rest
                            Hne Hall Hr).
    reflexivity.
Qed.

Lemma fraction_after_digits fr ex post :
  fraction_opt ucd fr -> exponent_opt ucd ex ->
  exists rest, k_fraction (drop_while is_digit (fr ++ ex ++ post)) = Some rest /\
               (List.length rest <= List.length post)%nat.
Proof.
  intros Hfr Hex.
  destruct Hfr as [->|(fd & -> & Hfd)] eqn:Efr.
  - destruct Hex as [->|(e & sg & ed & -> & He & Hsg & Hed)] eqn:Eex.
    + simpl app. destruct (k_fraction_total (drop_while is_digit post))
        as (rest & Hr & Hlen).
      exists rest. split; [assumption|].
      pose proof (drop_while_length is_digit post). lia.
    + simpl app. rewrite drop_while_head by (apply e_not_digit, He).
      apply (fraction_longest [] (e :: sg ++ ed) post); assumption.
  - simpl app. rewrite drop_while_head by reflexivity.
    apply (fraction_longest (ord "." :: fd) ex post); assumption.
Qed.

(** Where a number starts, the matcher finds a match at least as long. *)
Lemma pattern_longest t post :
  number ucd t ->
  exists rest, rmatch pattern (t ++ post) (@Some str) = Some rest /\
               (List.length rest <= List.length post)%nat.
Proof.
  intros (sg & ip & fr & ex & -> & Hsg & Hip & Hfr & Hex).
  destruct (fraction_after_digits fr ex post Hfr Hex) as (rest & Hr & Hlen).
  exists rest. split; [|assumption].
  rewrite pattern_unfold. unfold k_digits.
  rewrite <- !app_assoc.
  apply sign_then_digits; assumption.
Qed.

(** *** [float] converts every number to the float nearest to it *)

Lemma index_of_digit c :
  index_of c (lit "0123456789") =
  if ((48 <=? c) && (c <=? 57))%N then Some (c - 48)%N else None.
Proof.
  change (lit "0123456789")
    with [48; 49; 50; 51; 52; 53; 54; 55; 56; 57]%N.
  cbn [index_of].
  repeat match goal with
         | |- context [(c =? ?k)%N] =>
             destruct (N.eqb_spec c k) as [->|]; [reflexivity|]
         end.
  destruct (N.leb_spec 48 c); [|reflexivity].
  destruct (N.leb_spec c 57); [lia|reflexivity].
Qed.

(** The digit that [float] and [\d] read in a character is the one the
    character stands for. *)
Lemma digit_value_denoted c dv :
  digit_value ucd c = Some dv -> Z.of_N dv = denoted_digit ucd c.
Proof.
  unfold digit_value, denoted_digit. rewrite index_of_digit.
  destruct ((48 <=? c) && (c <=? 57))%N.
  - intros H. injection H as <-. reflexivity.
  - destruct (c <? 128)%N; [discriminate|]. intros ->. reflexivity.
Qed.

Lemma digits_run d :
  forall acc count w,
    forallb is_digit d = true ->
    match w with c :: _ => is_digit c = false | [] => True end ->
    exists v,
      digits ucd acc count (d ++ w) = (v, (count + List.length d)%nat, w) /\
      Z.of_N v =
      (Z.of_N acc * 10 ^ Z.of_nat (List.length d) + numeral ucd d)%Z.
Proof.
  induction d as [|c d IH]; intros acc count w Hall Hw.
  - exists acc. rewrite Nat.add_0_r. simpl app. split.
    + destruct w as [|c w]; [reflexivity|].
      simpl. unfold Protocol.is_digit in Hw.
      destruct (digit_value ucd c); [discriminate|reflexivity].
    + cbn. lia.
  - simpl in Hall. apply andb_true_iff in Hall. destruct Hall as [Hc Hd].
    simpl app. cbn [digits]. unfold Protocol.is_digit in Hc.
    destruct (digit_value ucd c) as [dv|] eqn:Edv; [|discriminate].
    destruct (IH (acc * 10 + dv)%N (S count) w Hd Hw) as (v & Hv & Hval).
    exists v. split.
    + rewrite Hv. f_equal. f_equal. cbn [List.length]. lia.
    + rewrite Hval. cbn [numeral List.length].
      rewrite <- (digit_value_denoted c dv Edv).
      rewrite Nat2Z.inj_succ, Z.pow_succ_r by lia.
      rewrite N2Z.inj_add, N2Z.inj_mul. change (Z.of_N 10) with 10%Z. ring.
Qed.

Lemma split_sign_number sg d w :
  sign_opt sg -> digits1 ucd d ->
  split_sign (sg ++ d ++ w) = ((sign_of sg =? -1)%Z, d ++ w).
Proof.
  intros [-> | [-> | ->]] Hd.
  - destruct (digits1_head d Hd) as (c & d' & -> & Hc & _).
    apply digit_not_sign in Hc.
    unfold is_sign in Hc. apply orb_false_iff in Hc. destruct Hc as [H1 H2].
    unfold split_sign. simpl app. cbv iota. rewrite H1, H2. reflexivity.
  - reflexivity.
  - reflexivity.
Qed.

Lemma pow10_pos (n : Z) : (0 <= n)%Z -> ~ inject_Z (10 ^ n) == 0.
Proof.
  intros Hn Hzero.
  assert (Hpos : (0 < 10 ^ n)%Z) by (apply Z.pow_pos_nonneg; lia).
  unfold Qeq in Hzero. cbn in Hzero. lia.
Qed.

(** [pow10] is the power of ten. *)
Lemma pow10_power (e : Z) : pow10 e == Qpower 10 e.
Proof.
  unfold pow10. destruct (Z.ltb_spec e 0) as [Hneg|Hpos].
  - replace e with (- (- e))%Z at 2 by lia.
    rewrite Qpower_opp.
    change 10 with (inject_Z 10).
    rewrite <- Zpower_Qpower by lia.
    assert (Hp : (0 < 10 ^ (- e))%Z) by (apply Z.pow_pos_nonneg; lia).
    destruct (10 ^ (- e))%Z as [|q|q] eqn:E; try lia.
    reflexivity.
  - change 10 with (inject_Z 10). apply Zpower_Qpower. assumption.
Qed.

Lemma ten_nonzero : ~ 10 == 0.
Proof. intros H. unfold Qeq in H. cbn in H. lia. Qed.

(** The mantissa with the digits of the fraction, at the exponent
    lowered by their number, is the number with its fraction. *)
Lemma mantissa_value (ip fd : Z) (n : nat) (p : Z) :
  inject_Z (ip * 10 ^ Z.of_nat n + fd) * pow10 (p - Z.of_nat n) ==
  (inject_Z ip + inject_Z fd / inject_Z (10 ^ Z.of_nat n)) * Qpower 10 p.
Proof.
  rewrite pow10_power.
  replace (p - Z.of_nat n)%Z with (p + - Z.of_nat n)%Z by lia.
  rewrite Qpower_plus by apply ten_nonzero.
  rewrite Qpower_opp.
  change 10 with (inject_Z 10) at 2.
  rewrite <- Zpower_Qpower by lia.
  rewrite inject_Z_plus, inject_Z_mult.
  field. apply pow10_pos. lia.
Qed.

Lemma float_value t x :
  number_value ucd t x -> float ucd t = Some (Float.round x).
Proof.
  intros (sg & ip & fr & ex & f & p & -> & Hsg & Hip & Hfr & Hex & Hx).
  unfold float.
  rewrite (split_sign_number sg ip (fr ++ ex) Hsg Hip).
  assert (Hstop' : match ex with
                   | c :: _ => is_digit c = false
                   | [] => True
                   end).
  { destruct Hex as [[-> _]|(e' & sg' & ed & -> & He & _)]; [exact I|].
    apply e_not_digit, He. }
  assert (Hstop : match fr ++ ex with
                  | c :: _ => is_digit c = false
                  | [] => True
                  end).
  { destruct Hfr as [[-> _]|(fd & -> & _)]; [exact Hstop'|reflexivity]. }
  destruct (digits_run ip 0%N 0%nat (fr ++ ex) (proj2 Hip) Hstop)
    as (v & -> & Hv).
  cbn [N.mul Z.of_N Z.mul Z.add] in Hv.
  assert (Hint : (0 + List.length ip)%nat <> 0%nat).
  { destruct Hip as [Hne _]. destruct ip; [congruence|simpl; lia]. }
  assert (Hexp : exponent_part ucd ex = Some (p, [])).
  { unfold exponent_part.
    destruct Hex as [[-> ->]|(e & sg' & ed & -> & He & Hsg' & Hed & ->)].
    - reflexivity.
    - rewrite (e_is_e e He).
      pose proof (split_sign_number sg' ed [] Hsg' Hed) as Hs.
      rewrite app_nil_r in Hs. rewrite Hs.
      destruct (digits_run ed 0%N 0%nat [] (proj2 Hed) I) as (ev & Hev & Hval).
      rewrite app_nil_r in Hev. rewrite Hev.
      cbn [N.mul Z.of_N Z.mul Z.add] in Hval.
      destruct Hed as [Hne _].
      destruct ed as [|c ed]; [congruence|]. cbn [List.length Nat.add Nat.eqb].
      rewrite Hval. f_equal. f_equal.
      destruct Hsg' as [-> | [-> | ->]].
      + change (sign_of []) with 1%Z. cbn [Z.eqb]. lia.
      + change (sign_of [ord "-"]) with (-1)%Z. cbn [Z.eqb Pos.eqb]. lia.
      + change (sign_of [ord "+"]) with 1%Z. cbn [Z.eqb]. lia. }
  assert (Hfrac : exists m n,
             fraction_part ucd v (fr ++ ex) = (m, n, ex) /\
             inject_Z (Z.of_N m) * pow10 (p - Z.of_nat n) ==
             (inject_Z (numeral ucd ip) + f) * Qpower 10 p).
  { unfold fraction_part. destruct Hfr as [[-> Hf]|(fd & -> & Hfd & Hf)].
    - exists v, 0%nat. simpl app. split.
      + destruct Hex as [[-> _]|(e' & sg' & ed & -> & He & _)]; [reflexivity|].
        rewrite (e_not_dot e' He). reflexivity.
      + rewrite Hf, Hv. rewrite Z.sub_0_r, pow10_power. ring.
    - simpl app. change (is_dot (ord ".")) with true. cbv iota.
      destruct (digits_run fd v 0%nat ex (proj2 Hfd) Hstop')
        as (m & -> & Hm).
      exists m, (0 + List.length fd)%nat. split; [reflexivity|].
      rewrite Hf, Hm, Hv. cbn [Nat.add]. apply mantissa_value. }
  destruct Hfrac as (m & n & -> & Hval).
  destruct (0 + List.length ip + n =? 0)%nat eqn:E;
    [apply Nat.eqb_eq in E; lia|].
  rewrite Hexp. f_equal. apply FloatFacts.round_eq.
  rewrite Hx.
  destruct Hsg as [-> | [-> | ->]].
  - change (sign_of []) with 1%Z. cbn [Z.eqb]. rewrite Hval. ring.
  - change (sign_of [ord "-"]) with (-1)%Z. cbn [Z.eqb Pos.eqb].
    rewrite Hval. ring.
  - change (sign_of [ord "+"]) with 1%Z. cbn [Z.eqb]. rewrite Hval. ring.
Qed.

(** Every number denotes a value, and what denotes a value is a number. *)
Lemma number_has_value t : number ucd t -> exists x, number_value ucd t x.
Proof.
  intros (sg & ip & fr & ex & -> & Hsg & Hip & Hfr & Hex).
  assert (Hf : exists f, fraction_value ucd fr f).
  { destruct Hfr as [->|(fd & -> & Hfd)].
    - exists 0. left. split; reflexivity.
    - eexists. right. exists fd. split; [reflexivity|].
      split; [exact Hfd|reflexivity]. }
  assert (Hp : exists p, exponent_value ucd ex p).
  { destruct Hex as [->|(e & sg' & ed & -> & He & Hsg' & Hed)].
    - exists 0%Z. left. split; reflexivity.
    - eexists. right. exists e, sg', ed. repeat split; eauto; apply Hed. }
  destruct Hf as (f & Hf). destruct Hp as (p & Hp).
  eexists. exists sg, ip, fr, ex, f, p.
  repeat split; eauto; try apply Hip.
Qed.

Lemma number_value_number t x : number_value ucd t x -> number ucd t.
Proof.
  intros (sg & ip & fr & ex & f & p & -> & Hsg & Hip & Hfr & Hex & _).
  exists sg, ip, fr, ex. repeat split; try assumption; try apply Hip.
  - destruct Hfr as [[-> _]|(fd & -> & Hfd & _)]; [left; reflexivity|].
    right. exists fd. auto.
  - destruct Hex as [[-> _]|(e & sg' & ed & -> & He & Hsg' & Hed & _)];
      [left; reflexivity|].
    right. exists e, sg', ed. auto.
Qed.

Lemma float_number t : number ucd t -> exists v, float ucd t = Some v.
Proof.
  intros H. destruct (number_has_value t H) as (x & Hx).
  exists (Float.round x). apply float_value, Hx.
Qed.

End Pattern.

Lemma app_eq_same_length {A} (a a' b b' : list A) :
  a ++ b = a' ++ b' -> List.length a = List.length a' -> a = a' /\ b = b'.
Proof.
  revert a'. induction a as [|x a IH]; intros [|x' a'] H Hlen;
    try discriminate.
  - auto.
  - injection H as -> H. injection Hlen as Hlen.
    destruct (IH a' H Hlen) as [-> ->]. auto.
Qed.

Lemma number_nonempty ucd t : number ucd t -> t <> [].
Proof.
  intros (sg & ip & fr & ex & -> & _ & [Hne _] & _) H.
  apply app_eq_nil in H. destruct H as [_ H].
  apply app_eq_nil in H. destruct H as [H _]. contradiction.
Qed.

(** What [search] returns on the pattern of a number. *)
Lemma search_number ucd text m :
  search (pattern ucd) text = Some m ->
  number ucd (group0 m) /\ occurs_at (group0 m) text (start m) /\
  forall tok j,
    number ucd tok -> occurs_at tok text j ->
    (start m <= j)%nat /\
    (j = start m -> (List.length tok <= List.length (group0 m))%nat).
Proof.
  intros H. apply search_from_sound in H.
  destruct H as (pre & post & Htext & Hstart & Hm & Hr & Hleft).
  simpl in Hstart. split; [apply number_matches; assumption|].
  split; [exists pre, post; auto|].
  intros tok j Htok (pre' & post' & Htext' & Hj).
  split.
  - rewrite Hstart, <- Hj.
    apply (Hleft pre' tok post' Htext'). apply number_matches. assumption.
  - intros Hji. rewrite Htext in Htext'.
    destruct (app_eq_same_length _ _ _ _ Htext') as [_ Hsame]; [lia|].
    destruct (pattern_longest ucd tok post' Htok) as (rest & Hrest & Hlen).
    rewrite <- Hsame, Hr in Hrest. injection Hrest as <-.
    apply (f_equal (@List.length _)) in Hsame.
    rewrite !length_app in Hsame. lia.
Qed.

Lemma search_no_number ucd text :
  search (pattern ucd) text = None ->
  ~ exists tok i, number ucd tok /\ occurs_at tok text i.
Proof.
  intros H (tok & i & Htok & pre & post & Htext & _).
  apply (search_from_none _ _ _ H pre tok post Htext).
  apply number_matches. assumption.
Qed.

(** C3.  [parse_temperature] returns the value of the first number in the
    trimmed reply: of the number that starts leftmost, and of the longest
    one that starts there; the value is the float nearest to what the
    number denotes, an infinity when that is out of range.  It fails, with
    a [ValueError], exactly when the trimmed reply holds no number, which is
    the case of the empty reply.  The four replies of the specification give
    23.456, -1.25 and two failures; [None] in place of a reply fails as the
    empty reply does. *)
Theorem parse_temperature_first_number (ucd : unicode_db) (response : str) :
  let text := strip response in
  (forall v,
      parse_temperature ucd (Some response) = Ok v ->
      exists tok i x,
        number_value ucd tok x /\ occurs_at tok text i /\
        v = Float.round x /\
        forall tok' j,
          number ucd tok' -> occurs_at tok' text j ->
          (i <= j)%nat /\
          (j = i -> (List.length tok' <= List.length tok)%nat)) /\
  ((exists e, parse_temperature ucd (Some response) = Raise e) <->
   ~ exists tok i, number ucd tok /\ occurs_at tok text i) /\
  (forall e,
      parse_temperature ucd (Some response) = Raise e ->
      (text = [] /\ e = ValueError "Empty response") \/
      (text <> [] /\
       e = ValueErrorRepr "No numeric value in response: " response)) /\
  parse_temperature ucd (Some (lit "+23.456000 K")) =
  Ok (Float.round 23.456) /\
  parse_temperature ucd (Some (lit "T=-12.5e-1")) =
  Ok (Float.round (-1.25)) /\
  Float.round 23.456 =
  Float.Finite (6602277053725147 # 281474976710656) /\
  Float.round (-1.25) = Float.Finite (-5 # 4) /\
  parse_temperature ucd (Some (lit "300.00000000000000001")) =
  Ok (Float.Finite 300) /\
  parse_temperature ucd (Some (lit "1e400")) = Ok Float.PosInf /\
  parse_temperature ucd (Some (lit "")) = Raise (ValueError "Empty response") /\
  parse_temperature ucd (Some (lit "no numbers here")) =
  Raise (ValueErrorRepr "No numeric value in response: "
                        (lit "no numbers here")) /\
  parse_temperature ucd None = Raise (ValueError "Empty response").
Proof.
  intros text. unfold parse_temperature. fold text.
  assert (Hcases :
            (text = [] /\
             forall tok i, number ucd tok -> ~ occurs_at tok text i) \/
            (text <> [] /\ search (pattern ucd) text = None) \/
            (text <> [] /\ exists m x,
                search (pattern ucd) text = Some m /\
                number_value ucd (group0 m) x /\
                float ucd (group0 m) = Some (Float.round x))).
  { destruct text as [|c text'] eqn:E.
    - left. split; [reflexivity|].
      intros tok i Htok (pre & post & Heq & _).
      symmetry in Heq. apply app_eq_nil in Heq. destruct Heq as [_ Heq].
      apply app_eq_nil in Heq. destruct Heq as [Heq _].
      apply (number_nonempty ucd tok Htok Heq).
    - right. destruct (search (pattern ucd) (c :: text')) as [m|] eqn:Es.
      + right. split; [discriminate|].
        destruct (search_number ucd _ m Es) as (Hnum & _).
        destruct (number_has_value ucd _ Hnum) as (x & Hx).
        exists m, x. split; [reflexivity|]. split; [exact Hx|].
        apply float_value, Hx.
      + left. split; [discriminate|reflexivity]. }
  split; [|split; [|split]].
  - intros v Hv.
    destruct Hcases as [[-> _]|[[Hne Hs]|(Hne & m & x & Hs & Hx & Hf)]].
    + discriminate.
    + destruct text; [congruence|]. rewrite Hs in Hv. discriminate.
    + destruct (search_number ucd _ m Hs) as (Hnum & Hocc & Hfirst).
      destruct text; [congruence|]. rewrite Hs, Hf in Hv. injection Hv as <-.
      exists (group0 m), (start m), x. auto.
  - split.
    + intros [e He] (tok & i & Htok & Hocc).
      destruct Hcases as [[_ Hno]|[[Hne Hs]|(Hne & m & x & Hs & Hx & Hf)]].
      * apply (Hno tok i Htok Hocc).
      * apply (search_no_number ucd text Hs). eauto.
      * destruct text; [congruence|]. rewrite Hs, Hf in He. discriminate.
    + intros Hno.
      destruct Hcases as [[-> _]|[[Hne Hs]|(Hne & m & x & Hs & Hx & Hf)]].
      * eauto.
      * destruct text; [congruence|]. rewrite Hs. eauto.
      * exfalso. apply Hno.
        destruct (search_number ucd _ m Hs) as (Hnum & Hocc & _). eauto.
  - intros e He.
    destruct Hcases as [[Ht _]|[[Hne Hs]|(Hne & m & x & Hs & Hx & Hf)]].
    + left. rewrite Ht in He. injection He as <-. auto.
    + right. destruct text; [congruence|]. rewrite Hs in He.
      injection He as <-. split; [discriminate|reflexivity].
    + destruct text; [congruence|]. rewrite Hs, Hf in He. discriminate.
  - repeat split; vm_compute; reflexivity.
Qed.

End ProtocolProofs.

(** ** Facts on [strip] *)

Module StripFacts.

Lemma lstrip_drop_while s : lstrip s = drop_while isspace s.
Proof.
  induction s as [|c s IH]; [reflexivity|].
  simpl. rewrite IH. reflexivity.
Qed.

Lemma lstrip_head s :
  match lstrip s with c :: _ => isspace c = false | [] => True end.
Proof.
  induction s as [|c s IH]; [exact I|].
  simpl. destruct (isspace c) eqn:E; assumption.
Qed.

Lemma lstrip_fixed s :
  match s with c :: _ => isspace c = false | [] => True end -> lstrip s = s.
Proof. destruct s as [|c s]; [reflexivity|]. simpl. intros ->. reflexivity. Qed.

Lemma lstrip_spaces w : forallb isspace w = true -> lstrip w = [].
Proof.
  induction w as [|c w IH]; [reflexivity|].
  simpl. intros H. apply andb_true_iff in H. destruct H as [-> H]. auto.
Qed.

Lemma lstrip_app_spaces w s : forallb isspace w = true -> lstrip (w ++ s) = lstrip s.
Proof.
  induction w as [|c w IH]; [reflexivity|].
  simpl. intros H. apply andb_true_iff in H. destruct H as [-> H]. auto.
Qed.

(** Either [s] is blank, or stripping its left leaves what follows it
    alone. *)
Lemma lstrip_app s w :
  (lstrip s = [] /\ forallb isspace s = true) \/
  (lstrip s <> [] /\ lstrip (s ++ w) = lstrip s ++ w).
Proof.
  induction s as [|c s IH].
  - left. auto.
  - simpl. destruct (isspace c) eqn:E.
    + destruct IH as [[H1 H2]|[H1 H2]]; [left|right]; auto.
    + right. split; [discriminate|reflexivity].
Qed.

Lemma rstrip_app_spaces s w :
  forallb isspace w = true -> rstrip (s ++ w) = rstrip s.
Proof.
  intros Hw. unfold rstrip. rewrite rev_app_distr.
  rewrite lstrip_app_spaces; [reflexivity|].
  rewrite forallb_forall in *. intros x Hx. apply Hw, in_rev, Hx.
Qed.

(** Blanks at the end do not change what [strip] returns. *)
Lemma strip_app_spaces s w :
  forallb isspace w = true -> strip (s ++ w) = strip s.
Proof.
  intros Hw. unfold strip.
  destruct (lstrip_app s w) as [[H1 H2]|[H1 H2]].
  - rewrite H1. rewrite lstrip_spaces; [reflexivity|].
    rewrite forallb_app, H2, Hw. reflexivity.
  - rewrite H2. apply rstrip_app_spaces. assumption.
Qed.

Lemma rstrip_keeps_head u :
  match u with c :: _ => isspace c = false | [] => True end ->
  match rstrip u with c :: _ => isspace c = false | [] => True end.
Proof.
  destruct u as [|c u]; [intros _; exact I|]. intros Hc.
  unfold rstrip. simpl rev.
  destruct (lstrip_app (rev u) [c]) as [[H1 H2]|[H1 H2]].
  - rewrite lstrip_app_spaces by assumption. simpl. rewrite Hc. simpl.
    assumption.
  - rewrite H2, rev_app_distr. simpl. assumption.
Qed.

Lemma strip_trimmed s : trimmed (strip s).
Proof.
  split.
  - apply rstrip_keeps_head, lstrip_head.
  - unfold strip, rstrip. rewrite rev_involutive. apply lstrip_head.
Qed.

Lemma strip_fixed r : trimmed r -> strip r = r.
Proof.
  intros [Hh Ht]. unfold strip, rstrip.
  rewrite (lstrip_fixed r Hh), (lstrip_fixed (rev r) Ht).
  apply rev_involutive.
Qed.

End StripFacts.

(** ** comms.py *)

Module CommsProofs.
Import Comms StripFacts.

Lemma is_prefix_app p s :
  Settings.is_prefix p s = true -> exists z, s = p ++ z.
Proof.
  revert s. induction p as [|a p IH]; intros s H.
  - exists s. reflexivity.
  - destruct s as [|b s]; [discriminate|]. simpl in H.
    apply andb_true_iff in H. destruct H as [Hab H].
    apply N.eqb_eq in Hab. subst b.
    destruct (IH s H) as (z & ->). exists z. reflexivity.
Qed.

Lemma remove_trailing_app terminator reply :
  ends_with terminator reply = true ->
  reply = remove_trailing terminator reply ++ terminator.
Proof.
  intros H. unfold remove_trailing. rewrite H.
  unfold ends_with in H. apply is_prefix_app in H. destruct H as (z & Hz).
  apply (f_equal (@rev _)) in Hz. rewrite rev_involutive, rev_app_distr,
    rev_involutive in Hz. subst reply.
  rewrite length_app, Nat.add_sub, firstn_app, Nat.sub_diag, firstn_all.
  simpl. rewrite app_nil_r. reflexivity.
Qed.

(** A terminator made of blanks is gone from the stripped reply. *)
Lemma strip_spec_trim terminator reply :
  forallb isspace terminator = true ->
  strip reply = spec_trim terminator reply.
Proof.
  intros Hw. unfold spec_trim.
  destruct (ends_with terminator reply) eqn:E.
  - rewrite (remove_trailing_app terminator reply E) at 1.
    apply strip_app_spaces. assumption.
  - unfold remove_trailing. rewrite E. reflexivity.
Qed.

(** *** The loop of [read_until] *)

Lemma bytes_eqb_eq x : forall y, bytes_eqb x y = true <-> x = y.
Proof.
  induction x as [|a x IH]; intros [|b y]; simpl; split; intros H;
    try reflexivity; try discriminate.
  - apply andb_true_iff in H. destruct H as [Hab H].
    apply Ascii.eqb_eq in Hab. apply IH in H. congruence.
  - injection H as -> ->. rewrite Ascii.eqb_refl. simpl. apply IH.
    reflexivity.
Qed.

(** The test of the loop, on a line that holds a byte already. *)
Lemma line_test expected line :
  line <> [] ->
  bytes_eqb (slice_from (- Z.of_nat (List.length expected)) line) expected
  = true <-> line_complete expected line.
Proof.
  intros Hline. rewrite bytes_eqb_eq. unfold line_complete.
  destruct expected as [|b expected].
  - change (- Z.of_nat (List.length (@nil ascii)))%Z with (- 0)%Z.
    rewrite HistoryProofs.slice_from_zero. split.
    + intros H. contradiction.
    + intros [H _]. congruence.
  - rewrite HistoryProofs.slice_from_neg by (cbn [List.length]; lia).
    rewrite Nat2Z.id. unfold MainWindow.last_n. split.
    + intros H. split; [discriminate|].
      exists (firstn (List.length line - List.length (b :: expected)) line).
      pose proof (firstn_skipn
                    (List.length line - List.length (b :: expected)) line)
        as Hsplit.
      rewrite H in Hsplit. symmetry. exact Hsplit.
    + intros [_ (pre & ->)]. rewrite length_app, Nat.add_sub.
      rewrite skipn_app, skipn_all, Nat.sub_diag. reflexivity.
Qed.

(** What the loop returns: the bytes it took make the line complete and
    no fewer do, or it took all there were. *)
Lemma read_loop_reply expected :
  forall pending line line' rest,
    Serial.read_loop expected line pending = (line', rest) ->
    exists taken,
      line' = line ++ taken /\ pending = taken ++ rest /\
      (forall pre post,
          taken = pre ++ post -> pre <> [] -> post <> [] ->
          ~ line_complete expected (line ++ pre)) /\
      ((taken <> [] /\ line_complete expected line') \/ rest = []).
Proof.
  induction pending as [|c pending IH]; intros line line' rest H;
    cbn [Serial.read_loop] in H.
  - injection H as <- <-. exists []. rewrite app_nil_r.
    repeat split; auto.
    intros pre post Heq Hpre. destruct pre; [congruence|discriminate].
  - destruct (bytes_eqb _ expected) eqn:E.
    + injection H as <- <-. exists [c]. repeat split.
      * intros pre post Heq Hpre Hpost.
        destruct pre as [|x pre]; [congruence|].
        destruct pre; [|destruct pre; discriminate].
        destruct post; [congruence|discriminate].
      * left. split; [discriminate|].
        apply line_test; [destruct line; discriminate|exact E].
    + apply IH in H. destruct H as (taken & -> & -> & Hmin & Hend).
      exists (c :: taken). rewrite <- app_assoc. repeat split.
      * intros pre post Heq Hpre Hpost.
        destruct pre as [|x pre]; [congruence|].
        injection Heq as <- Heq.
        destruct pre as [|y pre].
        -- intros Hc. apply line_test in Hc; [congruence|].
           destruct line; discriminate.
        -- change (line ++ c :: y :: pre) with (line ++ [c] ++ y :: pre).
           rewrite app_assoc. apply (Hmin (y :: pre) post Heq);
             [discriminate|assumption].
      * destruct Hend as [[_ Hc]| ->]; [left|right; reflexivity].
        rewrite <- app_assoc in Hc. split; [discriminate|exact Hc].
Qed.

Lemma read_loop_serial_reply expected incoming :
  serial_reply expected incoming
               (fst (Serial.read_loop expected [] incoming)).
Proof.
  destruct (Serial.read_loop expected [] incoming) as [line rest] eqn:E.
  apply read_loop_reply in E. destruct E as (taken & -> & -> & Hmin & Hend).
  cbn [fst app]. exists rest. split; [reflexivity|]. split; [exact Hmin|].
  destruct Hend as [[_ Hc]| ->]; auto.
Qed.

(** Only one beginning of what arrives is the reply. *)
Lemma serial_reply_unique expected incoming data data' :
  serial_reply expected incoming data ->
  serial_reply expected incoming data' -> data' = data.
Proof.
  assert (Hshorter : forall a b,
             serial_reply expected incoming a ->
             serial_reply expected incoming b ->
             (List.length a < List.length b)%nat -> False).
  { intros a b (ra & Ha & _ & Hea) (rb & Hb & Hminb & _) Hlen.
    assert (Hsplit : exists post, b = a ++ post /\ post <> []).
    { rewrite Ha in Hb.
      exists (firstn (List.length b - List.length a) ra).
      assert (Hb' : b = firstn (List.length b) (a ++ ra))
        by (rewrite Hb, firstn_app, firstn_all, Nat.sub_diag; cbn;
            rewrite app_nil_r; reflexivity).
      rewrite firstn_app in Hb'.
      rewrite firstn_all2 in Hb' by lia. split; [exact Hb'|].
      intros Hnil. rewrite Hnil, app_nil_r in Hb'.
      rewrite Hb' in Hlen at 1. lia. }
    destruct Hsplit as (post & Hpost & Hne).
    destruct a as [|x a].
    - destruct Hea as [[Hexp (pre & Hpre)]|Hra].
      + symmetry in Hpre. apply app_eq_nil in Hpre. destruct Hpre as [_ Hpre].
        contradiction.
      + subst ra. cbn in Ha. subst incoming.
        symmetry in Hb. apply app_eq_nil in Hb. destruct Hb as [-> _].
        cbn in Hlen. lia.
    - destruct Hea as [Hc|Hra].
      + apply (Hminb (x :: a) post Hpost); [discriminate|assumption|exact Hc].
      + subst ra. rewrite app_nil_r in Ha. subst incoming.
        apply (f_equal (@List.length _)) in Hb. rewrite length_app in Hb.
        lia. }
  intros H H'.
  destruct (Nat.lt_trichotomy (List.length data) (List.length data'))
    as [Hlt|[Heq|Hgt]].
  - exfalso. apply (Hshorter data data' H H' Hlt).
  - destruct H as (r & Hr & _), H' as (r' & Hr' & _).
    rewrite Hr in Hr'.
    destruct (ProtocolProofs.app_eq_same_length _ _ _ _ Hr' Heq) as [-> _].
    reflexivity.
  - exfalso. apply (Hshorter data' data H' H Hgt).
Qed.

(** *** The loop of [_recv_until] *)

Lemma startswith_prefix p : forall d,
  startswith p d = true <-> exists post, d = p ++ post.
Proof.
  induction p as [|a p IH]; intros d.
  - split; [intros _; exists d; reflexivity|reflexivity].
  - destruct d as [|b d]; cbn [startswith].
    + split; [discriminate|]. intros (post & H). discriminate.
    + rewrite andb_true_iff, Ascii.eqb_eq, IH. split.
      * intros (-> & post & ->). exists post. reflexivity.
      * intros (post & H). injection H as -> ->. eauto.
Qed.

(** [term_bytes in data] *)
Lemma contains_complete term_bytes : forall data,
  contains term_bytes data = true <-> buffer_complete term_bytes data.
Proof.
  unfold buffer_complete.
  induction data as [|b data IH]; cbn [contains].
  - rewrite orb_false_r, startswith_prefix. split.
    + intros (post & H). exists [], post. exact H.
    + intros (pre & post & H). destruct pre; [|discriminate].
      exists post. exact H.
  - rewrite orb_true_iff, startswith_prefix, IH. split.
    + intros [(post & H)|(pre & post & H)].
      * exists [], post. exact H.
      * exists (b :: pre), post. rewrite H. reflexivity.
    + intros (pre & post & H). destruct pre as [|x pre].
      * left. exists post. exact H.
      * right. injection H as _ H. eauto.
Qed.

Lemma recv_loop_reply term_bytes :
  forall incoming data data' rest,
    recv_loop term_bytes data incoming = (Ok data', rest) ->
    exists chunks last,
      incoming = map Socket.Chunk chunks ++ Socket.Chunk last :: rest /\
      Forall (fun chunk => chunk <> []) chunks /\
      (forall n, (1 <= n <= List.length chunks)%nat ->
                 ~ buffer_complete term_bytes
                     (data ++ List.concat (firstn n chunks))) /\
      data' = data ++ List.concat chunks ++ last /\
      (last = [] \/ buffer_complete term_bytes data').
Proof.
  induction incoming as [|o incoming IH]; intros data data' rest H;
    cbn [recv_loop] in H; [discriminate|].
  destruct o as [chunk|e]; [|discriminate].
  destruct chunk as [|b chunk].
  - injection H as <- <-. exists [], []. cbn. rewrite app_nil_r.
    repeat split; auto. intros n Hn. lia.
  - destruct (contains term_bytes (data ++ b :: chunk)) eqn:E.
    + injection H as <- <-. exists [], (b :: chunk). cbn.
      repeat split; auto; [intros n Hn; lia|].
      right. apply contains_complete. exact E.
    + apply IH in H.
      destruct H as (chunks & last & -> & Hne & Hmin & -> & Hend).
      exists ((b :: chunk) :: chunks), last. repeat split.
      * constructor; [discriminate|exact Hne].
      * intros n Hn. destruct n as [|n]; [lia|].
        cbn [firstn List.concat]. destruct n as [|n].
        -- cbn [firstn List.concat]. rewrite app_nil_r.
           intros Hc. apply contains_complete in Hc. congruence.
        -- rewrite app_assoc. apply Hmin. cbn [List.length] in Hn. lia.
      * cbn [List.concat]. rewrite <- !app_assoc. reflexivity.
      * destruct Hend as [-> |Hc]; [left; reflexivity|right].
        cbn [List.concat]. rewrite <- !app_assoc in *. exact Hc.
Qed.

Lemma map_chunk_split chunks last rest chunks' last' rest' :
  map Socket.Chunk chunks ++ Socket.Chunk last :: rest =
  map Socket.Chunk chunks' ++ Socket.Chunk last' :: rest' ->
  (List.length chunks < List.length chunks')%nat ->
  firstn (S (List.length chunks)) chunks' = chunks ++ [last].
Proof.
  revert chunks'. induction chunks as [|c chunks IH]; intros chunks' H Hlen.
  - destruct chunks' as [|c' chunks']; [cbn in Hlen; lia|].
    cbn in H. injection H as -> _. reflexivity.
  - destruct chunks' as [|c' chunks']; [cbn in Hlen; lia|].
    cbn in H. injection H as -> H. cbn [List.length] in Hlen.
    cbn [List.length firstn app]. f_equal. apply IH; [exact H|lia].
Qed.

(** Only one run of chunks is the reply. *)
Lemma network_reply_unique term_bytes incoming data data' :
  network_reply term_bytes incoming data ->
  network_reply term_bytes incoming data' -> data' = data.
Proof.
  assert (Hshorter : forall a b ca la ra cb lb rb,
             incoming = map Socket.Chunk ca ++ Socket.Chunk la :: ra ->
             a = List.concat ca ++ la ->
             (la = [] \/ buffer_complete term_bytes a) ->
             incoming = map Socket.Chunk cb ++ Socket.Chunk lb :: rb ->
             Forall (fun chunk => chunk <> []) cb ->
             (forall n, (1 <= n <= List.length cb)%nat ->
                        ~ buffer_complete term_bytes
                            (List.concat (firstn n cb))) ->
             b = List.concat cb ++ lb ->
             (List.length ca < List.length cb)%nat -> False).
  { intros a b ca la ra cb lb rb Ha Hva Hea Hb Hne Hmin Hvb Hlen.
    rewrite Ha in Hb.
    pose proof (map_chunk_split ca la ra cb lb rb Hb Hlen) as Hfirst.
    destruct Hea as [-> |Hc].
    - rewrite Forall_forall in Hne. apply (Hne []); [|reflexivity].
      assert (Hin : In [] (firstn (S (List.length ca)) cb))
        by (rewrite Hfirst; apply in_or_app; right; left; reflexivity).
      clear - Hin. revert Hin. generalize (S (List.length ca)).
      induction cb as [|c cb IH]; intros n Hin.
      + destruct n; destruct Hin.
      + destruct n; [destruct Hin|]. destruct Hin as [-> |Hin];
          [left; reflexivity|right; eapply IH; exact Hin].
    - apply (Hmin (S (List.length ca))); [lia|].
      rewrite Hfirst, concat_app. cbn [List.concat]. rewrite app_nil_r.
      rewrite <- Hva. exact Hc. }
  intros (c & l & r & Hi & Hne & Hmin & Hv & He)
         (c' & l' & r' & Hi' & Hne' & Hmin' & Hv' & He').
  destruct (Nat.lt_trichotomy (List.length c) (List.length c'))
    as [Hlt|[Heq|Hgt]].
  - exfalso. eapply (Hshorter data data' c l r c' l' r'); eassumption.
  - rewrite Hi in Hi'.
    assert (Hsame : c = c' /\ l = l').
    { clear - Hi' Heq. revert c' Hi' Heq.
      induction c as [|x c IH]; intros [|x' c'] H Hlen; try discriminate.
      - cbn in H. injection H as -> _. auto.
      - cbn in H. injection H as -> H. injection Hlen as Hlen.
        destruct (IH c' H Hlen) as [-> ->]. auto. }
    destruct Hsame as [<- <-]. congruence.
  - exfalso. eapply (Hshorter data' data c' l' r' c l r); eassumption.
Qed.

(** *** What a query returns *)

(** What [SerialConnection.query] returns is the stripped text of the
    reply among the bytes that arrive. *)
Lemma serial_query_ok self command terminator wire incoming r self' :
  SerialConnection.query self command terminator wire incoming
  = (Ok r, self') ->
  r = strip (decode_ascii_ignore
               (fst (Serial.read_loop (expected_of terminator) []
                                      incoming))).
Proof.
  unfold SerialConnection.query.
  destruct (SerialConnection._serial self) as [p|]; [|discriminate].
  unfold Serial.reset_input_buffer, Serial.write, Serial.readline,
    Serial.read_until, Serial.receive.
  destruct (Serial.is_open p); [|discriminate].
  cbn [Serial.is_open Serial.input Serial.written app].
  destruct wire as [|e k]; [|discriminate].
  unfold expected_of.
  destruct terminator as [|t terminator];
    match goal with
    | |- context [Serial.read_loop ?x [] incoming] =>
        destruct (Serial.read_loop x [] incoming) as [line rest]
    end;
    cbv beta iota zeta; intros H; injection H as <- _; reflexivity.
Qed.

(** What [EthernetConnection.query] returns is the stripped text of the
    reply among what the socket has to deliver. *)
Lemma ethernet_query_ok self command terminator wire script r self' :
  EthernetConnection.query self command terminator wire script
  = (Ok r, self') ->
  exists sock data,
    EthernetConnection._sock self = Some sock /\
    network_reply (term_bytes_of terminator)
                  (Socket.incoming sock ++ script) data /\
    r = strip (decode_ascii_ignore data).
Proof.
  unfold EthernetConnection.query.
  destruct (EthernetConnection._sock self) as [sock|]; [|discriminate].
  unfold Socket.sendall. destruct wire as [|e k]; [|discriminate].
  unfold _recv_until, Socket.schedule.
  cbn [Socket.sent Socket.incoming].
  match goal with
  | |- context [recv_loop ?tb [] ?inc] =>
      change tb with (term_bytes_of terminator);
      destruct (recv_loop (term_bytes_of terminator) [] inc)
        as [[data|e] rest] eqn:E
  end; cbv beta iota zeta; intros H; [|discriminate].
  injection H as <- _.
  apply recv_loop_reply in E.
  destruct E as (chunks & last & Hi & Hne & Hmin & Hd & Hend).
  cbn [app] in Hd, Hmin.
  exists sock, data. split; [reflexivity|]. split; [|reflexivity].
  exists chunks, last, rest. auto.
Qed.

(** C5, as the specification states it, fails: with the terminator [;] the
    answer [1.5;] comes back from both connections with its terminator,
    where the specification promises [1.5]. *)
Lemma query_keeps_printable_terminator :
  fst (SerialConnection.query Demo.serial_opened (lit "T?") (lit ";")
                              Sent (Demo.to_bytes "1.5;")) = Ok (lit "1.5;") /\
  fst (EthernetConnection.query Demo.ethernet_opened (lit "T?") (lit ";")
                                Sent [Socket.Chunk (Demo.to_bytes "1.5;")])
  = Ok (lit "1.5;") /\
  spec_trim (lit ";") (decode_ascii_ignore (Demo.to_bytes "1.5;")) = lit "1.5" /\
  ends_with (lit ";") (lit "1.5;") = true /\
  lit "1.5;" <> lit "1.5".
Proof. repeat split; try reflexivity. discriminate. Qed.

Lemma reply_received_unique c terminator env data data' :
  MainWindow.reply_received c terminator env data ->
  MainWindow.reply_received c terminator env data' -> data' = data.
Proof.
  destruct c as [s|e]; cbn [MainWindow.reply_received].
  - apply serial_reply_unique.
  - intros (sock & Hs & H) (sock' & Hs' & H'). rewrite Hs in Hs'.
    injection Hs' as <-. eapply network_reply_unique; eassumption.
Qed.

(** C5, amended.  On both connections a query that returns normally
    returns the text of the reply it received, the terminator included,
    without the blanks around it and with nothing else removed: the reply
    is, on the serial line, what arrives up to the first end of line or up
    to the timeout, and on the network the chunks up to the first that
    holds the terminator or to the close of the peer, and no other bytes
    are the reply.  A terminator is gone from the end of the result when
    the terminator is made of blanks (as [\r\n] is), and only then is the
    result what the specification describes. *)
Theorem query_returns_stripped_reply
        (c c' : MainWindow.InstrumentConnection) (command terminator : str)
        (env : MainWindow.environment) (r : str) :
  MainWindow.connection_query c command terminator env = (Ok r, c') ->
  exists data,
    MainWindow.reply_received c terminator env data /\
    (forall data',
        MainWindow.reply_received c terminator env data' -> data' = data) /\
    r = strip (decode_ascii_ignore data) /\
    trimmed r /\
    (forallb isspace terminator = true ->
     r = spec_trim terminator (decode_ascii_ignore data)).
Proof.
  intros H.
  assert (Hdata : exists data,
             MainWindow.reply_received c terminator env data /\
             r = strip (decode_ascii_ignore data)).
  { destruct c as [s|e]; cbn [MainWindow.connection_query] in H.
    - destruct (SerialConnection.query s command terminator
                  (MainWindow.wire_send env) (MainWindow.line_incoming env))
        as [r0 s'] eqn:E.
      injection H as -> _. apply serial_query_ok in E.
      eexists. split; [|exact E].
      apply read_loop_serial_reply.
    - destruct (EthernetConnection.query e command terminator
                  (MainWindow.wire_send env) (MainWindow.socket_script env))
        as [r0 e'] eqn:E.
      injection H as -> _. apply ethernet_query_ok in E.
      destruct E as (sock & data & Hs & Hreply & Hr).
      exists data. split; [|exact Hr]. exists sock. auto. }
  destruct Hdata as (data & Hreply & ->).
  exists data. split; [exact Hreply|]. split.
  - intros data' H'. eapply reply_received_unique; eassumption.
  - split; [reflexivity|]. split; [apply strip_trimmed|].
    apply strip_spec_trim.
Qed.

Lemma query_returns_stripped_reply_witness :
  let c := MainWindow.Serial Demo.serial_opened in
  let c' := snd (MainWindow.connection_query c (lit "T?") [13%N; 10%N]
                                             Demo.disk_full) in
  MainWindow.connection_query c (lit "T?") [13%N; 10%N] Demo.disk_full
  = (Ok (lit "T:325.500000"), c') /\
  exists data,
    MainWindow.reply_received c [13%N; 10%N] Demo.disk_full data /\
    (forall data',
        MainWindow.reply_received c [13%N; 10%N] Demo.disk_full data' ->
        data' = data) /\
    lit "T:325.500000" = strip (decode_ascii_ignore data) /\
    trimmed (lit "T:325.500000") /\
    (forallb isspace [13%N; 10%N] = true ->
     lit "T:325.500000" = spec_trim [13%N; 10%N] (decode_ascii_ignore data)).
Proof.
  intros c c'. split; [reflexivity|].
  apply (query_returns_stripped_reply c c' (lit "T?") [13%N; 10%N]
                                      Demo.disk_full (lit "T:325.500000")).
  reflexivity.
Defined.

(** C6: the code at the input where it departs from the claim.  A query on
    a connection that was never opened raises the [RuntimeError] of the
    connection on both classes, and so does a query on a network
    connection that was opened and closed.  On a serial connection that was
    opened and closed, [is_open] is false but the test of [query] passes:
    the query goes on to the calls on the port, and the exception is the one
    that the closed port raises. *)
Theorem serial_query_after_close_passes_guard :
  (forall config command terminator wire incoming,
      fst (SerialConnection.query (SerialConnection.init config)
                                  command terminator wire incoming)
      = Raise (RuntimeError "Serial connection not open")) /\
  (forall config command terminator wire script,
      fst (EthernetConnection.query (EthernetConnection.init config)
                                    command terminator wire script)
      = Raise (RuntimeError "Ethernet connection not open")) /\
  (forall command terminator wire script,
      fst (EthernetConnection.query Demo.ethernet_closed
                                    command terminator wire script)
      = Raise (RuntimeError "Ethernet connection not open")) /\
  SerialConnection.is_open Demo.serial_closed = false /\
  (forall command terminator wire incoming,
      fst (SerialConnection.query Demo.serial_closed
                                  command terminator wire incoming)
      = Raise PortNotOpenError).
Proof. repeat split. Qed.

(** C10.  [open] on a connection that is open returns at once: the
    connection is what it was, with the handle it had, and no port is
    opened and no socket connected, whatever the outside world would have
    answered. *)
Theorem open_when_open_is_noop
        (c : MainWindow.InstrumentConnection)
        (device : result Serial.t) (network : result Socket.t) :
  MainWindow.connection_is_open c = true ->
  MainWindow.connection_open c device network = (Ok tt, c, []).
Proof.
  intros H. destruct c as [s|e]; simpl in *.
  - unfold SerialConnection.open. unfold SerialConnection.is_open in H.
    rewrite H. reflexivity.
  - unfold EthernetConnection.open. unfold EthernetConnection.is_open in H.
    destruct (EthernetConnection._sock e); [reflexivity|discriminate].
Qed.

Lemma open_when_open_is_noop_witness :
  MainWindow.connection_is_open (MainWindow.Ethernet Demo.ethernet_opened)
  = true /\
  MainWindow.connection_open (MainWindow.Ethernet Demo.ethernet_opened)
                             (Ok Serial.fresh) (Raise SocketTimeout)
  = (Ok tt, MainWindow.Ethernet Demo.ethernet_opened, []).
Proof.
  split; [reflexivity|].
  apply (open_when_open_is_noop (MainWindow.Ethernet Demo.ethernet_opened)).
  reflexivity.
Defined.

End CommsProofs.

(** ** logger.py *)

Module LoggerProofs.
Import Logger.

Lemma close_clears_handle self outcome :
  _handle (snd (fst (close self outcome))) = None.
Proof.
  unfold close. destruct (_handle self) eqn:E; [reflexivity|assumption].
Qed.

(** C9.  On a logger without a file handle [log] does nothing: it returns
    normally, the logger is what it was and nothing is written, whatever the
    disk would have done.  That is the case of a logger that was never
    started and of a logger that was closed. *)
Theorem log_without_handle_is_noop
        (self : DataLogger) (timestamp_iso : str) (elapsed_s temperature_k : Float.t)
        (disk : disk_outcome) :
  _handle self = None ->
  log self timestamp_iso elapsed_s temperature_k disk = (Ok tt, self, []) /\
  (forall folder, _handle (init folder) = None) /\
  (forall started outcome, _handle (snd (fst (close started outcome))) = None).
Proof.
  intros H. split; [|split].
  - unfold log. rewrite H. reflexivity.
  - reflexivity.
  - apply close_clears_handle.
Qed.

Lemma log_without_handle_is_noop_witness :
  let closed := snd (fst (close Demo.logger_started (Raise (OSError 5)))) in
  _handle closed = None /\
  log closed (lit "2024-01-01T12:00:01") (Float.Finite 1) (Float.Finite 25)
      (WriteFails (OSError 28))
  = (Ok tt, closed, []).
Proof.
  intros closed. split; [reflexivity|].
  apply (log_without_handle_is_noop closed (lit "2024-01-01T12:00:01")
                                    (Float.Finite 1) (Float.Finite 25)
                                    (WriteFails (OSError 28))).
  reflexivity.
Defined.

End LoggerProofs.

(** ** main_window.py: a poll whose log write fails *)

Module PollProofs.
Import MainWindow.

(** C7, as the specification states it, fails: the instrument answers, the
    reply parses, the disk is full, and the poll ends with the exception of
    the write; the alarm, which this reading trips, is not evaluated and no
    message is shown. *)
Lemma poll_stops_at_failed_log_write :
  let '(r, window', events) := _poll_temperature Demo.ucd Demo.window Demo.disk_full in
  Alarm.is_high (Float.Finite 325.5) Demo.alarm_settings = true /\
  r = Raise (OSError 28) /\
  existsb is_alarm_evaluate events = false /\
  existsb is_show_message events = false /\
  alarm_manager window' = alarm_manager Demo.window /\
  ~ spec_poll_survives_log_failure (r, window', events).
Proof.
  vm_compute. repeat split; try reflexivity.
  intros [H _]. discriminate.
Qed.

Section Poll.
Variable ucd : unicode_db.

(** A poll whose query and parse succeed, up to the log write. *)
Lemma poll_after_read self env conn term response conn' temperature :
  connection self = Some conn ->
  Settings.decode_terminator ucd (terminator (settings self)) = Ok term ->
  connection_query conn (temp_query (settings self)) term env
  = (Ok response, conn') ->
  Protocol.parse_temperature ucd (Some response) = Ok temperature ->
  _poll_temperature ucd self env =
  let self := set_connection self (Some conn') in
  let elapsed := elapsed_of self env in
  let '(td, tp) :=
    append_history (max_points (settings self)) elapsed temperature
                   (time_data self) (temp_data self) in
  let self := set_history self td tp in
  let shown := [PlotSetData td tp; CurrentTempText temperature] in
  let '(logged, self, written) :=
    match logger self with
    | Some l =>
        let '(r, l', evs) :=
          Logger.log l (now_iso env) elapsed temperature (disk env) in
        (r, set_logger self (Some l'), map FileSystem evs)
    | None => (Ok tt, self, [])
    end in
  match logged with
  | Raise e => (Raise e, self, shown ++ written)
  | Ok _ =>
      let '(m, effects) :=
        Alarm.evaluate (time_time env) (alarm_manager self) temperature
                       (alarm_form self) (Some (email_form self)) in
      (Ok tt, set_alarm_manager self m,
       shown ++ written ++ [AlarmEvaluate temperature effects])
  end.
Proof.
  intros Hc Ht Hq Hp. unfold _poll_temperature.
  rewrite Hc, Ht, Hq, Hp. reflexivity.
Qed.

Lemma existsb_file_system (P : event -> bool) evs :
  (forall e, P (FileSystem e) = false) ->
  existsb P (map FileSystem evs) = false.
Proof.
  intros H. induction evs as [|e evs IH]; [reflexivity|].
  simpl. rewrite H, IH. reflexivity.
Qed.

(** C7, amended.  When the query and the parse of a poll succeed and the
    write of the row fails, the exception of the write leaves
    [_poll_temperature]: the sample is in the history buffer by then, the
    alarm is not evaluated for it, and the poll shows no message.  The poll
    stops nothing: the timer, the connection and the logger are as they
    were. *)
Theorem poll_log_failure_propagates
        (self : t) (env : environment) (conn conn' : InstrumentConnection)
        (term response : str) (temperature : Float.t)
        (l : Logger.DataLogger) (h : Logger.file) (e : exn) :
  connection self = Some conn ->
  Settings.decode_terminator ucd (terminator (settings self)) = Ok term ->
  connection_query conn (temp_query (settings self)) term env
  = (Ok response, conn') ->
  Protocol.parse_temperature ucd (Some response) = Ok temperature ->
  logger self = Some l ->
  Logger._handle l = Some h ->
  write_fails (disk env) e ->
  let '(r, self', events) := _poll_temperature ucd self env in
  r = Raise e /\
  existsb is_alarm_evaluate events = false /\
  existsb is_show_message events = false /\
  alarm_manager self' = alarm_manager self /\
  (time_data self', temp_data self') =
  append_history (max_points (settings self)) (elapsed_of self env)
                 temperature (time_data self) (temp_data self) /\
  read_timer_active self' = read_timer_active self /\
  reading_active self' = reading_active self /\
  connection self' = Some conn' /\
  logger self' = Some l.
Proof.
  intros Hc Ht Hq Hp Hl Hh Hw.
  rewrite (poll_after_read self env conn term response conn' temperature
                           Hc Ht Hq Hp).
  cbv zeta.
  change (elapsed_of (set_connection self (Some conn')) env)
    with (elapsed_of self env).
  cbn [set_connection settings time_data temp_data].
  destruct (append_history (max_points (settings self)) (elapsed_of self env)
                           temperature (time_data self) (temp_data self))
    as [td tp].
  cbn [set_history set_connection logger]. rewrite Hl.
  unfold Logger.log. rewrite Hh.
  assert (Hlog : exists evs,
             Logger.write_flush h
               (Logger.Row (now_iso env) (elapsed_of self env) temperature)
               (disk env) = (Raise e, evs)).
  { destruct Hw as [-> | ->]; eexists; reflexivity. }
  destruct Hlog as (evs & ->).
  cbn [set_logger set_history set_connection alarm_manager time_data
       temp_data read_timer_active reading_active connection logger].
  repeat split.
  - simpl. apply existsb_file_system. reflexivity.
  - simpl. apply existsb_file_system. reflexivity.
Qed.

(** With a disk that takes the row, the same poll goes on to the alarm. *)
Lemma poll_completes
      (self : t) (env : environment) (conn conn' : InstrumentConnection)
      (term response : str) (temperature : Float.t) :
  connection self = Some conn ->
  Settings.decode_terminator ucd (terminator (settings self)) = Ok term ->
  connection_query conn (temp_query (settings self)) term env
  = (Ok response, conn') ->
  Protocol.parse_temperature ucd (Some response) = Ok temperature ->
  disk env = Logger.DiskOk ->
  let '(r, self', events) := _poll_temperature ucd self env in
  r = Ok tt /\ existsb is_alarm_evaluate events = true.
Proof.
  intros Hc Ht Hq Hp Hd.
  rewrite (poll_after_read self env conn term response conn' temperature
                           Hc Ht Hq Hp).
  cbv zeta.
  destruct (append_history _ _ _ _ _) as [td tp].
  cbn [set_history logger set_connection].
  destruct (logger self) as [l|].
  - unfold Logger.log. rewrite Hd.
    destruct (Logger._handle l) as [h|]; cbn [Logger.write_flush];
      destruct (Alarm.evaluate _ _ _ _ _) as [m effects];
      (split; [reflexivity|]);
      rewrite !existsb_app; simpl; rewrite ?orb_true_r; reflexivity.
  - destruct (Alarm.evaluate _ _ _ _ _) as [m effects].
    split; [reflexivity|].
    rewrite !existsb_app. simpl. rewrite ?orb_true_r. reflexivity.
Qed.

End Poll.

Lemma poll_log_failure_propagates_witness :
  let conn := Serial Demo.serial_opened in
  let conn' := snd (connection_query conn (lit "T?") [13%N; 10%N]
                                     Demo.disk_full) in
  connection Demo.window = Some conn /\
  Settings.decode_terminator Demo.ucd (terminator (settings Demo.window))
  = Ok [13%N; 10%N] /\
  connection_query conn (temp_query (settings Demo.window)) [13%N; 10%N]
                   Demo.disk_full = (Ok (lit "T:325.500000"), conn') /\
  Protocol.parse_temperature Demo.ucd (Some (lit "T:325.500000"))
  = Ok (Float.Finite (651 # 2)) /\
  logger Demo.window = Some Demo.logger_started /\
  write_fails (disk Demo.disk_full) (OSError 28) /\
  fst (fst (_poll_temperature Demo.ucd Demo.window Demo.disk_full))
  = Raise (OSError 28).
Proof.
  intros conn conn'.
  assert (Hc : connection Demo.window = Some conn) by reflexivity.
  assert (Ht : Settings.decode_terminator Demo.ucd
                 (terminator (settings Demo.window)) = Ok [13%N; 10%N])
    by reflexivity.
  assert (Hq : connection_query conn (temp_query (settings Demo.window))
                 [13%N; 10%N] Demo.disk_full
               = (Ok (lit "T:325.500000"), conn')) by reflexivity.
  assert (Hp : Protocol.parse_temperature Demo.ucd
                 (Some (lit "T:325.500000")) = Ok (Float.Finite (651 # 2)))
    by reflexivity.
  assert (Hl : logger Demo.window = Some Demo.logger_started) by reflexivity.
  assert (Hw : write_fails (disk Demo.disk_full) (OSError 28))
    by (left; reflexivity).
  repeat (split; [assumption|]).
  pose proof (poll_log_failure_propagates
                Demo.ucd Demo.window Demo.disk_full conn conn'
                [13%N; 10%N] (lit "T:325.500000") (Float.Finite (651 # 2))
                Demo.logger_started
                {| Logger.name := lit "logs/scm10_log_20240101_120000.csv" |}
                (OSError 28) Hc Ht Hq Hp Hl eq_refl Hw) as H.
  destruct (_poll_temperature Demo.ucd Demo.window Demo.disk_full)
    as [[r self'] events].
  exact (proj1 H).
Defined.

End PollProofs.

(** ** alarm.py: sequences of evaluations in general *)

Module AlarmTraceProofs.
Import Emailer Alarm AlarmTrace FloatFacts.

(** What one evaluation does to the timestamp, whatever its arguments. *)
Lemma evaluate_cases now self temperature settings email_config :
  let '(self', effs) := evaluate now self temperature settings email_config in
  (sent effs = 0%nat /\ _last_email_ts self' = _last_email_ts self) \/
  (sent effs = 1%nat /\ _last_email_ts self' = Some now /\
   due (_last_email_ts self) now settings = true).
Proof.
  unfold evaluate.
  destruct (enabled settings); simpl; [|left; auto].
  set (alarm := is_low temperature settings || is_high temperature settings).
  assert (Hb : forall mails : list effect,
             sent ((if alarm && beep_enabled settings then [Beep] else [])
                   ++ mails) = sent mails).
  { intros mails. unfold sent.
    destruct (alarm && beep_enabled settings); reflexivity. }
  destruct (alarm && email_enabled settings); [|left; rewrite Hb; auto].
  destruct email_config as [cfg|]; [|left; rewrite Hb; auto].
  destruct (due (_last_email_ts self) now settings) eqn:Hd.
  - right. rewrite Hb. auto.
  - left. rewrite Hb. auto.
Qed.

Lemma min_interval_ge_60 settings : (60 <= min_interval settings)%Z.
Proof. unfold min_interval. lia. Qed.

Lemma ge_int_le x n m :
  (n <= m)%Z -> Float.ge_int x m = true -> Float.ge_int x n = true.
Proof.
  intros Hle. destruct x as [a| | |]; try discriminate; try reflexivity.
  rewrite !ge_int_finite. intros H.
  apply Qle_trans with (inject_Z m); [|exact H].
  rewrite <- Zle_Qle. exact Hle.
Qed.

(** A call that is due after a notification at [t]: by the difference of
    the floats it comes at least 60 seconds later, and its reading of the
    clock is the greater one. *)
Lemma due_gap t now settings :
  due (Some t) now settings = true ->
  Float.ge_int (Float.sub now t) 60 = true /\ Float.ltb t now = true.
Proof.
  unfold due. intros H. pose proof (min_interval_ge_60 settings) as Hm.
  split.
  - apply (ge_int_le _ _ _ Hm H).
  - apply (sub_ge_int now t (min_interval settings)); [lia|exact H].
Qed.

Lemma run_spaced calls :
  forall self,
    spaced 60 (stamp_list (_last_email_ts self)
               ++ send_times calls (snd (run_all self calls))).
Proof.
  induction calls as [|c calls IH]; intros self.
  - simpl. rewrite app_nil_r. destruct (_last_email_ts self); exact I.
  - simpl.
    pose proof (evaluate_cases (at_time c) self (reading c)
                  (with_settings c) (with_email c)) as Hc.
    destruct (evaluate (at_time c) self (reading c)
                (with_settings c) (with_email c))
      as [self1 effs].
    specialize (IH self1).
    destruct (run_all self1 calls) as [self2 effss]. simpl in *.
    destruct Hc as [[Hn Hl]|(Hn & Hl & Hd)]; rewrite Hn; simpl.
    + rewrite <- Hl. exact IH.
    + rewrite Hl in IH. simpl in IH.
      destruct (_last_email_ts self) as [t|]; simpl; [|exact IH].
      destruct (due_gap t _ _ Hd) as [Hgap Hlt].
      split; [exact Hgap|]. split; [exact Hlt|exact IH].
Qed.

(** X1.  Whatever the settings, the readings, the email configurations
    and the clock of a sequence of evaluations are, two consecutive
    notifications are at least 60 seconds apart as the evaluator measures
    it: the difference of the two clock readings, as the floats give it, is
    at least 60, and the later reading is the greater one.  The same holds
    between the timestamp that the sequence started with and the first
    notification.  An interval setting of zero or less does not shorten the
    gap. *)
Theorem notifications_at_least_a_minute_apart
        (self : AlarmManager) (calls : list evaluation) :
  spaced 60 (stamp_list (_last_email_ts self)
             ++ send_times calls (snd (run_all self calls))).
Proof. apply run_spaced. Qed.

Lemma run_timestamp calls :
  forall self t,
    _last_email_ts self = Some t ->
    exists t',
      _last_email_ts (fst (run self calls)) = Some t' /\
      (t' = t \/ Float.ltb t t' = true).
Proof.
  induction calls as [|c calls IH]; intros self t Ht.
  - exists t. split; [assumption|left; reflexivity].
  - simpl.
    pose proof (evaluate_cases (call_now c) self (call_temperature c)
                  (call_settings c) (Some (call_email_config c))) as Hc.
    destruct (evaluate (call_now c) self (call_temperature c)
                (call_settings c) (Some (call_email_config c)))
      as [self1 effs].
    destruct Hc as [[_ Hl]|(_ & Hl & Hd)].
    + rewrite Ht in Hl. destruct (IH self1 t Hl) as (t' & H1 & H2).
      destruct (run self1 calls) as [self2 effss]. simpl in *. eauto.
    + rewrite Ht in Hd. apply due_gap in Hd. destruct Hd as [_ Hlt].
      destruct (IH self1 (call_now c) Hl) as (t' & H1 & H2).
      destruct (run self1 calls) as [self2 effss]. simpl in *.
      exists t'. split; [assumption|]. right.
      destruct H2 as [->|H2]; [exact Hlt|].
      apply (ltb_trans _ _ _ Hlt H2).
Qed.

(** X2.  Once the timestamp of the last notification is set, no sequence
    of evaluations clears it or moves it back, whatever the clock returns:
    it stays what it was or becomes a greater reading of the clock.  Only
    [reset] unsets it. *)
Theorem timestamp_never_decreases
        (self : AlarmManager) (calls : list call) (t : Float.t) :
  _last_email_ts self = Some t ->
  exists t',
    _last_email_ts (fst (run self calls)) = Some t' /\
    (t' = t \/ Float.ltb t t' = true).
Proof. apply run_timestamp. Qed.

Lemma timestamp_never_decreases_witness :
  let self := {| _last_email_ts := Some (Float.Finite 1000);
                 _in_alarm := true |} in
  let calls := calls_at (Float.Finite 325.5) Demo.alarm_settings
                        Demo.email_config
                        [Float.Finite 900; Float.Finite 1030;
                         Float.Finite 1075] in
  _last_email_ts self = Some (Float.Finite 1000) /\
  exists t',
    _last_email_ts (fst (run self calls)) = Some t' /\
    (t' = Float.Finite 1000 \/ Float.ltb (Float.Finite 1000) t' = true).
Proof.
  intros self calls. split; [reflexivity|].
  apply (timestamp_never_decreases self calls (Float.Finite 1000)).
  reflexivity.
Defined.

Lemma run_disabled calls :
  forall self,
    Forall (fun c => enabled (call_settings c) = false) calls ->
    let '(self', effects) := run self calls in
    Forall (fun effs => effs = []) effects /\
    _last_email_ts self' = _last_email_ts self /\
    _in_alarm self' = match calls with [] => _in_alarm self | _ => false end.
Proof.
  induction calls as [|c calls IH]; intros self Hall.
  - simpl. repeat split. constructor.
  - inversion Hall as [|c' calls' Hc Hrest]; subst.
    simpl. unfold evaluate at 1. rewrite Hc. simpl.
    specialize (IH {| _last_email_ts := _last_email_ts self;
                      _in_alarm := false |} Hrest).
    destruct (run _ calls) as [self2 effss]. simpl in IH.
    destruct IH as (H1 & H2 & H3).
    repeat split; [constructor; auto|assumption|].
    rewrite H3. destruct calls; reflexivity.
Qed.

(** X3.  While the alarm is disabled, evaluations do nothing to the
    outside world, whatever the readings and thresholds: no beep, no
    notification.  They clear the alarm flag and leave the timestamp of the
    last notification alone, so switching the alarm off and on does not
    restart the interval between two notifications. *)
Theorem disabled_alarm_is_silent (self : AlarmManager) (calls : list call) :
  Forall (fun c => enabled (call_settings c) = false) calls ->
  let '(self', effects) := run self calls in
  Forall (fun effs => effs = []) effects /\
  _last_email_ts self' = _last_email_ts self /\
  _in_alarm self' = match calls with [] => _in_alarm self | _ => false end.
Proof. apply run_disabled. Qed.

Lemma disabled_alarm_is_silent_witness :
  let off :=
    {| enabled := false;
       low_enabled := true; low_threshold := Float.Finite 400;
       high_enabled := true; high_threshold := Float.Finite 300;
       beep_enabled := true; email_enabled := true;
       email_min_interval_min := 1 |} in
  let self := {| _last_email_ts := Some (Float.Finite 1000);
                 _in_alarm := true |} in
  let calls := calls_at (Float.Finite 325.5) off Demo.email_config
                        [Float.Finite 2000; Float.Finite 3000] in
  Forall (fun c => enabled (call_settings c) = false) calls /\
  Forall (fun effs => effs = []) (snd (run self calls)) /\
  _last_email_ts (fst (run self calls)) = Some (Float.Finite 1000) /\
  _in_alarm (fst (run self calls)) = false.
Proof.
  intros off self calls.
  assert (H : Forall (fun c => enabled (call_settings c) = false) calls)
    by (repeat constructor).
  split; [exact H|].
  exact (disabled_alarm_is_silent self calls H).
Defined.

(** X4.  Every notification that an evaluation dispatches is about the
    reading that was evaluated, with the email configuration that was
    passed, and carries the two flags of that reading: the low flag is set
    exactly when the low threshold is enabled and the reading is below it,
    the high flag exactly when the high threshold is enabled and the
    reading is above it, and one of them is set.  The word of the message
    is LOW exactly when the low side is breached, also when both sides
    are; it is HIGH exactly when the low side is not breached, and then
    the high side is. *)
Theorem notification_names_breached_side
        (now : Float.t) (self : AlarmManager) (temperature : Float.t)
        (settings : AlarmSettings) (email_config : option EmailConfig)
        (cfg : EmailConfig) (reported : Float.t) (low high : bool) :
  In (SendEmailAsync cfg reported low high)
     (snd (evaluate now self temperature settings email_config)) ->
  reported = temperature /\
  email_config = Some cfg /\
  low = low_enabled settings
        && Float.ltb temperature (low_threshold settings) /\
  high = high_enabled settings
         && Float.ltb (high_threshold settings) temperature /\
  low || high = true /\
  (status_word low high = "LOW"%string <->
   low_enabled settings = true /\
   Float.ltb temperature (low_threshold settings) = true) /\
  (status_word low high = "HIGH"%string <->
   low_enabled settings
   && Float.ltb temperature (low_threshold settings) = false) /\
  (status_word low high = "HIGH"%string ->
   high_enabled settings = true /\
   Float.ltb (high_threshold settings) temperature = true).
Proof.
  unfold evaluate.
  destruct (enabled settings); simpl; [|intros []].
  unfold is_low, is_high.
  set (lo := low_enabled settings
             && Float.ltb temperature (low_threshold settings)).
  set (hi := high_enabled settings
             && Float.ltb (high_threshold settings) temperature).
  assert (Hbeep : forall mails,
             In (SendEmailAsync cfg reported low high)
                ((if (lo || hi) && beep_enabled settings then [Beep] else [])
                 ++ mails) ->
             In (SendEmailAsync cfg reported low high) mails).
  { intros mails Hin. apply in_app_or in Hin. destruct Hin as [Hin|Hin];
      [|assumption].
    destruct (_ && beep_enabled settings); simpl in Hin;
      [destruct Hin as [Hin|[]]; discriminate|destruct Hin]. }
  destruct ((lo || hi) && email_enabled settings) eqn:Ha;
    [|intros Hin; apply Hbeep in Hin; destruct Hin].
  destruct email_config as [cfg'|];
    [|intros Hin; apply Hbeep in Hin; destruct Hin].
  destruct (due (_last_email_ts self) now settings);
    [|intros Hin; apply Hbeep in Hin; destruct Hin].
  intros Hin. apply Hbeep in Hin.
  destruct Hin as [Hin|[]]. injection Hin as Hcfg Ht Hl Hh.
  subst cfg' reported low high.
  apply andb_true_iff in Ha. destruct Ha as [Halarm _].
  split; [reflexivity|]. split; [reflexivity|].
  split; [reflexivity|]. split; [reflexivity|].
  split; [exact Halarm|].
  unfold status_word. destruct lo eqn:El; unfold lo in El.
  - split; [|split].
    + split; [intros _; apply andb_true_iff; exact El|reflexivity].
    + split; discriminate.
    + discriminate.
  - simpl in Halarm. unfold hi in Halarm. split; [|split].
    + split; [discriminate|].
      intros H. apply (proj2 (andb_true_iff _ _)) in H. congruence.
    + split; reflexivity.
    + intros _. apply andb_true_iff. exact Halarm.
Qed.

Lemma notification_names_breached_side_witness :
  In (SendEmailAsync Demo.email_config (Float.Finite 325.5) false true)
     (snd (evaluate (Float.Finite 1000) init (Float.Finite 325.5)
                    Demo.alarm_settings (Some Demo.email_config))) /\
  (status_word false true = "HIGH"%string ->
   Alarm.high_enabled Demo.alarm_settings = true /\
   Float.ltb (Alarm.high_threshold Demo.alarm_settings) (Float.Finite 325.5)
   = true).
Proof.
  assert (H : In (SendEmailAsync Demo.email_config (Float.Finite 325.5)
                                 false true)
                 (snd (evaluate (Float.Finite 1000) init (Float.Finite 325.5)
                                Demo.alarm_settings
                                (Some Demo.email_config))))
    by (right; left; reflexivity).
  split; [exact H|].
  pose proof (notification_names_breached_side
                (Float.Finite 1000) init (Float.Finite 325.5)
                Demo.alarm_settings (Some Demo.email_config)
                Demo.email_config (Float.Finite 325.5) false true H)
    as (_ & _ & _ & _ & _ & _ & _ & Hhigh).
  exact Hhigh.
Defined.

End AlarmTraceProofs.

(** ** settings.py: the escaped terminator beyond the letters *)

Module TerminatorProofs.
Import Settings SettingsProofs Terminator.

Lemma escape_char_cases c :
  (c = backslash /\ escape_char c = [backslash; backslash]) \/
  (c = CR /\ escape_char c = [backslash; ord "r"]) \/
  (c = LF /\ escape_char c = [backslash; ord "n"]) \/
  (c = TAB /\ escape_char c = [backslash; ord "t"]) \/
  (c <> backslash /\ c <> CR /\ c <> LF /\ c <> TAB /\ escape_char c = [c]).
Proof.
  unfold escape_char.
  destruct (N.eqb_spec c backslash); [auto|].
  destruct (N.eqb_spec c CR); [auto|].
  destruct (N.eqb_spec c LF); [auto 6|].
  destruct (N.eqb_spec c TAB); [auto 6|].
  auto 10.
Qed.

Lemma escape_char_ascii_any c :
  (c <? 128)%N = true -> ascii_only (escape_char c) = true.
Proof.
  intros Hc.
  destruct (escape_char_cases c)
    as [[_ ->]|[[_ ->]|[[_ ->]|[[_ ->]|(_ & _ & _ & _ & ->)]]]];
    try reflexivity.
  unfold ascii_only. simpl. rewrite Hc. reflexivity.
Qed.

Lemma flat_map_escape_ascii_any s :
  ascii_only s = true -> ascii_only (flat_map escape_char s) = true.
Proof.
  unfold ascii_only.
  induction s as [|c s IH]; [reflexivity|].
  cbn [forallb flat_map]. rewrite andb_true_iff. intros [Hc Hs].
  rewrite forallb_app. apply andb_true_iff. split.
  - apply escape_char_ascii_any, Hc.
  - apply IH, Hs.
Qed.

Section Decode.
Variable ucd : unicode_db.

Lemma unicode_escape_plain c rest :
  (c < 256)%N -> c <> backslash ->
  unicode_escape_from ucd Plain (ascii_of_N c :: rest) =
  emit c (unicode_escape_from ucd Plain rest).
Proof.
  intros Hc Hb. cbn [unicode_escape_from].
  rewrite ascii_of_N_eqb by assumption.
  change (N_of_ascii "\") with backslash.
  destruct (N.eqb_spec c backslash); [contradiction|].
  rewrite N_ascii_embedding by assumption. reflexivity.
Qed.

Lemma unicode_escape_char_any c rest :
  (c <? 128)%N = true ->
  unicode_escape_from ucd Plain (map ascii_of_N (escape_char c) ++ rest) =
  emit c (unicode_escape_from ucd Plain rest).
Proof.
  intros Hc. apply N.ltb_lt in Hc.
  destruct (escape_char_cases c)
    as [[-> ->]|[[-> ->]|[[-> ->]|[[-> ->]|(Hb & _ & _ & _ & ->)]]]];
    try reflexivity.
  cbn [map app]. apply unicode_escape_plain; [lia|assumption].
Qed.

Lemma unicode_escape_encoded_any s :
  ascii_only s = true ->
  unicode_escape_from ucd Plain (map ascii_of_N (flat_map escape_char s)) = Ok s.
Proof.
  unfold ascii_only.
  induction s as [|c s IH]; [reflexivity|].
  cbn [forallb flat_map]. rewrite andb_true_iff. intros [Hc Hs].
  rewrite map_app, unicode_escape_char_any by assumption.
  etransitivity; [apply f_equal, IH, Hs | reflexivity].
Qed.

(** The decoder copies a text without backslash, and stops at a backslash
    that nothing follows. *)
Lemma unicode_escape_no_backslash s tail :
  ascii_only s = true -> no_backslash s = true ->
  unicode_escape_from ucd Plain (map ascii_of_N s ++ tail) =
  match unicode_escape_from ucd Plain tail with
  | Ok r => Ok (s ++ r)
  | Raise e => Raise e
  end.
Proof.
  unfold ascii_only, no_backslash.
  induction s as [|c s IH]; intros Ha Hn.
  - simpl. destruct (unicode_escape_from ucd Plain tail); reflexivity.
  - cbn [forallb] in Ha, Hn.
    apply andb_true_iff in Ha. destruct Ha as [Hc Ha].
    apply andb_true_iff in Hn. destruct Hn as [Hb Hn].
    apply N.ltb_lt in Hc. apply negb_true_iff, N.eqb_neq in Hb.
    cbn [map app]. rewrite unicode_escape_plain by (assumption || lia).
    rewrite (IH Ha Hn).
    destruct (unicode_escape_from ucd Plain tail); reflexivity.
Qed.

End Decode.

(** X5.  Decoding inverts encoding on every ASCII string, not only on the
    strings of control characters, backslashes and letters: digits,
    punctuation and quotes come back as well. *)
Theorem decode_encode_ascii (ucd : unicode_db) (s : str) :
  ascii_only s = true ->
  decode_terminator ucd (encode_terminator s) = Ok s.
Proof.
  intros Hs. unfold decode_terminator, decode_unicode_escape.
  rewrite encode_terminator_flat.
  rewrite encode_utf8_ascii by (apply flat_map_escape_ascii_any; assumption).
  apply unicode_escape_encoded_any. assumption.
Qed.

Lemma decode_encode_ascii_witness :
  let s := lit "*IDN?;'x\0 #" ++ [13%N; 10%N] in
  ascii_only s = true /\
  decode_terminator Demo.ucd (encode_terminator s) = Ok s.
Proof.
  intros s. split; [reflexivity|].
  apply (decode_encode_ascii Demo.ucd s). reflexivity.
Defined.

(** X6.  The escaped form never holds a raw carriage return, line feed or
    tab, whatever string is encoded: the stored terminator stays on one
    line of text. *)
Theorem encode_terminator_has_no_control (s : str) :
  forallb (fun c => negb (is_control c)) (encode_terminator s) = true.
Proof.
  rewrite encode_terminator_flat.
  induction s as [|c s IH]; [reflexivity|].
  cbn [flat_map]. rewrite forallb_app, IH, andb_true_r.
  destruct (escape_char_cases c)
    as [[_ ->]|[[_ ->]|[[_ ->]|[[_ ->]|(_ & Hr & Hn & Ht & ->)]]]];
    try reflexivity.
  unfold is_control. simpl.
  apply N.eqb_neq in Hr, Hn, Ht. rewrite Hr, Hn, Ht. reflexivity.
Qed.

(** X7.  A character outside ASCII does not survive the round trip: a code
    point from 128 to 2047 is encoded as itself, and decoding reads its two
    UTF-8 bytes as two characters. *)
Theorem decode_encode_garbles_non_ascii (ucd : unicode_db) (c : codepoint) :
  (128 <= c < 2048)%N ->
  encode_terminator [c] = [c] /\
  decode_terminator ucd (encode_terminator [c]) =
  Ok [(192 + c / 64)%N; (128 + c mod 64)%N] /\
  decode_terminator ucd (encode_terminator [c]) <> Ok [c].
Proof.
  intros [Hlo Hhi].
  assert (He : encode_terminator [c] = [c]).
  { rewrite encode_terminator_flat. cbn [flat_map]. rewrite app_nil_r.
    destruct (escape_char_cases c)
      as [[-> _]|[[-> _]|[[-> _]|[[-> _]|(_ & _ & _ & _ & ->)]]]];
      try (exfalso; revert Hlo; vm_compute; congruence).
    reflexivity. }
  assert (Hd : decode_terminator ucd [c] =
               Ok [(192 + c / 64)%N; (128 + c mod 64)%N]).
  { unfold decode_terminator, encode_utf8, utf8_char.
    replace (c <? 128)%N with false by (symmetry; apply N.ltb_ge; lia).
    replace (c <? 2048)%N with true by (symmetry; apply N.ltb_lt; lia).
    assert (H1 : (c / 64 < 32)%N)
      by (apply N.Div0.div_lt_upper_bound; exact Hhi).
    assert (H2 : (c mod 64 < 64)%N) by (apply N.mod_lt; discriminate).
    assert (Hb : backslash = 92%N) by reflexivity.
    cbn [app]. unfold decode_unicode_escape.
    set (q := (c / 64)%N) in *. set (r := (c mod 64)%N) in *.
    rewrite unicode_escape_plain; [|lia|rewrite Hb; lia].
    rewrite unicode_escape_plain; [|lia|rewrite Hb; lia].
    reflexivity. }
  rewrite He. split; [reflexivity|]. split; [exact Hd|].
  rewrite Hd. discriminate.
Qed.

Lemma decode_encode_garbles_non_ascii_witness :
  (128 <= 233 < 2048)%N /\
  decode_terminator Demo.ucd (encode_terminator [233%N]) =
  Ok [195%N; 169%N].
Proof.
  assert (H : (128 <= 233 < 2048)%N) by (split; [discriminate|reflexivity]).
  split; [exact H|].
  exact (proj1 (proj2 (decode_encode_garbles_non_ascii Demo.ucd 233%N H))).
Defined.

(** X8.  A typed terminator that ends in a backslash which nothing
    follows, after ASCII text without backslash, cannot be decoded:
    [decode_terminator] raises instead of returning a terminator. *)
Theorem decode_rejects_trailing_backslash (ucd : unicode_db) (s : str) :
  ascii_only s = true -> no_backslash s = true ->
  decode_terminator ucd s = Ok s /\
  decode_terminator ucd (s ++ [backslash]) =
  Raise (UnicodeDecodeError "\ at end of string").
Proof.
  intros Ha Hn. unfold decode_terminator, decode_unicode_escape. split.
  - rewrite (encode_utf8_ascii s Ha).
    rewrite <- (app_nil_r (map ascii_of_N s)).
    rewrite (unicode_escape_no_backslash ucd s [] Ha Hn).
    simpl. rewrite app_nil_r. reflexivity.
  - rewrite encode_utf8_ascii
      by (rewrite forallb_app; apply andb_true_iff; split;
          [exact Ha|reflexivity]).
    rewrite map_app.
    rewrite (unicode_escape_no_backslash ucd s _ Ha Hn). reflexivity.
Qed.

Lemma decode_rejects_trailing_backslash_witness :
  ascii_only (lit "END") = true /\ no_backslash (lit "END") = true /\
  decode_terminator Demo.ucd (lit "END\") =
  Raise (UnicodeDecodeError "\ at end of string").
Proof.
  split; [reflexivity|]. split; [reflexivity|].
  exact (proj2 (decode_rejects_trailing_backslash
                  Demo.ucd (lit "END") eq_refl eq_refl)).
Defined.

End TerminatorProofs.

(** ** settings.py: [_deep_update] and [load_settings] *)

Module SettingsFileProofs.
Import SettingsFile.

Lemma str_eqb_eq a : forall b, str_eqb a b = true <-> a = b.
Proof.
  induction a as [|x a IH]; intros [|y b]; simpl; split; intros H;
    try discriminate; try reflexivity.
  - apply andb_true_iff in H. destruct H as [Hx Hab].
    apply N.eqb_eq in Hx. apply IH in Hab. congruence.
  - injection H as -> ->. rewrite N.eqb_refl. apply IH. reflexivity.
Qed.

Lemma str_eqb_refl a : str_eqb a a = true.
Proof. apply str_eqb_eq. reflexivity. Qed.

Lemma str_eqb_neq a b : a <> b -> str_eqb a b = false.
Proof.
  intros H. destruct (str_eqb a b) eqn:E; [|reflexivity].
  apply str_eqb_eq in E. contradiction.
Qed.

Lemma get_setitem_same d key value : get (setitem d key value) key = Some value.
Proof.
  induction d as [|[k v] d IH]; simpl.
  - rewrite str_eqb_refl. reflexivity.
  - destruct (str_eqb k key) eqn:E; simpl; rewrite E; [reflexivity|exact IH].
Qed.

Lemma get_setitem_other d key value key' :
  key <> key' -> get (setitem d key value) key' = get d key'.
Proof.
  intros Hne. induction d as [|[k v] d IH]; simpl.
  - rewrite str_eqb_neq by assumption. reflexivity.
  - destruct (str_eqb k key) eqn:E; simpl.
    + apply str_eqb_eq in E. subst k.
      rewrite str_eqb_neq by assumption. reflexivity.
    + rewrite IH. reflexivity.
Qed.

Lemma get_none d key : ~ In key (keys d) -> get d key = None.
Proof.
  induction d as [|[k v] d IH]; simpl; intros H; [reflexivity|].
  rewrite str_eqb_neq by tauto. apply IH. tauto.
Qed.

Lemma get_some_in d key v : get d key = Some v -> In key (keys d).
Proof.
  induction d as [|[k w] d IH]; simpl; [discriminate|].
  destruct (str_eqb k key) eqn:E.
  - apply str_eqb_eq in E. auto.
  - intros H. right. apply IH, H.
Qed.

(** The two-object case of [update_value] is [_deep_update]. *)
Lemma update_value_dicts updates base :
  update_value (JDict updates) (Some (JDict base)) =
  JDict (_deep_update base updates).
Proof.
  simpl. f_equal. revert base.
  induction updates as [|[key v] rest IH]; intros base; simpl.
  - reflexivity.
  - apply IH.
Qed.

Lemma deep_update_get updates :
  forall base key,
    NoDup (keys updates) ->
    get (_deep_update base updates) key =
    match get updates key with
    | None => get base key
    | Some value => Some (update_value value (get base key))
    end.
Proof.
  induction updates as [|[k v] rest IH]; intros base key Hnd.
  - reflexivity.
  - simpl in Hnd. inversion Hnd as [|k' l Hk Hrest]; subst.
    simpl. rewrite (IH _ key Hrest).
    destruct (str_eqb k key) eqn:E.
    + apply str_eqb_eq in E. subst key.
      rewrite (get_none rest k Hk). apply get_setitem_same.
    + assert (Hne : k <> key)
        by (intros ->; rewrite str_eqb_refl in E; discriminate).
      rewrite (get_setitem_other _ _ _ _ Hne). reflexivity.
Qed.

(** X9.  What [_deep_update] leaves under a key: the old value when the
    updates do not list the key; the merge of the two, by the same rule,
    when both the old and the listed value are objects; the listed value in
    every other case, also when it replaces an object by a scalar or a
    scalar by an object. *)
Theorem deep_update_lookup
        (base updates : list (str * json)) (key : str) :
  NoDup (keys updates) ->
  get (_deep_update base updates) key =
  match get updates key, get base key with
  | None, old => old
  | Some (JDict inner), Some (JDict old) => Some (JDict (_deep_update old inner))
  | Some value, _ => Some value
  end.
Proof.
  intros Hnd. rewrite (deep_update_get updates base key Hnd).
  destruct (get updates key) as [value|]; [|reflexivity].
  destruct value as [| | | | |inner]; try reflexivity.
  destruct (get base key) as [[| | | | |old]|]; try reflexivity.
  rewrite update_value_dicts. reflexivity.
Qed.

Lemma keys_setitem d key value :
  keys (setitem d key value) =
  keys d ++ (match get d key with Some _ => [] | None => [key] end).
Proof.
  unfold keys. induction d as [|[k v] d IH]; simpl; [reflexivity|].
  destruct (str_eqb k key) eqn:E; simpl; [rewrite app_nil_r; reflexivity|].
  rewrite IH. reflexivity.
Qed.

Lemma deep_update_keys updates :
  forall base,
    exists added,
      keys (_deep_update base updates) = keys base ++ added /\
      forall k, In k added -> In k (keys updates) /\ ~ In k (keys base).
Proof.
  induction updates as [|[k v] rest IH]; intros base.
  - exists []. simpl. rewrite app_nil_r. split; [reflexivity|intros ? []].
  - simpl.
    destruct (IH (setitem base k (update_value v (get base k))))
      as (added & Hk & Hadded).
    rewrite keys_setitem in Hk.
    destruct (get base k) as [old|] eqn:E.
    + rewrite app_nil_r in Hk. exists added. split; [exact Hk|].
      intros x Hx. destruct (Hadded x Hx) as [H1 H2].
      rewrite keys_setitem, E, app_nil_r in H2. auto.
    + exists (k :: added). rewrite <- app_assoc in Hk. split; [exact Hk|].
      intros x [<-|Hx].
      * split; [left; reflexivity|].
        intros Hin. unfold keys in Hin. apply in_map_iff in Hin.
        destruct Hin as ([k' v'] & Hk' & Hin). simpl in Hk'. subst k'.
        clear -E Hin. induction base as [|[a b] base IH]; [destruct Hin|].
        simpl in E. destruct (str_eqb a k) eqn:Ea; [discriminate|].
        destruct Hin as [Hin|Hin].
        -- injection Hin as -> _. rewrite str_eqb_refl in Ea. discriminate.
        -- apply IH; assumption.
      * destruct (Hadded x Hx) as [H1 H2].
        rewrite keys_setitem, E in H2.
        split; [right; exact H1|].
        intros Hin. apply H2, in_or_app. left. exact Hin.
Qed.

Lemma deep_update_lookup_witness :
  NoDup (keys some_file) /\
  get (_deep_update some_defaults some_file) (lit "readout") =
  Some (JDict [(lit "period_s", JNumber 1); (lit "log_folder", JString []);
               (lit "max_points", JNumber 600)]).
Proof.
  assert (H : NoDup (keys some_file)).
  { repeat constructor; simpl; intros H;
      repeat (destruct H as [H|H]; [discriminate|]); exact H. }
  split; [exact H|].
  exact (deep_update_lookup some_defaults some_file (lit "readout") H).
Defined.

Lemma get_ext d d' :
  keys d = keys d' ->
  forall k, (match get d k with Some _ => false | None => true end) =
            (match get d' k with Some _ => false | None => true end).
Proof.
  revert d'. induction d as [|[a v] d IH]; intros [|[a' v'] d'] H k;
    try discriminate; [reflexivity|].
  cbn in H. injection H as <- H. cbn [get].
  destruct (str_eqb a k); [reflexivity|]. apply IH. exact H.
Qed.

Lemma deep_update_new_keys updates :
  forall base,
    NoDup (keys updates) ->
    keys (_deep_update base updates) =
    keys base ++ new_keys base (keys updates).
Proof.
  induction updates as [|[k v] rest IH]; intros base Hnd.
  - cbn. rewrite app_nil_r. reflexivity.
  - cbn in Hnd. inversion Hnd as [|k' l Hk Hrest]; subst.
    cbn [_deep_update keys map fst new_keys filter].
    fold (keys rest). rewrite (IH _ Hrest), keys_setitem.
    assert (Hfilter :
              new_keys (setitem base k (update_value v (get base k)))
                       (keys rest) = new_keys base (keys rest)).
    { unfold new_keys. apply filter_ext_in. intros x Hx.
      assert (Hne : k <> x) by (intros ->; contradiction).
      rewrite (get_setitem_other _ _ _ _ Hne). reflexivity. }
    rewrite Hfilter.
    destruct (get base k) as [old|];
      [rewrite app_nil_r|rewrite <- app_assoc]; reflexivity.
Qed.

(** X10.  Loading a settings file never removes or reorders a key of the
    defaults: the keys of the result are the keys of the defaults, in their
    order, followed by exactly the keys that the file has and the defaults
    do not, in the order of the file.  A file that is missing, unreadable
    or malformed, or that holds something else than an object, leaves the
    defaults as they are. *)
Theorem load_settings_keeps_default_keys
        (defaults : list (str * json)) (file : option (option json)) :
  NoDup (file_keys file) ->
  keys (load_settings defaults file) =
  keys defaults ++ new_keys defaults (file_keys file) /\
  ((forall data, file <> Some (Some (JDict data))) ->
   load_settings defaults file = defaults).
Proof.
  intros Hnd. split.
  - unfold load_settings, file_keys in *.
    destruct file as [[[| | | | |data]|]|];
      try (cbn; rewrite app_nil_r; reflexivity).
    apply deep_update_new_keys. exact Hnd.
  - intros Hother. unfold load_settings.
    destruct file as [[[| | | | |data]|]|]; try reflexivity.
    exfalso. apply (Hother data). reflexivity.
Qed.

Lemma load_settings_keeps_default_keys_witness :
  NoDup (file_keys (Some (Some (JDict some_file)))) /\
  keys (load_settings some_defaults (Some (Some (JDict some_file)))) =
  [lit "protocol"; lit "readout"; lit "extra"].
Proof.
  assert (H : NoDup (file_keys (Some (Some (JDict some_file))))).
  { repeat constructor; simpl; intros H;
      repeat (destruct H as [H|H]; [discriminate|]); exact H. }
  split; [exact H|].
  exact (proj1 (load_settings_keeps_default_keys
                  some_defaults (Some (Some (JDict some_file))) H)).
Defined.

End SettingsFileProofs.

(** ** main_window.py: [_parse_recipients] *)

Module RecipientsProofs.
Import Recipients StripFacts.

Lemma re_split_nonempty text : forall b, re_split text b <> [].
Proof.
  induction text as [|c text IH]; intros b; simpl; [discriminate|].
  destruct (is_sep c); [destruct b; [apply IH|discriminate]|].
  destruct (re_split text false); discriminate.
Qed.

(** After a character that is no separator, whether a separator came
    before does not matter. *)
Lemma re_split_start c text b :
  is_sep c = false -> re_split (c :: text) b = re_split (c :: text) false.
Proof. intros H. simpl. rewrite H. reflexivity. Qed.

Lemma re_split_piece a :
  forall rest,
    forallb (fun c => negb (is_sep c)) a = true ->
    re_split (a ++ rest) false =
    match re_split rest false with
    | piece :: pieces => (a ++ piece) :: pieces
    | [] => [a]
    end.
Proof.
  induction a as [|c a IH]; intros rest Ha.
  - simpl. destruct (re_split rest false) eqn:E; [|reflexivity].
    exfalso. apply (re_split_nonempty rest false E).
  - simpl in Ha. apply andb_true_iff in Ha. destruct Ha as [Hc Ha].
    apply negb_true_iff in Hc. simpl. rewrite Hc, (IH rest Ha).
    destruct (re_split rest false); reflexivity.
Qed.

Lemma address_head a :
  address a -> exists c a', a = c :: a' /\ is_sep c = false.
Proof.
  intros (Hne & _ & Hall). destruct a as [|c a']; [congruence|].
  simpl in Hall. apply andb_true_iff in Hall. destruct Hall as [Hc _].
  apply negb_true_iff in Hc. eauto.
Qed.

Lemma re_split_to_text addrs :
  Forall address addrs -> addrs <> [] ->
  re_split (to_text addrs) false = addrs.
Proof.
  intros Hall. induction Hall as [|a addrs Ha Hrest IH]; [congruence|].
  intros _. destruct addrs as [|b addrs].
  - unfold to_text. simpl join. rewrite <- (app_nil_r a) at 1.
    rewrite re_split_piece by apply Ha. simpl. rewrite app_nil_r. reflexivity.
  - unfold to_text in *.
    inversion Hrest as [|b0 l Hb Hl]; subst.
    destruct (address_head b Hb) as (c & b' & -> & Hc).
    assert (Hj : exists tail, join [ord ";"; 10%N] ((c :: b') :: addrs)
                              = c :: tail).
    { destruct addrs; simpl; eauto. }
    destruct Hj as (tail & Hj).
    change (join [ord ";"; 10%N] (a :: (c :: b') :: addrs))
      with (a ++ [ord ";"; 10%N] ++ join [ord ";"; 10%N] ((c :: b') :: addrs)).
    specialize (IH ltac:(discriminate)).
    assert (IH' : re_split (c :: tail) false = (c :: b') :: addrs)
      by (rewrite <- Hj; exact IH).
    transitivity (re_split (a ++ [ord ";"; 10%N] ++ c :: tail) false);
      [do 3 f_equal; exact Hj|].
    rewrite re_split_piece by apply Ha.
    assert (Hsep : re_split ([ord ";"; 10%N] ++ c :: tail) false
                   = [] :: re_split (c :: tail) false).
    { cbn [app re_split]. change (is_sep (ord ";")) with true.
      change (is_sep 10%N) with true. cbv iota.
      rewrite Hc. reflexivity. }
    rewrite Hsep, IH', app_nil_r. reflexivity.
Qed.

Lemma parse_addresses addrs :
  Forall address addrs ->
  filter nonempty (map strip addrs) = addrs.
Proof.
  intros Hall. induction Hall as [|a addrs Ha _ IH]; [reflexivity|].
  simpl. destruct Ha as (Hne & Ht & _).
  rewrite (strip_fixed a Ht), IH.
  destruct a; [congruence|reflexivity].
Qed.

(** X11.  A list of addresses survives the field: parsing the text that
    the window shows for the list gives the list back, as long as every
    address is not empty, has no blank at either end and holds no semicolon
    and no line feed. *)
Theorem parse_recipients_to_text (addrs : list str) :
  Forall address addrs ->
  _parse_recipients (to_text addrs) = addrs.
Proof.
  intros Hall. unfold _parse_recipients.
  destruct addrs as [|a addrs]; [reflexivity|].
  rewrite re_split_to_text by (assumption || discriminate).
  apply parse_addresses. assumption.
Qed.

Lemma parse_recipients_to_text_witness :
  let addrs := [lit "a@example.org"; lit "b c@example.org"] in
  Forall address addrs /\
  to_text addrs = lit "a@example.org;" ++ [10%N] ++ lit "b c@example.org" /\
  _parse_recipients (to_text addrs) = addrs.
Proof.
  intros addrs.
  assert (H : Forall address addrs).
  { repeat constructor; try discriminate; reflexivity. }
  split; [exact H|]. split; [reflexivity|].
  exact (parse_recipients_to_text addrs H).
Defined.

Lemma re_split_no_sep text :
  forall b,
    Forall (fun p => forallb (fun c => negb (is_sep c)) p = true)
           (re_split text b).
Proof.
  induction text as [|c text IH]; intros b; simpl.
  - repeat constructor.
  - destruct (is_sep c) eqn:Hc.
    + destruct b; [apply IH|constructor; [reflexivity|apply IH]].
    + specialize (IH false).
      destruct (re_split text false) as [|piece pieces];
        [repeat constructor; simpl; rewrite Hc; reflexivity|].
      inversion IH as [|p l Hp Hl]; subst.
      constructor; [|assumption]. simpl. rewrite Hc. exact Hp.
Qed.

Lemma forallb_lstrip (P : codepoint -> bool) s :
  forallb P s = true -> forallb P (lstrip s) = true.
Proof.
  induction s as [|c s IH]; [reflexivity|].
  simpl. intros H. destruct (isspace c); [|exact H].
  apply andb_true_iff in H. apply IH, H.
Qed.

Lemma forallb_rev (P : codepoint -> bool) s :
  forallb P s = true -> forallb P (rev s) = true.
Proof.
  rewrite !forallb_forall. intros H x Hx. apply H, in_rev, Hx.
Qed.

Lemma forallb_strip (P : codepoint -> bool) s :
  forallb P s = true -> forallb P (strip s) = true.
Proof.
  intros H. unfold strip, rstrip.
  apply forallb_rev, forallb_lstrip, forallb_rev, forallb_lstrip, H.
Qed.

Lemma parse_recipients_addresses text :
  Forall address (_parse_recipients text).
Proof.
  unfold _parse_recipients.
  pose proof (re_split_no_sep text false) as Hp.
  induction Hp as [|p pieces Hp _ IH]; [constructor|].
  simpl. destruct (nonempty (strip p)) eqn:E; [|exact IH].
  constructor; [|exact IH]. repeat split.
  - intros H. rewrite H in E. discriminate.
  - apply strip_trimmed.
  - apply strip_trimmed.
  - apply forallb_strip, Hp.
Qed.

(** X12.  Whatever is typed into the field, every recipient that
    [_parse_recipients] returns is a usable address (not empty, no blank at
    either end, no semicolon, no line feed), and showing the parsed list
    and parsing it again changes nothing: the list is stable through saving
    and loading the settings. *)
Theorem parse_recipients_stable (text : str) :
  Forall address (_parse_recipients text) /\
  _parse_recipients (to_text (_parse_recipients text)) =
  _parse_recipients text.
Proof.
  split.
  - apply parse_recipients_addresses.
  - apply parse_recipients_to_text, parse_recipients_addresses.
Qed.

End RecipientsProofs.

(** ** emailer.py *)

Module EmailSenderProofs.
Import Emailer EmailSender.

(** Where a step stands in a list of calls. *)
Ltac split_at_login H :=
  repeat match type of H with
         | _ :: _ = ?pre ++ _ :: _ =>
             destruct pre as [|? pre]; simpl in H;
             [injection H as ? ?; subst; try discriminate
             |injection H as ? H; subst]
         | [] = ?pre ++ _ :: _ =>
             destruct pre; discriminate H
         end.

(** X13.  [send] checks its configuration before it touches the network:
    without a host or without recipients it raises [ValueError] and makes no
    call.  When TLS is configured, the login, with the user name and the
    password of the configuration, is made only after [starttls] has
    returned; without a user name there is no login at all.  A send that
    returns has handed over one message, addressed to all recipients. *)
Theorem send_checks_then_secures_login
        (config : EmailConfig) (body : str) (server : step -> option exn) :
  let '(r, steps) := send config body server in
  ((smtp_host config = [] \/ to_addrs config = []) ->
   steps = [] /\ exists msg, r = Raise (ValueError msg)) /\
  (forall pre user pw post,
      steps = pre ++ Login user pw :: post ->
      user = username config /\ pw = password config /\ user <> [] /\
      (use_tls config = true -> In StartTls pre /\ server StartTls = None)) /\
  (r = Ok tt ->
   filter is_send_message steps = [SendMessage (build_message config body)] /\
   msg_to (build_message config body)
   = Recipients.join (lit ", ") (to_addrs config)).
Proof.
  unfold send.
  destruct (smtp_host config) as [|h host] eqn:Eh.
  { split; [intros _; split; eauto|].
    split; [intros pre user pw post H; destruct pre; discriminate|].
    discriminate. }
  destruct (to_addrs config) as [|a addrs] eqn:Ea.
  { split; [intros _; split; eauto|].
    split; [intros pre user pw post H; destruct pre; discriminate|].
    discriminate. }
  destruct (server (SmtpConnect (h :: host) (smtp_port config) 15)) eqn:Ec.
  { split; [intros [H|H]; discriminate|].
    split; [intros pre user pw post H;
            destruct pre as [|? [|? ?]]; discriminate|].
    discriminate. }
  destruct (use_tls config) eqn:Et;
    destruct (username config) as [|u user'] eqn:Eu;
    cbn [app run_steps];
    repeat match goal with
           | |- context [server ?s] =>
               lazymatch s with
               | SmtpConnect _ _ _ => fail
               | _ => let E := fresh "E" in destruct (server s) eqn:E
               end
           end;
    cbn [app].
  all: (split; [intros [H|H]; discriminate|]).
  all: split.
  all: try (intros pre user pw post H; split_at_login H).
  all: try discriminate.
  all: try (intros _; split;
            [reflexivity
            |unfold build_message; simpl; rewrite Ea; reflexivity]).
  all: repeat split; auto; try discriminate; try (right; left; reflexivity).
Qed.

End EmailSenderProofs.

(** ** comms.py: what a query sends and leaves behind, what [close] leaves *)

Module ConnectionProofs.
Import Comms MainWindow Connection.

Lemma encode_ascii_ignore_app (a b : str) :
  encode_ascii_ignore (a ++ b) = encode_ascii_ignore a ++ encode_ascii_ignore b.
Proof.
  unfold encode_ascii_ignore. rewrite filter_app, map_app. reflexivity.
Qed.

(** The state of the port after a read, whatever the loop returns. *)
Lemma read_until_open p expected :
  Serial.is_open p = true ->
  Serial.read_until p expected =
  Ok (fst (Serial.read_loop expected [] (Serial.input p)),
      {| Serial.is_open := true;
         Serial.input := snd (Serial.read_loop expected [] (Serial.input p));
         Serial.written := Serial.written p |}).
Proof.
  intros H. unfold Serial.read_until. rewrite H.
  destruct (Serial.read_loop expected [] (Serial.input p)). reflexivity.
Qed.

(** A query on an open port whose write goes through: the answer is read
    from the bytes that arrive after the command, and the port has the
    command written. *)
Lemma serial_query_open config p command terminator incoming :
  Serial.is_open p = true ->
  SerialConnection.query
    {| SerialConnection.config := config; SerialConnection._serial := Some p |}
    command terminator Sent incoming =
  (Ok (strip (decode_ascii_ignore
                (fst (Serial.read_loop (expected_of terminator) []
                                       incoming)))),
   {| SerialConnection.config := config;
      SerialConnection._serial :=
        Some {| Serial.is_open := true;
                Serial.input :=
                  snd (Serial.read_loop (expected_of terminator) []
                                        incoming);
                Serial.written :=
                  Serial.written p
                  ++ encode_ascii_ignore (command ++ terminator) |} |}).
Proof.
  intros H. unfold SerialConnection.query.
  cbn [SerialConnection._serial SerialConnection.config].
  unfold Serial.reset_input_buffer. rewrite H.
  unfold Serial.write. cbn [Serial.is_open Serial.input Serial.written].
  unfold Serial.receive.
  cbn [Serial.is_open Serial.input Serial.written app delivered_of].
  unfold Serial.readline, expected_of.
  destruct terminator as [|t terminator];
    rewrite read_until_open by reflexivity;
    cbn [Serial.is_open Serial.input Serial.written]; reflexivity.
Qed.

(** A query on an open port whose write raises: the exception leaves the
    query, nothing is read, and the port has what went out. *)
Lemma serial_query_send_fails config p command terminator e n incoming :
  Serial.is_open p = true ->
  SerialConnection.query
    {| SerialConnection.config := config; SerialConnection._serial := Some p |}
    command terminator (SendFails e n) incoming =
  (Raise e,
   {| SerialConnection.config := config;
      SerialConnection._serial :=
        Some {| Serial.is_open := true;
                Serial.input := [];
                Serial.written :=
                  Serial.written p
                  ++ firstn n (encode_ascii_ignore (command ++ terminator))
             |} |}).
Proof.
  intros H. unfold SerialConnection.query.
  cbn [SerialConnection._serial SerialConnection.config].
  unfold Serial.reset_input_buffer. rewrite H.
  unfold Serial.write. cbn [Serial.is_open Serial.input Serial.written].
  reflexivity.
Qed.

(** X14.  A serial query answers from what arrives after the command
    only: [reset_input_buffer] drops whatever was waiting in the input
    buffer of the open port, so that the result and the state left behind
    are those of a port with an empty buffer. *)
Theorem serial_query_ignores_stale_input
        (config : SerialConfig.t) (p : Serial.t) (stale : bytes)
        (command terminator : str) (wire : send_outcome)
        (incoming : bytes) :
  Serial.is_open p = true ->
  SerialConnection.query
    {| SerialConnection.config := config;
       SerialConnection._serial := Some (with_input p stale) |}
    command terminator wire incoming =
  SerialConnection.query
    {| SerialConnection.config := config;
       SerialConnection._serial := Some (with_input p []) |}
    command terminator wire incoming.
Proof.
  intros H. destruct wire as [|e n].
  - rewrite !serial_query_open by exact H. reflexivity.
  - rewrite !serial_query_send_fails by exact H. reflexivity.
Qed.

Lemma serial_query_ignores_stale_input_witness :
  SerialConnection.query
    {| SerialConnection.config := Demo.serial_config;
       SerialConnection._serial :=
         Some (with_input Serial.fresh (Demo.to_bytes "old answer")) |}
    (lit "T?") (lit "\r\n") Sent (Demo.to_bytes "25.5") =
  SerialConnection.query
    {| SerialConnection.config := Demo.serial_config;
       SerialConnection._serial := Some (with_input Serial.fresh []) |}
    (lit "T?") (lit "\r\n") Sent (Demo.to_bytes "25.5").
Proof.
  apply (serial_query_ignores_stale_input
           Demo.serial_config Serial.fresh (Demo.to_bytes "old answer")).
  reflexivity.
Defined.

(** X15.  A query on an open connection of either class hands the ASCII
    bytes of the command followed by those of the terminator to [write]
    or [sendall].  What goes out is added after what was sent before:
    the whole payload when the send goes through, whether or not an
    answer arrives, and the part that was delivered when the send raises.
    In that case the exception of the send leaves the query; so a query
    that returns has sent the whole payload. *)
Theorem query_sends_command_then_terminator
        (c : InstrumentConnection) (command terminator : str)
        (env : environment) :
  connection_is_open c = true ->
  let payload :=
    encode_ascii_ignore command ++ encode_ascii_ignore terminator in
  let after := connection_query c command terminator env in
  bytes_out (snd after) =
  option_map (fun sent => sent ++ delivered_of payload (wire_send env))
             (bytes_out c) /\
  (wire_send env = Sent ->
   bytes_out (snd after) =
   option_map (fun sent => sent ++ payload) (bytes_out c)) /\
  (forall e n, wire_send env = SendFails e n -> fst after = Raise e) /\
  (forall r, fst after = Ok r ->
             wire_send env = Sent /\
             bytes_out (snd after) =
             option_map (fun sent => sent ++ payload) (bytes_out c)).
Proof.
  intros H payload after.
  assert (Hout :
            bytes_out (snd after) =
            option_map (fun sent => sent ++ delivered_of payload (wire_send env))
                       (bytes_out c)).
  { subst after payload.
    destruct c as [[config [p|]]|[config [s|]]]; try discriminate.
    - unfold connection_query. destruct (wire_send env) as [|e n].
      + rewrite serial_query_open by exact H.
        cbn. rewrite encode_ascii_ignore_app. reflexivity.
      + rewrite serial_query_send_fails by exact H.
        cbn. rewrite encode_ascii_ignore_app. reflexivity.
    - unfold connection_query, EthernetConnection.query.
      cbn [EthernetConnection._sock EthernetConnection.config].
      unfold Socket.sendall. destruct (wire_send env) as [|e n].
      + unfold _recv_until.
        destruct (recv_loop _ [] _) as [[data|e] rest];
          cbn; rewrite encode_ascii_ignore_app; reflexivity.
      + cbn. rewrite encode_ascii_ignore_app. reflexivity. }
  assert (Hfail : forall e n,
             wire_send env = SendFails e n -> fst after = Raise e).
  { intros e n Hw. subst after.
    destruct c as [[config [p|]]|[config [s|]]]; try discriminate.
    - unfold connection_query. rewrite Hw.
      rewrite serial_query_send_fails by exact H. reflexivity.
    - unfold connection_query, EthernetConnection.query.
      cbn [EthernetConnection._sock EthernetConnection.config].
      unfold Socket.sendall. rewrite Hw. reflexivity. }
  split; [exact Hout|]. split; [|split].
  - intros Hw. rewrite Hout, Hw. reflexivity.
  - exact Hfail.
  - intros r Hr.
    destruct (wire_send env) as [|e n] eqn:Hw.
    + split; [reflexivity|]. rewrite Hout. reflexivity.
    + rewrite (Hfail e n eq_refl) in Hr. discriminate.
Qed.

Lemma query_sends_command_then_terminator_witness :
  connection_is_open (Serial Demo.serial_opened) = true /\
  bytes_out (snd (connection_query (Serial Demo.serial_opened)
                                   (lit "T?") (lit "\r\n") Demo.disk_full)) =
  option_map
    (fun sent =>
       sent ++ delivered_of (encode_ascii_ignore (lit "T?")
                             ++ encode_ascii_ignore (lit "\r\n"))
                            (wire_send Demo.disk_full))
    (bytes_out (Serial Demo.serial_opened)).
Proof.
  split; [reflexivity|].
  exact (proj1 (query_sends_command_then_terminator
                  (Serial Demo.serial_opened) (lit "T?") (lit "\r\n")
                  Demo.disk_full eq_refl)).
Defined.

Lemma serial_query_keeps_state self command terminator wire incoming :
  SerialConnection.is_open
    (snd (SerialConnection.query self command terminator wire incoming)) =
  SerialConnection.is_open self.
Proof.
  destruct self as [config [p|]]; [|reflexivity].
  destruct (Serial.is_open p) eqn:E.
  - destruct wire as [|e n];
      [rewrite serial_query_open by exact E
      |rewrite serial_query_send_fails by exact E];
    unfold SerialConnection.is_open, SerialConnection.port_open; cbn;
    symmetry; exact E.
  - unfold SerialConnection.query.
    cbn [SerialConnection._serial SerialConnection.config].
    unfold Serial.reset_input_buffer. rewrite E. reflexivity.
Qed.

Lemma ethernet_query_keeps_state self command terminator wire script :
  EthernetConnection.is_open
    (snd (EthernetConnection.query self command terminator wire script)) =
  EthernetConnection.is_open self.
Proof.
  destruct self as [config [s|]]; [|reflexivity].
  unfold EthernetConnection.query, Socket.sendall.
  cbn [EthernetConnection._sock EthernetConnection.config].
  destruct wire as [|e n]; [|reflexivity].
  destruct (_recv_until _ terminator) as [r s2]. reflexivity.
Qed.

Lemma connection_query_keeps_state c command terminator env :
  connection_is_open (snd (connection_query c command terminator env)) =
  connection_is_open c.
Proof.
  destruct c as [s|e]; unfold connection_query.
  - pose proof (serial_query_keeps_state s command terminator
                                         (wire_send env)
                                         (line_incoming env)) as H.
    destruct (SerialConnection.query s command terminator (wire_send env)
                                     (line_incoming env)).
    exact H.
  - pose proof (ethernet_query_keeps_state e command terminator
                                           (wire_send env)
                                           (socket_script env)) as H.
    destruct (EthernetConnection.query e command terminator
                                       (wire_send env) (socket_script env)).
    exact H.
Qed.

(** X16.  [close] is final on both classes: whatever the socket does
    when it is closed, the connection is not open afterwards, a second
    [close] does nothing, and a query then fails without a byte on the
    wire. *)
Theorem close_is_final
        (c : InstrumentConnection) (first second : result unit)
        (command terminator : str) (env : environment) :
  let c1 := snd (fst (connection_close c first)) in
  connection_is_open c1 = false /\
  connection_close c1 second = (Ok tt, c1, []) /\
  (exists e, fst (connection_query c1 command terminator env) = Raise e) /\
  bytes_out (snd (connection_query c1 command terminator env)) = bytes_out c1.
Proof.
  destruct c as [[config [p|]]|[config [s|]]].
  - unfold connection_close, SerialConnection.close, connection_is_open,
      SerialConnection.is_open, SerialConnection.port_open,
      connection_query, SerialConnection.query, Serial.reset_input_buffer.
    cbn [SerialConnection._serial SerialConnection.config].
    destruct (Serial.is_open p) eqn:E; cbn; rewrite ?E; cbn;
      repeat split; eauto.
  - cbn. repeat split; eauto.
  - cbn. repeat split; eauto.
  - cbn. repeat split; eauto.
Qed.

End ConnectionProofs.

(** ** logger.py: the file of one session *)

Module LoggerRunProofs.
Import Logger LoggerRun.

Lemma written_lines_app evs evs' :
  written_lines (evs ++ evs') = written_lines evs ++ written_lines evs'.
Proof. unfold written_lines. apply flat_map_app. Qed.

(** One call of [log] on an open file. *)
Lemma log_open self h e :
  _handle self = Some h ->
  log self (entry_timestamp e) (entry_elapsed e) (entry_temperature e)
      (entry_disk e) =
  (fst (write_flush h (entry_row e) (entry_disk e)), self,
   snd (write_flush h (entry_row e) (entry_disk e))).
Proof.
  intros H. unfold log. rewrite H. unfold entry_row.
  destruct (write_flush h _ (entry_disk e)). reflexivity.
Qed.

Lemma log_all_open h :
  forall entries self,
    _handle self = Some h ->
    fst (log_all self entries) = self /\
    written_lines (snd (log_all self entries)) =
    map entry_row (filter write_returned entries) /\
    (forall path ln,
        In (Write path ln) (snd (log_all self entries)) -> path = name h) /\
    (forallb disk_ok entries = true ->
     flushed_each (snd (log_all self entries))).
Proof.
  induction entries as [|e entries IH]; intros self H.
  - cbn. repeat split; auto. intros path ln [].
  - cbn [log_all]. rewrite (log_open self h e H).
    destruct (IH self H) as (Hself & Hlines & Hpath & Hflush).
    destruct (log_all self entries) as [self2 evs'].
    cbn [fst snd] in *.
    split; [assumption|].
    unfold write_returned at 1, disk_ok at 1. cbn [filter forallb].
    unfold write_flush.
    destruct (entry_disk e) as [|x|x]; cbn [fst snd app map].
    + split; [|split].
      * cbn. f_equal. exact Hlines.
      * intros path ln [Hin|[Hin|Hin]]; [congruence|discriminate|eauto].
      * intros Hall. cbn. split; [reflexivity|]. apply Hflush.
        exact Hall.
    + split; [|split]; [exact Hlines|exact Hpath|discriminate].
    + split; [|split].
      * cbn. f_equal. exact Hlines.
      * intros path ln [Hin|Hin]; [congruence|eauto].
      * discriminate.
Qed.

(** X17.  The file of a session holds the header and then the rows in the
    order of the calls of [log]: a row is missing only where its write
    raised, every line went to the file that [start] returned, and as long
    as the disk accepts them each line is flushed before the next is
    written. *)
Theorem session_file_holds_header_then_rows
        (folder stamp : str) (entries : list entry) :
  let '(r, self, opening) :=
    start (init folder) stamp (Ok tt) (Ok tt) DiskOk in
  let '(_, logging) := log_all self entries in
  written_lines (opening ++ logging) =
  Header :: map entry_row (filter write_returned entries) /\
  (forall path ln, In (Write path ln) (opening ++ logging) -> r = Ok path) /\
  (forallb disk_ok entries = true -> flushed_each (opening ++ logging)).
Proof.
  cbn [start init write_flush Logger.folder name].
  set (path := folder ++ lit "/scm10_log_" ++ stamp ++ lit ".csv").
  set (self := {| Logger.folder := folder; file_path := Some path;
                  _handle := Some {| name := path |} |}).
  destruct (log_all_open {| name := path |} entries self eq_refl)
    as (_ & Hlines & Hpath & Hflush).
  destruct (log_all self entries) as [self2 logging]. cbn [snd] in *.
  split; [|split].
  - cbn. f_equal. exact Hlines.
  - intros p ln [Hin|[Hin|[Hin|[Hin|Hin]]]]; try discriminate.
    + injection Hin as <- _. reflexivity.
    + rewrite (Hpath p ln Hin). reflexivity.
  - intros Hall. cbn. split; [reflexivity|]. apply Hflush. exact Hall.
Qed.

(** X18.  [close] is final: whether the close of the file raises or
    not, the logger has no handle afterwards, so that a second [close]
    and every later [log] return without touching the file system. *)
Theorem logger_close_is_final
        (self : DataLogger) (first second : result unit)
        (entries : list entry) :
  let closed := snd (fst (close self first)) in
  _handle closed = None /\
  close closed second = (Ok tt, closed, []) /\
  log_all closed entries = (closed, []).
Proof.
  intros closed.
  assert (H : _handle closed = None).
  { unfold closed, close. destruct (_handle self) eqn:E; [reflexivity|].
    exact E. }
  split; [exact H|]. split.
  - unfold close. rewrite H. reflexivity.
  - induction entries as [|e entries IH]; [reflexivity|].
    cbn [log_all]. unfold log at 1. rewrite H. rewrite IH. reflexivity.
Qed.

End LoggerRunProofs.

(** ** main_window.py: what one poll, and a sequence of polls, leave *)

Module PollFrameProofs.
Import MainWindow Session.

Section Poll.
Variable ucd : unicode_db.

Lemma log_keeps_logger l ts el tk d :
  snd (fst (Logger.log l ts el tk d)) = l.
Proof.
  unfold Logger.log. destruct (Logger._handle l); [|reflexivity].
  destruct (Logger.write_flush _ _ d). reflexivity.
Qed.

Lemma set_logger_same self :
  set_logger self (logger self) = self.
Proof. destruct self. reflexivity. Qed.

Lemma set_alarm_manager_same self :
  set_alarm_manager self (alarm_manager self) = self.
Proof. destruct self. reflexivity. Qed.

Lemma poll_cases self env : poll_case ucd self env (_poll_temperature ucd self env).
Proof.
  unfold _poll_temperature.
  destruct (connection self) as [conn|] eqn:Hc; [|apply poll_idle; exact Hc].
  destruct (Settings.decode_terminator ucd (terminator (settings self)))
    as [term|e] eqn:Ht; [|eapply poll_bad_terminator; eauto].
  pose proof (@poll_read_failed ucd self env conn term) as Hfail.
  pose proof (@poll_sample ucd self env conn term) as Hok.
  cbv zeta in Hok.
  destruct (connection_query conn (temp_query (settings self)) term env)
    as [response conn'] eqn:Hq.
  cbn [snd] in Hfail, Hok.
  cbv beta iota zeta.
  match goal with
  | |- poll_case _ _ _ (match ?read with _ => _ end) =>
      destruct read as [temperature|exc] eqn:Hr
  end; [|apply Hfail; auto].
  cbv zeta.
  specialize (Hok temperature).
  change (elapsed_of (set_connection self (Some conn')) env)
    with (elapsed_of self env).
  cbn [set_connection settings time_data temp_data].
  destruct (append_history (max_points (settings self)) (elapsed_of self env)
                           temperature (time_data self) (temp_data self))
    as [td tp] eqn:Hh.
  cbn [fst snd] in Hok.
  cbn [set_history set_connection logger].
  destruct (logger self) as [l|] eqn:Hl.
  - pose proof (log_keeps_logger l (now_iso env) (elapsed_of self env)
                                 temperature (disk env)) as Hkeep.
    destruct (Logger.log l (now_iso env) (elapsed_of self env) temperature
                         (disk env)) as [[r l'] evs].
    cbn [fst snd] in Hkeep, Hok. subst l'.
    destruct (Alarm.evaluate (time_time env) (alarm_manager self) temperature
                             (alarm_form self) (Some (email_form self)))
      as [m effects] eqn:Ha.
    specialize (Hok r (map FileSystem evs) m effects Hc Ht eq_refl eq_refl).
    destruct r as [[]|e].
    + cbn [set_logger set_history set_connection
                      alarm_manager alarm_form email_form].
      rewrite Ha.
      replace (set_alarm_manager _ m) with
        (set_alarm_manager
           (set_history (set_connection self (Some conn')) td tp) m).
      * exact Hok.
      * unfold set_alarm_manager, set_history, set_connection. cbn.
        rewrite Hl. reflexivity.
    + replace (set_logger _ (Some l)) with
        (set_alarm_manager
           (set_history (set_connection self (Some conn')) td tp)
           (alarm_manager self)).
      * rewrite app_nil_r in Hok. exact Hok.
      * unfold set_alarm_manager, set_history, set_connection, set_logger.
        cbn. rewrite Hl. reflexivity.
  - cbn [set_history set_connection alarm_manager alarm_form email_form].
    destruct (Alarm.evaluate (time_time env) (alarm_manager self) temperature
                             (alarm_form self) (Some (email_form self)))
      as [m effects] eqn:Ha.
    specialize (Hok (Ok tt) [] m effects Hc Ht eq_refl eq_refl).
    exact Hok.
Qed.

Lemma written_by_log self env temperature r written :
  (r, written) =
  match logger self with
  | Some l =>
      (fst (fst (Logger.log l (now_iso env) (elapsed_of self env)
                            temperature (disk env))),
       map FileSystem
           (snd (Logger.log l (now_iso env) (elapsed_of self env)
                            temperature (disk env))))
  | None => (Ok tt, [])
  end ->
  (forall e, In e written ->
             exists f, e = FileSystem f /\
                       forall path ln,
                         f = Logger.Write path ln ->
                         ln = Logger.Row (now_iso env) (elapsed_of self env)
                                         temperature) /\
  (r = Ok tt \/ exists e, r = Raise e).
Proof.
  intros H. destruct (logger self) as [l|].
  - unfold Logger.log in H. destruct (Logger._handle l) as [h|].
    + unfold Logger.write_flush in H.
      destruct (disk env); cbn in H; injection H as -> ->; (split; [|eauto]);
        intros ev Hin; cbn in Hin;
        repeat (destruct Hin as [<-|Hin]; [eexists; split; [reflexivity|];
                                           intros path ln Heq;
                                           try discriminate;
                                           injection Heq as _ <-;
                                           reflexivity|]);
        destruct Hin.
    + cbn in H. injection H as -> ->. split; [intros e []|auto].
  - injection H as -> ->. split; [intros e []|auto].
Qed.

(** X19.  A poll whose query or parse fails does nothing but show the
    message: it returns normally, and the history, the logger, the alarm
    manager and the timer are as they were, so that the next tick polls
    again. *)
Theorem failed_read_leaves_session_untouched
        (self : t) (env : environment)
        (r : result unit) (self' : t) (events : list event) :
  _poll_temperature ucd self env = (r, self', events) ->
  existsb is_show_message events = true ->
  r = Ok tt /\
  (exists exc, events = [ShowMessage_ReadFailed exc]) /\
  time_data self' = time_data self /\ temp_data self' = temp_data self /\
  logger self' = logger self /\
  alarm_manager self' = alarm_manager self /\
  reading_active self' = reading_active self /\
  read_timer_active self' = read_timer_active self.
Proof.
  intros H Hshow. pose proof (poll_cases self env) as Hcase.
  rewrite H in Hcase. inversion Hcase; subst; try discriminate.
  - repeat split; eauto.
  - exfalso.
    match goal with
    | Hw : (_, _) = match logger self with _ => _ end |- _ =>
        apply written_by_log in Hw; destruct Hw as [Hwritten _]
    end.
    cbn [existsb app is_show_message orb] in Hshow.
    rewrite existsb_app in Hshow. apply orb_true_iff in Hshow.
    destruct Hshow as [Hshow|Hshow].
    + apply existsb_exists in Hshow. destruct Hshow as (e & Hin & He).
      destruct (Hwritten e Hin) as (f & -> & _). discriminate.
    + destruct r as [[]|e]; discriminate.
Qed.

(** X20.  A poll that shows a temperature uses that one sample
    everywhere: the history is the old one with the sample appended and
    cut, the plot shows that history, the row written to the log has the
    same elapsed time and temperature, the alarm is evaluated for the same
    temperature, from the manager's state before the poll, and it is
    evaluated whenever the poll returns. *)
Theorem poll_reports_one_sample
        (self : t) (env : environment)
        (r : result unit) (self' : t) (events : list event)
        (temperature : Float.t) :
  _poll_temperature ucd self env = (r, self', events) ->
  In (CurrentTempText temperature) events ->
  (time_data self', temp_data self') =
  append_history (max_points (settings self)) (elapsed_of self env)
                 temperature (time_data self) (temp_data self) /\
  In (PlotSetData (time_data self') (temp_data self')) events /\
  (forall path ts el tk,
      In (FileSystem (Logger.Write path (Logger.Row ts el tk))) events ->
      ts = now_iso env /\ el = elapsed_of self env /\ tk = temperature) /\
  (forall t effects,
      In (AlarmEvaluate t effects) events ->
      t = temperature /\
      (alarm_manager self', effects) =
      Alarm.evaluate (time_time env) (alarm_manager self) temperature
                     (alarm_form self) (Some (email_form self))) /\
  (r = Ok tt -> exists effects, In (AlarmEvaluate temperature effects) events).
Proof.
  intros H Hin. pose proof (poll_cases self env) as Hcase.
  rewrite H in Hcase. inversion Hcase; subst; try (destruct Hin; fail).
  - destruct Hin as [Hin|[]]. discriminate.
  - match goal with
    | Hw : (_, _) = match logger self with _ => _ end |- _ =>
        apply written_by_log in Hw; destruct Hw as [Hwritten Hr]
    end.
    assert (Ht : temperature0 = temperature).
    { destruct Hin as [Hin|[Hin|Hin]]; [discriminate|congruence|].
      apply in_app_or in Hin. destruct Hin as [Hin|Hin].
      - destruct (Hwritten _ Hin) as (f & Hf & _). discriminate.
      - destruct r as [[]|e]; [destruct Hin as [Hin|[]]; discriminate
                              |destruct Hin]. }
    subst temperature0.
    cbn [time_data temp_data set_alarm_manager set_history].
    split; [symmetry; apply surjective_pairing|].
    split; [left; reflexivity|]. split; [|split].
    + intros path ts el tk [Hrow|[Hrow|Hrow]]; try discriminate.
      apply in_app_or in Hrow. destruct Hrow as [Hrow|Hrow].
      * destruct (Hwritten _ Hrow) as (f & Hf & Hline). injection Hf as <-.
        specialize (Hline path _ eq_refl). injection Hline as -> -> ->.
        auto.
      * destruct r as [[]|e]; [destruct Hrow as [Hrow|[]]; discriminate
                              |destruct Hrow].
    + intros t0 effects0 [Ha|[Ha|Ha]]; try discriminate.
      apply in_app_or in Ha. destruct Ha as [Ha|Ha].
      * destruct (Hwritten _ Ha) as (f & Hf & _). discriminate.
      * destruct r as [[]|e]; [|destruct Ha].
        destruct Ha as [Ha|[]]. injection Ha as <- <-.
        split; [reflexivity|]. cbn [alarm_manager]. assumption.
    + intros ->. exists effects. right. right. apply in_or_app. right.
      left. reflexivity.
Qed.

Lemma append_history_lengths (m : Z) e t (td tp : list Float.t) :
  List.length td = List.length tp ->
  List.length (fst (append_history m e t td tp)) =
  List.length (snd (append_history m e t td tp)).
Proof.
  intros Hlen.
  assert (Hl : List.length (td ++ [e]) = List.length (tp ++ [t]))
    by (rewrite !length_app; simpl; lia).
  unfold append_history.
  destruct (Z.of_nat (List.length (td ++ [e])) >? m)%Z; cbn [fst snd];
    [|exact Hl].
  unfold slice_from. rewrite !length_skipn, Hl. reflexivity.
Qed.

Lemma same_session_refl self : same_session self self.
Proof. repeat split. Qed.

Lemma same_session_trans self1 self2 self3 :
  same_session self1 self2 -> same_session self2 self3 ->
  same_session self1 self3.
Proof.
  unfold same_session.
  intros (A1 & A2 & A3 & A4 & A5 & A6) (B1 & B2 & B3 & B4 & B5 & B6).
  repeat split; congruence.
Qed.

Lemma poll_same_session self env :
  same_session self (snd (fst (_poll_temperature ucd self env))).
Proof.
  pose proof (poll_cases self env) as Hcase.
  destruct (_poll_temperature ucd self env) as [[r self'] events].
  cbn [fst snd].
  inversion Hcase; subst; try apply same_session_refl.
  - repeat split. cbn [connection set_connection option_map].
    rewrite ConnectionProofs.connection_query_keeps_state.
    match goal with Hc : connection self = Some _ |- _ => rewrite Hc end.
    reflexivity.
  - repeat split. cbn [connection set_connection set_history
                       set_alarm_manager option_map].
    unfold conn'. rewrite ConnectionProofs.connection_query_keeps_state.
    match goal with Hc : connection self = Some _ |- _ => rewrite Hc end.
    reflexivity.
Qed.

Lemma poll_keeps_lengths self env :
  List.length (time_data self) = List.length (temp_data self) ->
  List.length (time_data (snd (fst (_poll_temperature ucd self env)))) =
  List.length (temp_data (snd (fst (_poll_temperature ucd self env)))).
Proof.
  intros Hlen. pose proof (poll_cases self env) as Hcase.
  destruct (_poll_temperature ucd self env) as [[r self'] events].
  cbn [fst snd].
  inversion Hcase; subst; try assumption.
  cbn [time_data temp_data set_alarm_manager set_history].
  apply append_history_lengths. exact Hlen.
Qed.

Lemma poll_history_cases self env :
  let self' := snd (fst (_poll_temperature ucd self env)) in
  (time_data self' = time_data self /\ temp_data self' = temp_data self) \/
  exists elapsed temperature,
    (time_data self', temp_data self') =
    append_history (max_points (settings self)) elapsed temperature
                   (time_data self) (temp_data self).
Proof.
  pose proof (poll_cases self env) as Hcase.
  destruct (_poll_temperature ucd self env) as [[r self'] events].
  cbn [fst snd].
  inversion Hcase; subst; auto.
  right. exists elapsed, temperature.
  cbn [time_data temp_data set_alarm_manager set_history].
  symmetry. apply surjective_pairing.
Qed.

(** X21.  The two history lists stay aligned: when they have the same
    length before a sequence of polls they have the same length after it,
    whatever [max_points] is and whichever polls fail, so that the i-th
    time always belongs to the i-th temperature. *)
Theorem polls_keep_history_aligned (self : t) (envs : list environment) :
  List.length (time_data self) = List.length (temp_data self) ->
  List.length (time_data (fst (poll_all ucd self envs))) =
  List.length (temp_data (fst (poll_all ucd self envs))).
Proof.
  revert self. induction envs as [|env envs IH]; intros self Hlen.
  - exact Hlen.
  - cbn [poll_all].
    pose proof (poll_keeps_lengths self env Hlen) as H1.
    destruct (_poll_temperature ucd self env) as [[r self1] events].
    cbn [fst snd] in H1. specialize (IH self1 H1).
    destruct (poll_all ucd self1 envs) as [self2 outcomes]. exact IH.
Qed.

(** X22.  No poll opens or closes anything: after any sequence of polls,
    failed or not, the settings, the two flags of the session, the start
    time and the logger are as they were and the connection is open
    exactly when it was before. *)
Theorem polls_never_open_or_close (self : t) (envs : list environment) :
  same_session self (fst (poll_all ucd self envs)).
Proof.
  revert self. induction envs as [|env envs IH]; intros self.
  - apply same_session_refl.
  - cbn [poll_all].
    pose proof (poll_same_session self env) as H1.
    destruct (_poll_temperature ucd self env) as [[r self1] events].
    cbn [fst snd] in H1. specialize (IH self1).
    destruct (poll_all ucd self1 envs) as [self2 outcomes].
    cbn [fst] in *. eapply same_session_trans; eassumption.
Qed.

End Poll.

Lemma failed_read_leaves_session_untouched_witness :
  _poll_temperature Demo.ucd Demo.window no_answer =
  (Ok tt,
   snd (fst (_poll_temperature Demo.ucd Demo.window no_answer)),
   [ShowMessage_ReadFailed (ValueError "Empty response")]) /\
  time_data (snd (fst (_poll_temperature Demo.ucd Demo.window no_answer))) =
  time_data Demo.window.
Proof.
  split; [reflexivity|].
  exact (proj1 (proj2 (proj2
           (failed_read_leaves_session_untouched
              Demo.ucd Demo.window no_answer _ _ _ eq_refl eq_refl)))).
Defined.

Lemma poll_reports_one_sample_witness :
  let '(r, self', events) :=
    _poll_temperature Demo.ucd Demo.window Demo.disk_full in
  In (CurrentTempText (Float.Finite (651 # 2))) events /\
  In (PlotSetData (time_data self') (temp_data self')) events.
Proof.
  assert (Hin : In (CurrentTempText (Float.Finite (651 # 2)))
                   (snd (_poll_temperature Demo.ucd Demo.window
                                           Demo.disk_full)))
    by (right; left; reflexivity).
  pose proof (poll_reports_one_sample
                Demo.ucd Demo.window Demo.disk_full
                (fst (fst (_poll_temperature Demo.ucd Demo.window
                                             Demo.disk_full)))
                (snd (fst (_poll_temperature Demo.ucd Demo.window
                                             Demo.disk_full)))
                (snd (_poll_temperature Demo.ucd Demo.window Demo.disk_full))
                (Float.Finite (651 # 2)) eq_refl Hin) as H.
  destruct (_poll_temperature Demo.ucd Demo.window Demo.disk_full)
    as [[r self'] events].
  split; [exact Hin|exact (proj1 (proj2 H))].
Defined.

Lemma polls_keep_history_aligned_witness :
  List.length (time_data Demo.window) = List.length (temp_data Demo.window) /\
  List.length
    (time_data (fst (poll_all Demo.ucd Demo.window
                              [Demo.disk_full; no_answer; Demo.disk_full]))) =
  List.length
    (temp_data (fst (poll_all Demo.ucd Demo.window
                              [Demo.disk_full; no_answer; Demo.disk_full]))).
Proof.
  split; [reflexivity|].
  apply (polls_keep_history_aligned Demo.ucd Demo.window). reflexivity.
Defined.

End PollFrameProofs.

(** ** main_window.py: the start and the stop of a session *)

Module SessionProofs.
Import MainWindow Session.

Lemma stop_when_stopped self env :
  reading_active self = false -> _stop_reading self env = (Ok tt, self, []).
Proof. intros H. unfold _stop_reading. rewrite H. reflexivity. Qed.

Lemma poll_without_connection ucd self env :
  connection self = None -> _poll_temperature ucd self env = (Ok tt, self, []).
Proof. intros H. unfold _poll_temperature. rewrite H. reflexivity. Qed.

(** The close of the connection in [_stop_reading]. *)
Lemma stop_connection_cases self env :
  let closing :=
    match connection self with
    | Some conn =>
        let '(r, conn', evs) :=
          Connection.connection_close conn (socket_close env) in
        match r with
        | Ok _ => (Ok tt, set_connection self None, map ConnectionEvent evs)
        | Raise e =>
            (Raise e, set_connection self (Some conn'),
             map ConnectionEvent evs)
        end
    | None => (Ok tt, self, [])
    end in
  existsb is_logger_event (snd closing) = false /\
  ((fst (fst closing) = Ok tt /\
    connection (snd (fst closing)) = None /\
    snd (fst closing) = set_connection self None) \/
   (exists e conn', fst (fst closing) = Raise e /\
                    snd (fst closing) = set_connection self (Some conn'))).
Proof.
  assert (Hev : forall evs,
             existsb is_logger_event (map ConnectionEvent evs) = false).
  { induction evs as [|e evs IH]; [reflexivity|exact IH]. }
  destruct (connection self) as [conn|] eqn:Hc; cbv zeta.
  - destruct (Connection.connection_close conn (socket_close env))
      as [[r conn'] evs].
    destruct r as [[]|e]; cbn [fst snd]; (split; [apply Hev|]).
    + left. auto.
    + right. eauto.
  - cbn [fst snd]. split; [reflexivity|]. left.
    repeat split; [exact Hc|]. destruct self. cbn in Hc. subst. reflexivity.
Qed.

Section Start.
Variable ucd : unicode_db.

(** X23.  A stop that returns leaves nothing of the session: the flags
    are down, the connection and the logger are gone and the alarm manager
    is as new, with its notification time forgotten; the history stays for
    the plot.  A tick of the timer that is still queued and a second stop
    then do nothing. *)
Theorem stop_leaves_window_idle
        (self : t) (env : stop_environment) (self' : t)
        (actions : list action) :
  reading_active self = true ->
  _stop_reading self env = (Ok tt, self', actions) ->
  idle self' /\
  time_data self' = time_data self /\ temp_data self' = temp_data self /\
  (forall env', _poll_temperature ucd self' env' = (Ok tt, self', [])) /\
  (forall env', _stop_reading self' env' = (Ok tt, self', [])).
Proof.
  intros Hactive H.
  assert (Hidle : idle self' /\ time_data self' = time_data self /\
                  temp_data self' = temp_data self).
  { unfold _stop_reading in H. rewrite Hactive in H. cbn [negb] in H.
    destruct (stop_connection_cases (end_session self) env)
      as [_ [(Hr & Hnone & Hself)|(e & conn' & Hr & _)]];
      cbv zeta in Hr;
      destruct (match connection (end_session self) with
                | Some conn => _
                | None => _
                end) as [[closed self1] closing];
      cbn [fst snd] in *; subst closed; [|discriminate].
    subst self1. cbn [logger set_connection end_session] in H.
    destruct (logger self) as [l|] eqn:Hl.
    - destruct (Logger.close l (file_close env)) as [[r l'] evs].
      destruct r as [[]|e]; [|discriminate].
      injection H as <- _. unfold idle. cbn. repeat split.
    - injection H as <- _. unfold idle. cbn. repeat split. exact Hl. }
  destruct Hidle as (Hidle & Htd & Htp).
  repeat split; try assumption; try apply Hidle.
  - intros env'. apply poll_without_connection. apply Hidle.
  - intros env'. apply stop_when_stopped. apply Hidle.
Qed.

(** X24.  When [_stop_reading] raises, from the close of the socket or
    of the log file, the session is marked as stopped all the same: the
    alarm manager is not reset, the log file is not closed when it was
    the socket that failed, and a second stop does nothing about it. *)
Theorem interrupted_stop_is_not_resumed
        (self : t) (env : stop_environment) (e : exn) (self' : t)
        (actions : list action) :
  reading_active self = true ->
  _stop_reading self env = (Raise e, self', actions) ->
  reading_active self' = false /\
  alarm_manager self' = alarm_manager self /\
  (existsb is_logger_event actions = false -> logger self' = logger self) /\
  (forall env', _stop_reading self' env' = (Ok tt, self', [])).
Proof.
  intros Hactive H.
  assert (Hleft : reading_active self' = false /\
                  alarm_manager self' = alarm_manager self /\
                  (existsb is_logger_event actions = false ->
                   logger self' = logger self)).
  { unfold _stop_reading in H. rewrite Hactive in H. cbn [negb] in H.
    destruct (stop_connection_cases (end_session self) env)
      as [Hev [(Hr & Hnone & Hself)|(e' & conn' & Hr & Hself)]];
      cbv zeta in Hr, Hself, Hev;
      destruct (match connection (end_session self) with
                | Some conn => _
                | None => _
                end) as [[closed self1] closing];
      cbn [fst snd] in *; subst closed self1.
    - cbn [logger set_connection end_session] in H.
      destruct (logger self) as [l|] eqn:Hl.
      + unfold Logger.close in H.
        destruct (Logger._handle l) as [h|]; [|discriminate].
        destruct (file_close env) as [[]|x]; [discriminate|].
        injection H as <- <- <-. cbn. repeat split.
        rewrite !existsb_app. cbn. rewrite !orb_true_r. discriminate.
      + discriminate.
    - injection H as <- <- <-. cbn. repeat split. }
  destruct Hleft as (Hflag & Halarm & Hlog).
  repeat split; try assumption.
  intros env'. apply stop_when_stopped. assumption.
Qed.

Lemma no_timer_start_in_connection_events evs :
  existsb is_timer_start (map ConnectionEvent evs) = false.
Proof. induction evs as [|e evs IH]; [reflexivity|exact IH]. Qed.

Lemma no_timer_start_in_logger_events evs :
  existsb is_timer_start (map LoggerEvent evs) = false.
Proof. induction evs as [|e evs IH]; [reflexivity|exact IH]. Qed.

Lemma no_poll_in_connection_events evs :
  existsb is_poll_event (map ConnectionEvent evs) = false.
Proof. induction evs as [|e evs IH]; [reflexivity|exact IH]. Qed.

Lemma no_poll_in_logger_events evs :
  existsb is_poll_event (map LoggerEvent evs) = false.
Proof. induction evs as [|e evs IH]; [reflexivity|exact IH]. Qed.

Lemma no_status_in_connection_events b evs :
  ~ In (ConnectionStatus b) (map ConnectionEvent evs).
Proof.
  induction evs as [|e evs IH]; [intros []|].
  intros [H|H]; [discriminate|exact (IH H)].
Qed.

Ltac no_such_action :=
  repeat first
         [ rewrite existsb_app
         | rewrite no_timer_start_in_connection_events
         | rewrite no_timer_start_in_logger_events
         | rewrite no_poll_in_connection_events
         | rewrite no_poll_in_logger_events
         | progress cbn [existsb app is_timer_start is_poll_event orb] ];
  reflexivity.

(** An [open] that returns leaves the connection open. *)
Lemma open_returns_open c device network c1 evs :
  (forall p, device = Ok p -> Comms.Serial.is_open p = true) ->
  connection_open c device network = (Ok tt, c1, evs) ->
  connection_is_open c1 = true.
Proof.
  intros Hdev H. destruct c as [s|e]; unfold connection_open in H.
  - unfold Comms.SerialConnection.open in H.
    destruct (Comms.SerialConnection.port_open s) eqn:Hp.
    + injection H as <- _. exact Hp.
    + destruct device as [p|x]; [|discriminate].
      injection H as <- _. cbn. apply Hdev. reflexivity.
  - unfold Comms.EthernetConnection.open in H.
    destruct (Comms.EthernetConnection._sock e) as [sock|] eqn:Hs.
    + injection H as <- _. cbn. unfold Comms.EthernetConnection.is_open.
      rewrite Hs. reflexivity.
    + destruct network as [sock|x]; [|discriminate].
      injection H as <- _. reflexivity.
Qed.

(** A [start] that returns has the file open and the header written. *)
Lemma start_returns_open folder stamp mk op disk path l evs :
  Logger.start (Logger.init folder) stamp mk op disk = (Ok path, l, evs) ->
  Logger._handle l = Some {| Logger.name := path |} /\
  In (Logger.Write path Logger.Header) evs.
Proof.
  unfold Logger.start. destruct mk as [[]|x]; [|discriminate].
  destruct op as [[]|x]; [|discriminate].
  unfold Logger.write_flush. destruct disk; try discriminate.
  intros H. injection H as <- <- <-. cbn. auto.
Qed.

Lemma first_sample_length (m : Z) e t :
  (List.length (fst (append_history m e t [] [])) <= 1)%nat.
Proof.
  unfold append_history. cbn [app List.length].
  destruct (Z.of_nat 1 >? m)%Z; cbn [fst]; [|cbn; lia].
  unfold slice_from. rewrite length_skipn. cbn [List.length]. lia.
Qed.

(** The three ways out of [_start_reading] on a window that is not
    reading: before a connection is open, with the connection open and no
    log file, and with the session running. *)
Lemma start_paths self ui env r self' actions :
  reading_active self = false ->
  device_opens env ->
  _start_reading ucd self ui env = (r, self', actions) ->
  (reading_active self' = false /\ time_data self' = time_data self /\
   existsb is_timer_start actions = false /\
   existsb is_poll_event actions = false /\
   ~ In (ConnectionStatus true) actions) \/
  (reading_active self' = false /\ time_data self' = time_data self /\
   existsb is_timer_start actions = false /\
   existsb is_poll_event actions = false /\
   (exists e, r = Raise e) /\
   exists conn, connection self' = Some conn /\
                connection_is_open conn = true) \/
  (reading_active self' = true /\
   existsb is_timer_start actions = true /\
   read_timer_active self' = true /\
   start_time self' = Some (monotonic_start env) /\
   (exists conn, connection self' = Some conn /\
                 connection_is_open conn = true) /\
   (exists l h, logger self' = Some l /\ Logger._handle l = Some h /\
                In (LoggerEvent (Logger.Write (Logger.name h) Logger.Header))
                   actions) /\
   (List.length (time_data self') <= 1)%nat).
Proof.
  intros Hidle Hdev H. unfold _start_reading in H. rewrite Hidle in H.
  assert (Hnothing : forall x,
             (x, self, @nil action) = (r, self', actions) ->
             reading_active self' = false /\
             time_data self' = time_data self /\
             existsb is_timer_start actions = false /\
             existsb is_poll_event actions = false /\
             ~ In (ConnectionStatus true) actions).
  { intros x Hx. injection Hx as <- <- <-. repeat split; auto. }
  destruct (_collect_settings_from_ui self ui) as [self0|e] eqn:Hcol;
    [|left; eapply Hnothing; eassumption].
  assert (Hflag0 : reading_active self0 = false /\
                   time_data self0 = time_data self).
  { unfold _collect_settings_from_ui in Hcol.
    destruct (serial_baud ui); [|discriminate].
    injection Hcol as <-. cbn. auto. }
  destruct Hflag0 as [Hflag0 Htd0].
  destruct (Settings.decode_terminator ucd (terminator (settings self0)))
    as [term|e].
  2:{ left. injection H as <- <- <-. repeat split; auto. }
  destruct (_make_connection ui) as [conn|e].
  2:{ left. injection H as <- <- <-. repeat split; auto. }
  destruct (connection_open conn (device env) (network env))
    as [[opened conn1] opening] eqn:Hopen.
  destruct opened as [[]|exc].
  2:{ left. injection H as <- <- <-. cbn [reading_active time_data
                                           set_connection].
      repeat split; auto.
      - no_such_action.
      - no_such_action.
      - intros Hin. apply in_app_or in Hin. destruct Hin as [Hin|Hin].
        + exact (no_status_in_connection_events _ _ Hin).
        + destruct Hin as [Hin|[Hin|[]]]; discriminate. }
  pose proof (open_returns_open _ _ _ _ _ Hdev Hopen) as Hconn.
  match type of H with
  | context [Logger.start (Logger.init ?f) _ _ _ _] => set (folder := f) in H
  end.
  destruct (Logger.start (Logger.init folder) (stamp env) (mkdir_outcome env)
                         (open_outcome env) (header_disk env))
    as [[started l] logging] eqn:Hstart.
  destruct started as [log_path|e].
  2:{ right. left. injection H as <- <- <-.
      cbn [reading_active time_data connection set_logger set_connection].
      repeat split; eauto.
      - no_such_action.
      - no_such_action. }
  right. right.
  destruct (start_returns_open _ _ _ _ _ _ _ _ Hstart) as [Hhandle Hheader].
  set (self1 := begin_session
                  (set_logger (set_connection self0 (Some conn1)) (Some l))
                  (monotonic_start env)) in H.
  pose proof (PollFrameProofs.poll_same_session ucd self1 (first_poll env))
    as (_ & Hra & Hrt & Hst & Hlg & Hco).
  pose proof (PollFrameProofs.poll_history_cases ucd self1 (first_poll env))
    as Hhist.
  destruct (_poll_temperature ucd self1 (first_poll env))
    as [[polled self2] events].
  cbn [fst snd] in Hra, Hrt, Hst, Hlg, Hco, Hhist.
  injection H as <- <- <-.
  split; [exact Hra|]. split.
  { rewrite !existsb_app. cbn. rewrite !orb_true_r. reflexivity. }
  split; [exact Hrt|]. split; [exact Hst|]. split; [|split].
  - cbn [connection self1 begin_session set_logger set_connection option_map]
      in Hco.
    destruct (connection self2) as [conn2|]; [|discriminate].
    injection Hco as Hco. exists conn2. split; [reflexivity|congruence].
  - exists l, {| Logger.name := log_path |}.
    split; [exact Hlg|]. split; [exact Hhandle|].
    apply in_or_app. left. apply in_or_app. right. right.
    apply (in_map LoggerEvent _ _ Hheader).
  - destruct Hhist as [[Htd _]|(e & t & Hh)].
    + rewrite Htd. cbn. lia.
    + apply (f_equal fst) in Hh. cbn [fst] in Hh. rewrite Hh.
      apply first_sample_length.
Qed.

(** X25.  From a window that is not reading, [_start_reading] marks the
    session as running exactly when it starts the timer, and then the
    session is complete: the connection is open, the log file is open
    with its header written, the clock of the session is set and the
    history holds at most the first sample.  Otherwise nothing was polled
    and the history of the previous session is still there. *)
Theorem start_establishes_session
        (self : t) (ui : form) (env : start_environment)
        (r : result unit) (self' : t) (actions : list action) :
  reading_active self = false ->
  device_opens env ->
  _start_reading ucd self ui env = (r, self', actions) ->
  (reading_active self' = true <-> existsb is_timer_start actions = true) /\
  (reading_active self' = true ->
   read_timer_active self' = true /\
   start_time self' = Some (monotonic_start env) /\
   (exists conn, connection self' = Some conn /\
                 connection_is_open conn = true) /\
   (exists l h, logger self' = Some l /\ Logger._handle l = Some h /\
                In (LoggerEvent (Logger.Write (Logger.name h) Logger.Header))
                   actions) /\
   (List.length (time_data self') <= 1)%nat) /\
  (reading_active self' = false ->
   existsb is_poll_event actions = false /\
   time_data self' = time_data self).
Proof.
  intros Hidle Hdev H.
  destruct (start_paths self ui env r self' actions Hidle Hdev H)
    as [(Hra & Htd & Hts & Hpe & _)
       |[(Hra & Htd & Hts & Hpe & _)
        |(Hra & Hts & Hrest)]].
  - rewrite Hra, Hts. repeat split; try discriminate; auto.
  - rewrite Hra, Hts. repeat split; try discriminate; auto.
  - rewrite Hra, Hts. split; [split; reflexivity|]. split.
    + intros _. exact Hrest.
    + discriminate.
Qed.

(** X26.  When the log file cannot be started, [_start_reading] raises
    after the connection was opened and shown as connected: the
    connection stays open on a window that is not reading, and
    [_stop_reading] does nothing about it. *)
Theorem failed_log_start_leaves_connection_open
        (self : t) (ui : form) (env : start_environment)
        (r : result unit) (self' : t) (actions : list action) :
  reading_active self = false ->
  device_opens env ->
  _start_reading ucd self ui env = (r, self', actions) ->
  In (ConnectionStatus true) actions ->
  existsb is_timer_start actions = false ->
  (exists e, r = Raise e) /\
  reading_active self' = false /\
  (exists conn, connection self' = Some conn /\
                connection_is_open conn = true) /\
  (forall env', _stop_reading self' env' = (Ok tt, self', [])).
Proof.
  intros Hidle Hdev H Hshown Hnot.
  destruct (start_paths self ui env r self' actions Hidle Hdev H)
    as [(_ & _ & _ & _ & Hno)
       |[(Hra & _ & _ & _ & Hr & Hconn)
        |(_ & Hts & _)]].
  - contradiction.
  - repeat split; try assumption.
    intros env'. apply stop_when_stopped. exact Hra.
  - congruence.
Qed.

End Start.

Lemma some_start_opens : device_opens some_start.
Proof. intros p H. discriminate. Qed.

Lemma start_without_disk_opens : device_opens start_without_disk.
Proof. intros p H. discriminate. Qed.

Lemma stop_leaves_window_idle_witness :
  reading_active Demo.window = true /\
  idle (snd (fst (_stop_reading Demo.window some_stop))).
Proof.
  split; [reflexivity|].
  exact (proj1 (stop_leaves_window_idle
                  Demo.ucd Demo.window some_stop _ _ eq_refl eq_refl)).
Defined.

Lemma interrupted_stop_is_not_resumed_witness :
  reading_active network_window = true /\
  fst (fst (_stop_reading network_window stop_with_socket_error)) =
  Raise (OSError 9) /\
  logger (snd (fst (_stop_reading network_window stop_with_socket_error))) =
  logger network_window.
Proof.
  split; [reflexivity|]. split; [reflexivity|].
  exact (proj1 (proj2 (proj2
           (interrupted_stop_is_not_resumed
              network_window stop_with_socket_error (OSError 9) _ _
              eq_refl eq_refl))) eq_refl).
Defined.

Lemma start_establishes_session_witness :
  reading_active fresh_window = false /\
  device_opens some_start /\
  reading_active
    (snd (fst (_start_reading Demo.ucd fresh_window some_form some_start))) =
  true /\
  start_time
    (snd (fst (_start_reading Demo.ucd fresh_window some_form some_start))) =
  Some (Float.Finite 10).
Proof.
  split; [reflexivity|]. split; [exact some_start_opens|].
  split; [reflexivity|].
  exact (proj1 (proj2 (proj1 (proj2
           (start_establishes_session
              Demo.ucd fresh_window some_form some_start _ _ _
              eq_refl some_start_opens eq_refl)) eq_refl))).
Defined.

Lemma failed_log_start_leaves_connection_open_witness :
  reading_active fresh_window = false /\
  device_opens start_without_disk /\
  fst (fst (_start_reading Demo.ucd fresh_window some_form
                           start_without_disk)) =
  Raise (OSError 13) /\
  reading_active
    (snd (fst (_start_reading Demo.ucd fresh_window some_form
                              start_without_disk))) = false.
Proof.
  split; [reflexivity|]. split; [exact start_without_disk_opens|].
  split; [reflexivity|].
  refine (proj1 (proj2
            (failed_log_start_leaves_connection_open
               Demo.ucd fresh_window some_form start_without_disk _ _ _
               eq_refl start_without_disk_opens eq_refl _ eq_refl))).
  cbv. auto.
Defined.

End SessionProofs.

(** ** protocol.py: when [parse_temperature] returns *)

Module ParseProofs.
Import Protocol StripFacts.

Section Parse.
Variable ucd : unicode_db.

Lemma digit_is_number c : is_digit ucd c = true -> number ucd [c].
Proof.
  intros H. exists [], [c], [], []. split; [reflexivity|].
  split; [left; reflexivity|]. split.
  - split; [discriminate|]. cbn. rewrite H. reflexivity.
  - split; left; reflexivity.
Qed.

Lemma number_has_digit t :
  number ucd t -> exists c, In c t /\ is_digit ucd c = true.
Proof.
  intros (sg & ip & fr & ex & -> & _ & [Hne Hall] & _).
  destruct ip as [|c ip]; [contradiction|].
  exists c. split.
  - apply in_or_app. right. left. reflexivity.
  - cbn in Hall. apply andb_true_iff in Hall. apply Hall.
Qed.

(** X27.  [parse_temperature] returns a value exactly when the trimmed
    response holds a decimal digit: a digit is enough for the pattern to
    match, and whatever the pattern matches converts with [float]; in
    every other case it raises. *)
Theorem parse_returns_iff_digit (response : str) :
  (exists v, parse_temperature ucd (Some response) = Ok v) <->
  existsb (is_digit ucd) (strip response) = true.
Proof.
  unfold parse_temperature. set (text := strip response). split.
  - intros [v Hv]. destruct text as [|c0 text'] eqn:E; [discriminate|].
    rewrite <- E in *.
    destruct (search (pattern ucd) text) as [m|] eqn:Es; [|discriminate].
    destruct (ProtocolProofs.search_number ucd _ m Es)
      as (Hnum & (pre & post & Htext & _) & _).
    destruct (number_has_digit _ Hnum) as (c & Hin & Hc).
    apply existsb_exists. exists c. split; [|exact Hc].
    rewrite Htext. apply in_or_app. right. apply in_or_app. left. exact Hin.
  - intros H. apply existsb_exists in H. destruct H as (c & Hin & Hc).
    destruct (in_split _ _ Hin) as (pre & post & Htext).
    destruct text as [|c0 text'] eqn:E; [destruct pre; discriminate|].
    rewrite <- E in *.
    destruct (search (pattern ucd) text) as [m|] eqn:Es.
    + destruct (ProtocolProofs.search_number ucd _ m Es) as (Hnum & _).
      destruct (ProtocolProofs.float_number ucd _ Hnum) as (v & Hv).
      rewrite Hv. eauto.
    + exfalso. apply (ProtocolProofs.search_no_number ucd text Es).
      exists [c], (List.length pre). split; [apply digit_is_number, Hc|].
      exists pre, post. split; [exact Htext|reflexivity].
Qed.

Lemma strip_strip (s : str) : strip (strip s) = strip s.
Proof. apply strip_fixed, strip_trimmed. Qed.

(** X28.  Blanks around a response change neither whether
    [parse_temperature] returns nor the value that it returns; so the
    parse of what [query] returns, which is stripped already, has the
    value of the parse of the text that was read.  When it raises, the
    two exceptions are of the same kind, and the one for a response
    without a number quotes the response as it was given, blanks
    included. *)
Theorem parse_ignores_surrounding_blanks (before s after : str) :
  forallb isspace before = true ->
  forallb isspace after = true ->
  let padded := before ++ s ++ after in
  (forall v, parse_temperature ucd (Some padded) = Ok v <->
             parse_temperature ucd (Some s) = Ok v) /\
  (forall v, parse_temperature ucd (Some (strip s)) = Ok v <->
             parse_temperature ucd (Some s) = Ok v) /\
  (forall e,
      parse_temperature ucd (Some padded) = Raise e <->
      (parse_temperature ucd (Some s) = Raise (ValueError "Empty response") /\
       e = ValueError "Empty response") \/
      (parse_temperature ucd (Some s) =
       Raise (ValueErrorRepr "No numeric value in response: " s) /\
       e = ValueErrorRepr "No numeric value in response: " padded)).
Proof.
  intros Hb Ha padded.
  assert (Hstrip : strip padded = strip s).
  { unfold padded, strip at 1. rewrite lstrip_app_spaces by exact Hb.
    fold (strip (s ++ after)). apply strip_app_spaces. exact Ha. }
  unfold parse_temperature. rewrite Hstrip, strip_strip.
  destruct (strip s) as [|c0 text'] eqn:E.
  - split; [|split].
    + intros v. split; discriminate.
    + intros v. split; discriminate.
    + intros e. split.
      * intros H. injection H as <-. left. auto.
      * intros [[_ ->]|[H _]]; [reflexivity|discriminate].
  - destruct (search (pattern ucd) (c0 :: text')) as [m|] eqn:Es.
    + destruct (ProtocolProofs.search_number ucd _ m Es) as (Hnum & _).
      destruct (ProtocolProofs.float_number ucd _ Hnum) as (v0 & Hv).
      rewrite Hv. split; [|split].
      * intros v. reflexivity.
      * intros v. reflexivity.
      * intros e. split; [discriminate|].
        intros [[H _]|[H _]]; discriminate.
    + split; [|split].
      * intros v. split; discriminate.
      * intros v. split; discriminate.
      * intros e. split.
        -- intros H. injection H as <-. right. auto.
        -- intros [[H _]|[_ ->]]; [discriminate|reflexivity].
Qed.

End Parse.

Lemma parse_ignores_surrounding_blanks_witness :
  forallb isspace (lit "  ") = true /\
  forallb isspace [13%N; 10%N] = true /\
  parse_temperature Demo.ucd (Some (lit "  " ++ lit "T=25.5" ++ [13%N; 10%N]))
  = Ok (Float.Finite (51 # 2)).
Proof.
  split; [reflexivity|]. split; [reflexivity|].
  exact (proj2 (proj1 (parse_ignores_surrounding_blanks
                         Demo.ucd (lit "  ") (lit "T=25.5") [13%N; 10%N]
                         eq_refl eq_refl) (Float.Finite (51 # 2)))
               eq_refl).
Defined.

End ParseProofs.

(** ** history_window.py: which log files a plot reads *)

Module HistoryWindowProofs.
Import HistoryWindow.

Lemma name_from_plain s :
  existsb is_separator s = false ->
  forall component, name_from s component = component ++ s.
Proof.
  induction s as [|c s IH]; intros H component; cbn [name_from].
  - rewrite app_nil_r. reflexivity.
  - cbn [existsb] in H. apply orb_false_iff in H. destruct H as [Hc Hs].
    rewrite Hc, (IH Hs), <- app_assoc. reflexivity.
Qed.

Lemma name_from_app a b :
  forall component,
    name_from (a ++ b) component = name_from b (name_from a component).
Proof.
  induction a as [|c a IH]; intros component; [reflexivity|].
  cbn [app name_from]. destruct (is_separator c); apply IH.
Qed.

Lemma slice_middle (prefix middle suffix : str) :
  suffix <> [] ->
  slice (Z.of_nat (List.length prefix)) (- Z.of_nat (List.length suffix))
        (prefix ++ middle ++ suffix) = middle.
Proof.
  intros Hsuffix.
  assert (Hlen : (0 < List.length suffix)%nat)
    by (destruct suffix; [contradiction|cbn; lia]).
  unfold slice. rewrite !length_app.
  assert (Hstart :
            Z.to_nat
              (if (Z.of_nat (List.length prefix) <? 0)%Z
               then Z.max (Z.of_nat (List.length prefix
                                     + (List.length middle
                                        + List.length suffix))
                           + Z.of_nat (List.length prefix)) 0
               else Z.min (Z.of_nat (List.length prefix))
                          (Z.of_nat (List.length prefix
                                     + (List.length middle
                                        + List.length suffix))))
            = List.length prefix).
  { destruct (Z.of_nat (List.length prefix) <? 0)%Z eqn:E.
    - apply Z.ltb_lt in E. lia.
    - lia. }
  assert (Hstop :
            Z.to_nat
              (if (- Z.of_nat (List.length suffix) <? 0)%Z
               then Z.max (Z.of_nat (List.length prefix
                                     + (List.length middle
                                        + List.length suffix))
                           + - Z.of_nat (List.length suffix)) 0
               else Z.min (- Z.of_nat (List.length suffix))
                          (Z.of_nat (List.length prefix
                                     + (List.length middle
                                        + List.length suffix))))
            = (List.length prefix + List.length middle)%nat).
  { destruct (- Z.of_nat (List.length suffix) <? 0)%Z eqn:E.
    - lia.
    - apply Z.ltb_ge in E. lia. }
  rewrite Z2Nat.inj_sub by (destruct (Z.of_nat (List.length prefix) <? 0)%Z;
                            lia).
  rewrite Hstart, Hstop.
  replace (List.length prefix + List.length middle - List.length prefix)%nat
    with (List.length middle) by lia.
  rewrite skipn_app, skipn_all, Nat.sub_diag. cbn [app skipn].
  rewrite firstn_app, firstn_all, Nat.sub_diag. cbn [firstn].
  apply app_nil_r.
Qed.

Section Clock.
Variable strptime : str -> option Z.

Local Abbreviation parse := (_parse_log_timestamp strptime).

Lemma parse_log_name (stamp : str) :
  parse (lit "scm10_log_" ++ stamp ++ lit ".csv") = strptime stamp.
Proof.
  unfold _parse_log_timestamp.
  replace (Settings.is_prefix (lit "scm10_log_")
                              (lit "scm10_log_" ++ stamp ++ lit ".csv"))
    with true by reflexivity.
  unfold Comms.ends_with.
  rewrite !rev_app_distr.
  replace (Settings.is_prefix (rev (lit ".csv"))
             (rev (lit ".csv") ++ rev stamp ++ rev (lit "scm10_log_")))
    with true by reflexivity.
  cbn [negb orb]. rewrite slice_middle by discriminate. reflexivity.
Qed.

Lemma name_of_log_path (folder stamp : str) :
  existsb is_separator stamp = false ->
  name (folder ++ lit "/scm10_log_" ++ stamp ++ lit ".csv") =
  lit "scm10_log_" ++ stamp ++ lit ".csv".
Proof.
  intros Hstamp. unfold name.
  change (lit "/scm10_log_" ++ stamp ++ lit ".csv")
    with (ord "/" :: lit "scm10_log_" ++ stamp ++ lit ".csv").
  rewrite name_from_app. cbn [name_from].
  replace (is_separator (ord "/")) with true by reflexivity.
  apply (name_from_plain (lit "scm10_log_" ++ stamp ++ lit ".csv")).
  rewrite !existsb_app, Hstamp. reflexivity.
Qed.

(** X29.  The history window recognises the file that the logger of a
    session creates: from the name of the path that [start] stores,
    [_parse_log_timestamp] cuts exactly the stamp that [start] put into
    it and hands it to [strptime], whatever the folder is. *)
Theorem logger_file_is_recognised (folder stamp : str)
        (opening : result unit) (disk : Logger.disk_outcome) :
  existsb is_separator stamp = false ->
  option_map (fun path => parse (name path))
             (Logger.file_path
                (snd (fst (Logger.start (Logger.init folder) stamp
                                        (Ok tt) opening disk)))) =
  Some (strptime stamp).
Proof.
  intros Hstamp. unfold Logger.start.
  destruct opening as [[]|x];
    [destruct (Logger.write_flush _ Logger.Header disk) as [r evs]|];
  cbn [fst snd Logger.file_path Logger.folder Logger.init option_map];
  f_equal; rewrite name_of_log_path by exact Hstamp;
  apply parse_log_name.
Qed.

(** *** The sort *)

Lemma insert_in item sorted x :
  In x (insert item sorted) <-> x = item \/ In x sorted.
Proof.
  induction sorted as [|other rest IH]; cbn [insert].
  - cbn. intuition.
  - destruct (fst item <? fst other)%Z; cbn [In]; [intuition|].
    rewrite IH. intuition.
Qed.

Lemma sort_from_in items :
  forall sorted x,
    In x (fold_left (fun sorted item => insert item sorted) items sorted) <->
    In x items \/ In x sorted.
Proof.
  induction items as [|item items IH]; intros sorted x; cbn [fold_left].
  - cbn. intuition.
  - rewrite IH, insert_in. cbn [In]. intuition.
Qed.

Lemma sort_in items x : In x (sort items) <-> In x items.
Proof. unfold sort. rewrite sort_from_in. cbn. intuition. Qed.

Lemma insert_ascending item sorted :
  ascending (map fst sorted) -> ascending (map fst (insert item sorted)).
Proof.
  induction sorted as [|other rest IH]; intros H; cbn [insert].
  - cbn. auto.
  - destruct (fst item <? fst other)%Z eqn:E.
    + apply Z.ltb_lt in E. cbn [map ascending] in *.
      destruct H as [Hall Hrest]. split; [|auto].
      constructor; [lia|].
      apply (Forall_impl _ (P := fun t' => (fst other <= t')%Z));
        [intros; lia|exact Hall].
    + apply Z.ltb_ge in E. cbn [map ascending] in *.
      destruct H as [Hall Hrest]. split; [|auto].
      apply Forall_forall. intros t Ht. apply in_map_iff in Ht.
      destruct Ht as (x & <- & Hx). apply insert_in in Hx.
      destruct Hx as [->|Hx]; [exact E|].
      rewrite Forall_forall in Hall. apply Hall, in_map, Hx.
Qed.

Lemma sort_ascending items : ascending (map fst (sort items)).
Proof.
  unfold sort.
  assert (H : forall sorted,
             ascending (map fst sorted) ->
             ascending
               (map fst (fold_left (fun sorted item => insert item sorted)
                                   items sorted))).
  { induction items as [|item items IH]; intros sorted Hs; [exact Hs|].
    cbn [fold_left]. apply IH, insert_ascending, Hs. }
  apply H. exact I.
Qed.

Lemma filter_ascending (keep : Z * str -> bool) items :
  ascending (map fst items) -> ascending (map fst (filter keep items)).
Proof.
  induction items as [|item items IH]; intros H; [exact I|].
  cbn [map ascending] in H. destruct H as [Hall Hrest].
  cbn [filter]. destruct (keep item); [|auto].
  cbn [map ascending]. split; [|auto].
  rewrite Forall_forall in *. intros t Ht. apply Hall.
  apply in_map_iff in Ht. destruct Ht as (x & <- & Hx).
  apply filter_In in Hx. apply in_map, Hx.
Qed.

Lemma last_in {A} (l : list A) d : l <> [] -> In (last l d) l.
Proof.
  induction l as [|a l IH]; intros H; [contradiction|].
  destruct l as [|b l]; [left; reflexivity|].
  right. apply IH. discriminate.
Qed.

Lemma last_greatest (items : list (Z * str)) d :
  ascending (map fst items) ->
  forall x, In x items -> (fst x <= fst (last items d))%Z.
Proof.
  induction items as [|a items IH]; intros H x Hx; [destruct Hx|].
  cbn [map ascending] in H. destruct H as [Hall Hrest].
  destruct items as [|b items].
  - destruct Hx as [<-|[]]. cbn. lia.
  - change (last (a :: b :: items) d) with (last (b :: items) d).
    destruct Hx as [<-|Hx]; [|apply IH; assumption].
    rewrite Forall_forall in Hall. apply Hall, in_map, last_in. discriminate.
Qed.

Lemma last_map {A B} (f : A -> B) (l : list A) d :
  last (map f l) (f d) = f (last l d).
Proof.
  induction l as [|a l IH]; [reflexivity|].
  destruct l as [|b l]; [reflexivity|]. exact IH.
Qed.

Lemma candidates_of_in glob ts path :
  In (ts, path) (candidates_of strptime glob) <->
  In path glob /\ parse path = Some ts.
Proof.
  unfold candidates_of. rewrite in_flat_map. split.
  - intros (p & Hp & Hin). destruct (parse p) as [t|] eqn:E; [|destruct Hin].
    destruct Hin as [Hin|[]]. injection Hin as <- <-. auto.
  - intros [Hp E]. exists path. rewrite E. split; [exact Hp|left; reflexivity].
Qed.

Lemma times_of_candidates items :
  (forall x, In x items -> parse (snd x) = Some (fst x)) ->
  times_of strptime (map snd items) = map fst items.
Proof.
  induction items as [|x items IH]; intros H; [reflexivity|].
  cbn [map times_of flat_map]. rewrite (H x (or_introl eq_refl)).
  cbn [app]. f_equal. apply IH. intros y Hy. apply H. right. exact Hy.
Qed.

(** X30.  [_select_log_files] returns the files whose stamp lies in the
    range and, before them, the one file that was started last before the
    range, when there is one: every file in the range is selected, every
    selected file is of the folder and is in the range or the latest
    before it, a file before the range is selected whenever one exists,
    and the files come in the order of their stamps. *)
Theorem select_log_files_covers_range
        (glob : list str) (start_dt end_dt : Z) :
  let selected := _select_log_files strptime true glob start_dt end_dt in
  (forall path ts,
      In path glob -> parse path = Some ts ->
      (start_dt <= ts <= end_dt)%Z -> In path selected) /\
  (forall path,
      In path selected ->
      exists ts,
        In path glob /\ parse path = Some ts /\
        ((start_dt <= ts <= end_dt)%Z \/
         ((ts < start_dt)%Z /\
          forall path' ts',
            In path' glob -> parse path' = Some ts' ->
            (ts' < start_dt)%Z -> (ts' <= ts)%Z))) /\
  ((exists path ts,
       In path glob /\ parse path = Some ts /\ (ts < start_dt)%Z) ->
   exists path ts,
     In path selected /\ parse path = Some ts /\ (ts < start_dt)%Z) /\
  ascending (times_of strptime selected).
Proof.
  unfold _select_log_files. cbn [negb].
  set (candidates := sort (candidates_of strptime glob)).
  set (in_range := fun item : Z * str =>
                     (start_dt <=? fst item)%Z && (fst item <=? end_dt)%Z).
  set (before := fun item : Z * str => (fst item <? start_dt)%Z).
  assert (Hcand : forall ts path,
             In (ts, path) candidates <->
             In path glob /\ parse path = Some ts).
  { intros ts path. unfold candidates.
    rewrite sort_in. apply candidates_of_in. }
  assert (Hasc : ascending (map fst candidates)) by apply sort_ascending.
  assert (Hrange : forall x, In x (filter in_range candidates) <->
                             In x candidates /\
                             (start_dt <= fst x <= end_dt)%Z).
  { intros x. rewrite filter_In. unfold in_range.
    rewrite andb_true_iff, !Z.leb_le. reflexivity. }
  assert (Hbefore : forall x, In x (filter before candidates) <->
                              In x candidates /\ (fst x < start_dt)%Z).
  { intros x. rewrite filter_In. unfold before.
    rewrite Z.ltb_lt. reflexivity. }
  set (chosen :=
         match filter before candidates with
         | [] => filter in_range candidates
         | first :: _ =>
             last (filter before candidates) first
             :: filter in_range candidates
         end).
  assert (Hres :
            match map snd (filter before candidates) with
            | [] => map snd (filter in_range candidates)
            | first :: _ =>
                last (map snd (filter before candidates)) first
                :: map snd (filter in_range candidates)
            end = map snd chosen).
  { unfold chosen. destruct (filter before candidates) as [|d rest] eqn:E;
      [reflexivity|].
    cbn [map]. rewrite <- E.
    change (snd d :: map snd rest) with (map snd (d :: rest)).
    rewrite <- E, last_map. reflexivity. }
  cbv zeta. rewrite Hres. clear Hres.
  assert (Hchosen : forall x,
             In x chosen <->
             In x (filter in_range candidates) \/
             (filter before candidates <> [] /\
              exists d, x = last (filter before candidates) d /\
                        In x (filter before candidates))).
  { intros x. unfold chosen.
    destruct (filter before candidates) as [|d rest] eqn:E.
    - split; [auto|]. intros [H|[H _]]; [exact H|contradiction].
    - rewrite <- E. cbn [In]. split.
      + intros [<-|H]; [|auto]. right. split; [rewrite E; discriminate|].
        exists d. split; [reflexivity|].
        apply last_in. rewrite E. discriminate.
      + intros [H|(_ & d' & -> & _)]; [auto|]. left.
        rewrite E. clear. revert d.
        induction rest as [|a rest IH]; intros d; [reflexivity|].
        change (last (d :: a :: rest) d) with (last (a :: rest) d).
        change (last (d :: a :: rest) d') with (last (a :: rest) d').
        destruct rest as [|b rest]; [reflexivity|].
        specialize (IH a).
        change (last (a :: b :: rest) a) with (last (b :: rest) a) in IH.
        change (last (a :: b :: rest) d') with (last (b :: rest) d') in IH.
        change (last (a :: b :: rest) d) with (last (b :: rest) d).
        change (last (a :: b :: rest) d') with (last (b :: rest) d').
        clear IH. revert b. induction rest as [|c rest IH2]; intros b;
          [reflexivity|].
        change (last (b :: c :: rest) d) with (last (c :: rest) d).
        change (last (b :: c :: rest) d') with (last (c :: rest) d').
        apply IH2. }
  split; [|split; [|split]].
  - intros path ts Hin Hp Hr. apply in_map_iff. exists (ts, path).
    split; [reflexivity|]. apply Hchosen. left. apply Hrange.
    split; [apply Hcand; auto|exact Hr].
  - intros path Hin. apply in_map_iff in Hin.
    destruct Hin as ([ts p] & Hp & Hin). cbn [snd] in Hp. subst p.
    exists ts. apply Hchosen in Hin.
    destruct Hin as [Hin|(Hne & d & Hlast & Hin)].
    + apply Hrange in Hin. destruct Hin as [Hc Hr].
      apply Hcand in Hc. destruct Hc as [Hg Hp]. auto.
    + pose proof Hin as Hin'. apply Hbefore in Hin'.
      destruct Hin' as [Hc Hlt]. apply Hcand in Hc. destruct Hc as [Hg Hp].
      split; [exact Hg|]. split; [exact Hp|]. right.
      split; [exact Hlt|].
      intros path' ts' Hg' Hp' Hlt'.
      assert (Hin' : In (ts', path') (filter before candidates)).
      { apply Hbefore. split; [apply Hcand; auto|exact Hlt']. }
      pose proof (last_greatest (filter before candidates) d
                                (filter_ascending before candidates Hasc)
                                (ts', path') Hin') as Hle.
      rewrite <- Hlast in Hle. exact Hle.
  - intros (path & ts & Hg & Hp & Hlt).
    assert (Hin : In (ts, path) (filter before candidates)).
    { apply Hbefore. split; [apply Hcand; auto|exact Hlt]. }
    assert (Hne : filter before candidates <> []).
    { intros E. rewrite E in Hin. destruct Hin. }
    pose proof (last_in (filter before candidates) (ts, path) Hne) as Hlast.
    destruct (last (filter before candidates) (ts, path)) as [ts' path']
      eqn:El.
    exists path', ts'. pose proof Hlast as Hb. apply Hbefore in Hb.
    destruct Hb as [Hc Hlt']. apply Hcand in Hc. destruct Hc as [_ Hp'].
    split; [|auto]. apply in_map_iff. exists (ts', path').
    split; [reflexivity|]. apply Hchosen. right. split; [exact Hne|].
    exists (ts, path). rewrite El. auto.
  - rewrite times_of_candidates.
    + unfold chosen.
      destruct (filter before candidates) as [|d rest] eqn:E;
        [apply filter_ascending, Hasc|].
      rewrite <- E in Hbefore |- *. cbn [map ascending].
      split; [|apply filter_ascending, Hasc].
      apply Forall_forall. intros t Ht. apply in_map_iff in Ht.
      destruct Ht as (x & <- & Hx). apply Hrange in Hx.
      assert (Hlast : In (last (filter before candidates) d)
                         (filter before candidates))
        by (apply last_in; rewrite E; discriminate).
      apply Hbefore in Hlast. lia.
    + intros [ts path] Hin. cbn [fst snd]. apply Hchosen in Hin.
      destruct Hin as [Hin|(_ & _ & _ & Hin)].
      * apply Hrange in Hin. destruct Hin as [Hc _].
        apply Hcand in Hc. apply Hc.
      * apply Hbefore in Hin. destruct Hin as [Hc _].
        apply Hcand in Hc. apply Hc.
Qed.

End Clock.

Lemma logger_file_is_recognised_witness :
  option_map
    (fun path => _parse_log_timestamp digits_clock (name path))
    (Logger.file_path Demo.logger_started) =
  Some (Some 20240101120000%Z).
Proof.
  exact (logger_file_is_recognised
           digits_clock (lit "logs") (lit "20240101_120000") (Ok tt)
           Logger.DiskOk eq_refl).
Defined.

End HistoryWindowProofs.

